(** * Guitar-Hero-Game: the state reducer of [src/main.ts] and its scoring,
      expiry and pseudo-random helpers, embedded in Rocq.

    The TypeScript source computes with the JavaScript [number] type.  The
    embedding is written once over an interface [JSNumber] of the operations
    the source uses, and the interface is given two interpretations:

    - [Float64]: IEEE-754 binary64 with round-to-nearest-even, which is what
      a JavaScript engine evaluates;
    - [Exact]: the rationals, that is the same expressions read without any
      rounding error.

    The program is the [Float64] reading.  Statements that only depend on
    the shape of the reducer are proved for every interpretation, hence for
    binary64; statements about values are proved on [Float64].  [Exact] is
    not the program: it serves to tell what the rounding of binary64
    changes, and no statement about the reducer's states rests on it. *)

From Stdlib Require Import ZArith QArith Qpower Qround Qabs List Bool String
  Lia Lqa Floats.
Import ListNotations.

Set Implicit Arguments.

(** ** The [number] interface *)

Class JSNumber (num : Type) : Type := {
  lit : Q -> num;                 (* a numeric literal of the source text *)
  add : num -> num -> num;        (* x + y *)
  sub : num -> num -> num;        (* x - y *)
  mul : num -> num -> num;        (* x * y *)
  div : num -> num -> num;        (* x / y *)
  rem : num -> num -> num;        (* x % y *)
  abs : num -> num;               (* Math.abs *)
  round : num -> num;             (* Math.round *)
  max : num -> num -> num;        (* Math.max, two arguments *)
  leb : num -> num -> bool;       (* x <= y *)
  ltb : num -> num -> bool;       (* x < y *)
  eqb : num -> num -> bool;       (* x === y *)
  same : num -> num -> bool       (* the same stored value *)
}.

Declare Scope js_scope.
Delimit Scope js_scope with js.
Notation "x + y" := (add x y) : js_scope.
Notation "x - y" := (sub x y) : js_scope.
Notation "x * y" := (mul x y) : js_scope.
Notation "x / y" := (div x y) : js_scope.
Notation "x 'mod' y" := (rem x y) : js_scope.
Notation "x <= y" := (leb x y) : js_scope.
Notation "x < y" := (ltb x y) : js_scope.
Notation "x >= y" := (leb y x) : js_scope.
Notation "x > y" := (ltb y x) : js_scope.
Notation "x === y" := (eqb x y) (at level 70, no associativity) : js_scope.
Arguments lit {num _} q%_Q.

(** ** Interpretation 1: binary64 *)

Module F64.

(** An integer of magnitude below 2^53 as a double (exact there). *)
Definition of_Z (z : Z) : float :=
  match z with
  | Z0 => PrimFloat.zero
  | Zpos _ => PrimFloat.of_uint63 (Uint63.of_Z z)
  | Zneg p => PrimFloat.opp (PrimFloat.of_uint63 (Uint63.of_Z (Zpos p)))
  end.

(** A decimal literal [n / 10^k]: both parts are exact doubles and the
    division rounds once, to the double nearest to the literal. *)
Definition lit (q : Q) : float :=
  PrimFloat.div (of_Z (Qnum q)) (of_Z (Zpos (Qden q))).

Definition signed (s : bool) (m : positive) : Z :=
  if s then Zneg m else Zpos m.

(** [Math.round]: the integer nearest to [x], ties towards +infinity,
    computed on the exact value [m * 2^e] of the double; NaN, the zeros and
    the infinities are returned as they are, and a result of zero keeps the
    sign of [x]. *)
Definition round (x : float) : float :=
  match Prim2SF x with
  | S754_finite s m e =>
      if (0 <=? e)%Z then x
      else
        let n := ((2 * signed s m + 2 ^ (- e)) / 2 ^ (1 - e))%Z in
        if (n =? 0)%Z then (if s then neg_zero else PrimFloat.zero)
        else of_Z n
  | _ => x
  end.

(** A finite non-zero double as [m * 2^e] with a 53-bit integer [m]:
    the magnitude, the sign being read apart. *)
Definition decode (x : float) : PrimInt63.int * Z :=
  let (f, e) := Z.frexp (PrimFloat.abs x) in
  (normfr_mantissa f, (e - 53)%Z).

(** [r * 2^n mod m] for [r < m], one doubling at a time. *)
Fixpoint double_mod (n : nat) (r m : PrimInt63.int) : PrimInt63.int :=
  match n with
  | O => r
  | S n' => double_mod n' (PrimInt63.mod (PrimInt63.add r r) m) m
  end.

(** [x % y]: the remainder of the truncated division, exact, with the sign
    of the dividend.  With [|x| = mx * 2^ex] and [|y| = my * 2^ey] the
    remainder of the magnitudes is [R * 2^(min ex ey)], where [R] is
    [mx * 2^(ex - ey) mod my] when [ey <= ex], and [mx mod (my * 2^(ey - ex))]
    otherwise, which is [mx] itself once [ey - ex] reaches 10 since
    [mx < 2^53 <= my * 2^10]. *)
Definition rem (x y : float) : float :=
  if is_nan x || is_nan y || is_infinity x || is_zero y then nan
  else if is_infinity y || is_zero x then x
  else
    let (mx, ex) := decode x in
    let (my, ey) := decode y in
    let R :=
      if (ey <=? ex)%Z
      then double_mod (Z.to_nat (ex - ey)) (PrimInt63.mod mx my) my
      else if (ey - ex <? 10)%Z
           then PrimInt63.mod mx (PrimInt63.lsl my (Uint63.of_Z (ey - ex)))
           else mx in
    let r := Z.ldexp (PrimFloat.of_uint63 R) (Z.min ex ey) in
    if get_sign x then PrimFloat.opp r else r.

(** [Math.max] of two numbers: NaN is contagious and +0 is above -0. *)
Definition max (x y : float) : float :=
  if is_nan x || is_nan y then nan
  else if PrimFloat.ltb x y then y
  else if PrimFloat.ltb y x then x
  else if get_sign x then y else x.

End F64.

#[export] Instance Float64 : JSNumber float := {
lit := F64.lit;
add := PrimFloat.add;
sub := PrimFloat.sub;
mul := PrimFloat.mul;
div := PrimFloat.div;
rem := F64.rem;
abs := PrimFloat.abs;
round := F64.round;
max := F64.max;
leb := PrimFloat.leb;
ltb := PrimFloat.ltb;
eqb := PrimFloat.eqb;
same := PrimFloat.Leibniz.eqb
}.

(** ** Interpretation 2: exact rationals

    The reducer divides and takes remainders by non-zero constants only, so
    the value [Qdiv] gives to a division by zero is never used. *)

Module Rat.

Definition trunc (x : Q) : Z :=
  if Qle_bool 0 x then Qfloor x else Qceiling x.

Definition rem (x y : Q) : Q := (x - y * inject_Z (trunc (x / y)))%Q.

Definition round (x : Q) : Q := inject_Z (Qfloor (x + (1 # 2))%Q).

Definition max (x y : Q) : Q := if Qle_bool x y then y else x.

End Rat.

#[export] Instance Exact : JSNumber Q := {
lit := fun q => q;
add := Qplus;
sub := Qminus;
mul := Qmult;
div := Qdiv;
rem := Rat.rem;
abs := Qabs;
round := Rat.round;
max := Rat.max;
leb := Qle_bool;
ltb := fun x y => negb (Qle_bool y x);
eqb := Qeq_bool;
same := Qeq_bool
}.

(** ** Data model *)

(** The identifiers are the template strings [`note${k}`] and [`Tail${k}`]
  of a counter value, or the empty string; they are kept symbolic. *)
Inductive Ident (num : Type) : Type :=
| NoId
| NoteId (k : num)
| TailId (k : num).
Arguments NoId {num}.

Module Tail.
Record t (num : Type) : Type := mk {
  id : Ident num;
  createTime : num;
  width : num;
  height : num;
  x : string;
  y : num;
  duration : num;
  style : string
}.
End Tail.

Module Note.
Record t (num : Type) : Type := mk {
  id : Ident num;
  createTime : num;
  userPlayed : bool;
  instrumentName : string;
  velocity : num;
  pitch : num;
  start : num;
  end_ : num;
  cx : string;
  cy : num;
  tail : option (Tail.t num)
}.
End Note.

Module State.
Record t (num : Type) : Type := mk {
  time : num;
  gameEnd : bool;
  note : list (Note.t num);
  tail : list (Tail.t num);
  exit : list (Note.t num + Tail.t num);
  noteCount : num;
  score : num;
  playNote : list (Note.t num);
  backgroundNote : list (Note.t num);
  randomNotes : list (Note.t num);
  consecutiveHits : num;
  multiplier : num
}.
End State.

(** The events folded by the reducer: the five classes of [main] and the
  [Number] wrapper that signals the end of the game. *)
Inductive Event (num : Type) : Type :=
| MusicNote (note : Note.t num)
| Tick (elapsed : num)
| KeyPressEvent (column : num)
| BackgroundNote (note : Note.t num)
| EndTail (endTime : num)
| GameEnd (n : num).

(** The argument type of [createNote]:
  [MusicNote | BackgroundNote | KeyPressEvent]. *)
Inductive NoteRequest (num : Type) : Type :=
| OfMusicNote (note : Note.t num)
| OfBackgroundNote (note : Note.t num)
| OfKeyPress (column : num).

(** The argument type of [processNoteEvent]: [KeyPressEvent | EndTail]. *)
Inductive NoteEvent (num : Type) : Type :=
| Pressed (column : num)
| Released (endTime : num).

Section Game.

Context {num : Type} {JS : JSNumber num}.
Local Open Scope js_scope.

#[local] Abbreviation Note := (Note.t num).
#[local] Abbreviation Tail := (Tail.t num).
#[local] Abbreviation State := (State.t num).

(** *** Constants *)

Definition TICK_RATE_MS : num := lit 20.
Definition SECOND_PER_TICK : num := lit 0.02.
Definition TAIL_WIDTH : num := lit 10.
Definition NOTE_PATH_LENGTH : num := lit 350.
Definition NOTE_TRAVEL_DURATION : num := lit 2000.
Definition NOTE_ALIGNMENT_TOLERANCE : num := lit 30.

(** *** The pseudo-random generator (class [RNG]) *)

Definition RNG_m : num := lit 0x80000000.
Definition RNG_a : num := lit 1103515245.
Definition RNG_c : num := lit 12345.

Definition hash (seed : num) : num := (RNG_a * seed + RNG_c) mod RNG_m.

Definition scale (h : num) : num := h / (RNG_m - lit 1).

(** [scan((acc) => RNG.hash(acc), seed)]: the accumulators emitted for the
    first [n] values of the source. *)
Fixpoint scanHash (acc : num) (n : nat) : list num :=
  match n with
  | O => []
  | S n' => let acc' := hash acc in acc' :: scanHash acc' n'
  end.

Definition createRngStream (seed : num) (n : nat) : list num :=
  map scale (scanHash seed n).

(** *** Utility functions *)

Definition assignColumn (pitch : num) : num := pitch mod lit 4.

Definition movementPerTick : num :=
  NOTE_PATH_LENGTH / (NOTE_TRAVEL_DURATION / TICK_RATE_MS).

Definition tailLength (noteDuration : num) : num :=
  (NOTE_PATH_LENGTH / NOTE_TRAVEL_DURATION) * (noteDuration * lit 1000).

Definition isAlignedCurried (tolerance targetCy : num) (note : Note) : bool :=
  abs (Note.cy note - targetCy) <= tolerance.

Definition isAligned : Note -> bool :=
  isAlignedCurried NOTE_ALIGNMENT_TOLERANCE NOTE_PATH_LENGTH.

(** [`${arr[i]}`] for an array literal indexed by a number: the element at
    the position equal to [i], and the text [undefined] when there is
    none. *)
Fixpoint indexFrom (k : Z) (arr : list string) (i : num) : string :=
  match arr with
  | [] => "undefined"%string
  | a :: arr' =>
      if i === lit (inject_Z k) then a else indexFrom (k + 1) arr' i
  end.

Definition index (arr : list string) (i : num) : string := indexFrom 0 arr i.

(** *** Identity of stored values

    The source compares notes with [!==] and [includes], that is by object
    identity.  Every live note is a distinct object carrying its own
    counter value in [id], so identity is rendered by the comparison of all
    fields. *)

Definition Ident_same (a b : Ident num) : bool :=
  match a, b with
  | NoId, NoId => true
  | NoteId j, NoteId k => same j k
  | TailId j, TailId k => same j k
  | _, _ => false
  end.

Definition Tail_same (a b : Tail) : bool :=
  Ident_same (Tail.id a) (Tail.id b)
  && same (Tail.createTime a) (Tail.createTime b)
  && same (Tail.width a) (Tail.width b)
  && same (Tail.height a) (Tail.height b)
  && String.eqb (Tail.x a) (Tail.x b)
  && same (Tail.y a) (Tail.y b)
  && same (Tail.duration a) (Tail.duration b)
  && String.eqb (Tail.style a) (Tail.style b).

Definition Note_same (a b : Note) : bool :=
  Ident_same (Note.id a) (Note.id b)
  && same (Note.createTime a) (Note.createTime b)
  && Bool.eqb (Note.userPlayed a) (Note.userPlayed b)
  && String.eqb (Note.instrumentName a) (Note.instrumentName b)
  && same (Note.velocity a) (Note.velocity b)
  && same (Note.pitch a) (Note.pitch b)
  && same (Note.start a) (Note.start b)
  && same (Note.end_ a) (Note.end_ b)
  && String.eqb (Note.cx a) (Note.cx b)
  && same (Note.cy a) (Note.cy b)
  && match Note.tail a, Note.tail b with
     | None, None => true
     | Some ta, Some tb => Tail_same ta tb
     | _, _ => false
     end.

(** [arr.includes(note)] *)
Definition includes (arr : list Note) (note : Note) : bool :=
  existsb (Note_same note) arr.

Definition hasTail (note : Note) : bool :=
  match Note.tail note with Some _ => true | None => false end.

(** *** Initial state *)

Definition initialState : State :=
  {| State.time := lit 0;
     State.gameEnd := false;
     State.note := [];
     State.tail := [];
     State.exit := [];
     State.noteCount := lit 0;
     State.score := lit 0;
     State.playNote := [];
     State.backgroundNote := [];
     State.randomNotes := [];
     State.consecutiveHits := lit 0;
     State.multiplier := lit 1 |}.

(** *** Creation of notes and tails *)

Definition createTail (s : State) (e : Note) : Tail :=
  let tailDistance := tailLength (Note.end_ e - Note.start e) in
  {| Tail.id := TailId (State.noteCount s);
     Tail.createTime := State.time s;
     Tail.width := TAIL_WIDTH;
     Tail.height := tailDistance;
     Tail.x :=
       index ["35"; "75"; "115"; "155"]%string (assignColumn (Note.pitch e));
     Tail.y := lit (-1) * tailDistance;
     Tail.duration := Note.end_ e - Note.start e;
     Tail.style :=
       String.append "fill: "
         (index ["green"; "red"; "blue"; "yellow"]%string
            (assignColumn (Note.pitch e))) |}.

(** The note [createNote] returns for a key press: a dummy that only counts
    a wrong press. *)
Definition dummyNote : Note :=
  {| Note.id := NoId;
     Note.createTime := lit 0;
     Note.userPlayed := true;
     Note.instrumentName := "piano";
     Note.velocity := lit 0;
     Note.pitch := lit 0;
     Note.start := lit 0;
     Note.end_ := lit 0;
     Note.cx := EmptyString;
     Note.cy := lit 0;
     Note.tail := None |}.

(** The note [createNote] returns for a spawn event carrying the chart row
    [e]; only the identifier depends on the kind of the event. *)
Definition materialise (s : State) (id : Ident num) (e : Note) : Note :=
  {| Note.id := id;
     Note.createTime := State.time s;
     Note.userPlayed := Note.userPlayed e;
     Note.instrumentName := Note.instrumentName e;
     Note.velocity := Note.velocity e;
     Note.pitch := Note.pitch e;
     Note.start := Note.start e;
     Note.end_ := Note.end_ e;
     Note.cx := Note.cx e;
     Note.cy := lit 0;
     Note.tail :=
       if Note.end_ e - Note.start e >= lit 1
       then Some (createTail s e) else None |}.

Definition createNote (s : State) (e : NoteRequest num) : Note :=
  match e with
  | OfKeyPress _ => dummyNote
  | OfMusicNote n => materialise s (NoteId (State.noteCount s)) n
  | OfBackgroundNote n => materialise s NoId n
  end.

(** *** Movement *)

Definition moveNote (note : Note) : Note :=
  {| Note.id := Note.id note;
     Note.createTime := Note.createTime note;
     Note.userPlayed := Note.userPlayed note;
     Note.instrumentName := Note.instrumentName note;
     Note.velocity := Note.velocity note;
     Note.pitch := Note.pitch note;
     Note.start := Note.start note;
     Note.end_ := Note.end_ note;
     Note.cx := Note.cx note;
     Note.cy := Note.cy note + movementPerTick;
     Note.tail := Note.tail note |}.

Definition moveTail (tail : Tail) : Tail :=
  if Tail.y tail + Tail.height tail >= NOTE_PATH_LENGTH then
    let newHeight := max (lit 0) (Tail.height tail - movementPerTick) in
    {| Tail.id := Tail.id tail;
       Tail.createTime := Tail.createTime tail;
       Tail.width := Tail.width tail;
       Tail.height := newHeight;
       Tail.x := Tail.x tail;
       Tail.y := NOTE_PATH_LENGTH - newHeight;
       Tail.duration := Tail.duration tail;
       Tail.style := Tail.style tail |}
  else
    {| Tail.id := Tail.id tail;
       Tail.createTime := Tail.createTime tail;
       Tail.width := Tail.width tail;
       Tail.height := Tail.height tail;
       Tail.x := Tail.x tail;
       Tail.y := Tail.y tail + movementPerTick;
       Tail.duration := Tail.duration tail;
       Tail.style := Tail.style tail |}.

(** *** The clock tick *)

Definition noteExpired (elapsed : num) (note : Note) : bool :=
  elapsed - Note.createTime note
  > NOTE_TRAVEL_DURATION / lit 1000 / SECOND_PER_TICK.

Definition tailExpired (elapsed : num) (tail : Tail) : bool :=
  elapsed - Tail.createTime tail
  > (Tail.duration tail * lit 5) / SECOND_PER_TICK.

Definition not {T : Type} (f : T -> bool) (x : T) : bool := negb (f x).

Definition expiredNote (s : State) (elapsed : num) : list Note :=
  filter (noteExpired elapsed) (State.note s).

Definition activeNote (s : State) (elapsed : num) : list Note :=
  filter (not (noteExpired elapsed)) (State.note s).

Definition expiredTail (s : State) (elapsed : num) : list Tail :=
  filter (tailExpired elapsed) (State.tail s).

Definition activeTail (s : State) (elapsed : num) : list Tail :=
  filter (not (tailExpired elapsed)) (State.tail s).

Definition missedNotes (s : State) (elapsed : num) : list Note :=
  filter (fun note => negb (hasTail note))
    (filter (fun note => negb (includes (State.playNote s) note))
       (expiredNote s elapsed)).

Definition tick (s : State) (elapsed : num) : State :=
  {| State.time := elapsed;
     State.gameEnd := State.gameEnd s;
     State.note := map moveNote (activeNote s elapsed);
     State.tail := map moveTail (activeTail s elapsed);
     State.exit := map inl (expiredNote s elapsed)
                   ++ map inr (expiredTail s elapsed);
     State.noteCount := State.noteCount s;
     State.score := State.score s;
     State.playNote := [];
     State.backgroundNote := [];
     State.randomNotes := [];
     State.consecutiveHits :=
       if (0 <? List.length (missedNotes s elapsed))%nat
       then lit 0 else State.consecutiveHits s;
     State.multiplier :=
       if (0 <? List.length (missedNotes s elapsed))%nat
       then lit 1 else State.multiplier s |}.

(** *** Scoring *)

Record Scoring : Type := mkScoring {
  newStreak : num;
  roundedMultiplier : num;
  roundedScore : num
}.

Definition calculateMultiplierAndScore (s : State) : Scoring :=
  let newStreak := State.consecutiveHits s + lit 1 in
  let newMultiplier :=
    if newStreak mod lit 10 === lit 0
    then State.multiplier s + lit 0.2 else State.multiplier s in
  let roundedMultiplier := round (newMultiplier * lit 10) / lit 10 in
  let roundedScore :=
    round ((State.score s + lit 1 * roundedMultiplier) * lit 10) / lit 10 in
  {| newStreak := newStreak;
     roundedMultiplier := roundedMultiplier;
     roundedScore := roundedScore |}.

(** *** Key presses and tail releases *)

Definition isTailAlign (s : State) (endTime : num) : bool :=
  abs (State.time s * SECOND_PER_TICK - endTime
       - NOTE_TRAVEL_DURATION / lit 1000) <= lit 0.25.

Definition processNoteEvent (s : State) (e : NoteEvent num) : State :=
  match e with
  | Pressed column =>
      match find (fun note => assignColumn (Note.pitch note) === column)
                 (State.note s) with
      | Some activeNote =>
          if isAligned activeNote then
            if negb (hasTail activeNote) then
              let r := calculateMultiplierAndScore s in
              {| State.time := State.time s;
                 State.gameEnd := State.gameEnd s;
                 State.note :=
                   filter (fun note => negb (Note_same note activeNote))
                          (State.note s);
                 State.tail := State.tail s;
                 State.exit := State.exit s ++ [inl activeNote];
                 State.noteCount := State.noteCount s;
                 State.score := roundedScore r;
                 State.playNote := State.playNote s ++ [activeNote];
                 State.backgroundNote := State.backgroundNote s;
                 State.randomNotes := State.randomNotes s;
                 State.consecutiveHits := newStreak r;
                 State.multiplier := roundedMultiplier r |}
            else
              {| State.time := State.time s;
                 State.gameEnd := State.gameEnd s;
                 State.note :=
                   filter (fun note => negb (Note_same note activeNote))
                          (State.note s);
                 State.tail := State.tail s;
                 State.exit := State.exit s ++ [inl activeNote];
                 State.noteCount := State.noteCount s;
                 State.score := State.score s;
                 State.playNote := State.playNote s ++ [activeNote];
                 State.backgroundNote := State.backgroundNote s;
                 State.randomNotes := State.randomNotes s;
                 State.consecutiveHits := State.consecutiveHits s;
                 State.multiplier := State.multiplier s |}
          else
            {| State.time := State.time s;
               State.gameEnd := State.gameEnd s;
               State.note := State.note s;
               State.tail := State.tail s;
               State.exit := State.exit s;
               State.noteCount := State.noteCount s;
               State.score := State.score s;
               State.playNote := State.playNote s;
               State.backgroundNote := State.backgroundNote s;
               State.randomNotes :=
                 State.randomNotes s ++ [createNote s (OfKeyPress column)];
               State.consecutiveHits := State.consecutiveHits s;
               State.multiplier := State.multiplier s |}
      | None =>
          {| State.time := State.time s;
             State.gameEnd := State.gameEnd s;
             State.note := State.note s;
             State.tail := State.tail s;
             State.exit := State.exit s;
             State.noteCount := State.noteCount s;
             State.score := State.score s;
             State.playNote := State.playNote s;
             State.backgroundNote := State.backgroundNote s;
             State.randomNotes :=
               State.randomNotes s ++ [createNote s (OfKeyPress column)];
             State.consecutiveHits := State.consecutiveHits s;
             State.multiplier := State.multiplier s |}
      end
  | Released endTime =>
      if isTailAlign s endTime then
        let r := calculateMultiplierAndScore s in
        {| State.time := State.time s;
           State.gameEnd := State.gameEnd s;
           State.note := State.note s;
           State.tail := State.tail s;
           State.exit := State.exit s;
           State.noteCount := State.noteCount s;
           State.score := roundedScore r;
           State.playNote := State.playNote s;
           State.backgroundNote := State.backgroundNote s;
           State.randomNotes := State.randomNotes s;
           State.consecutiveHits := newStreak r;
           State.multiplier := roundedMultiplier r |}
      else
        {| State.time := State.time s;
           State.gameEnd := State.gameEnd s;
           State.note := State.note s;
           State.tail := State.tail s;
           State.exit := State.exit s;
           State.noteCount := State.noteCount s;
           State.score := State.score s;
           State.playNote := State.playNote s;
           State.backgroundNote := State.backgroundNote s;
           State.randomNotes := State.randomNotes s;
           State.consecutiveHits := lit 0;
           State.multiplier := lit 1 |}
  end.

(** *** The reducer *)

Definition reduceState (s : State) (e : Event num) : State :=
  match e with
  | MusicNote n =>
      let newNote := createNote s (OfMusicNote n) in
      match Note.tail newNote with
      | Some newTail =>
          {| State.time := State.time s;
             State.gameEnd := State.gameEnd s;
             State.note := State.note s ++ [newNote];
             State.tail := State.tail s ++ [newTail];
             State.exit := State.exit s;
             State.noteCount := State.noteCount s + lit 1;
             State.score := State.score s;
             State.playNote := State.playNote s;
             State.backgroundNote := State.backgroundNote s;
             State.randomNotes := State.randomNotes s;
             State.consecutiveHits := State.consecutiveHits s;
             State.multiplier := State.multiplier s |}
      | None =>
          {| State.time := State.time s;
             State.gameEnd := State.gameEnd s;
             State.note := State.note s ++ [newNote];
             State.tail := State.tail s;
             State.exit := State.exit s;
             State.noteCount := State.noteCount s + lit 1;
             State.score := State.score s;
             State.playNote := State.playNote s;
             State.backgroundNote := State.backgroundNote s;
             State.randomNotes := State.randomNotes s;
             State.consecutiveHits := State.consecutiveHits s;
             State.multiplier := State.multiplier s |}
      end
  | KeyPressEvent column => processNoteEvent s (Pressed column)
  | BackgroundNote n =>
      {| State.time := State.time s;
         State.gameEnd := State.gameEnd s;
         State.note := State.note s;
         State.tail := State.tail s;
         State.exit := State.exit s;
         State.noteCount := State.noteCount s;
         State.score := State.score s;
         State.playNote :=
           State.backgroundNote s ++ [createNote s (OfBackgroundNote n)];
         State.backgroundNote := State.backgroundNote s;
         State.randomNotes := State.randomNotes s;
         State.consecutiveHits := State.consecutiveHits s;
         State.multiplier := State.multiplier s |}
  | Tick elapsed => tick s elapsed
  | EndTail endTime => processNoteEvent s (Released endTime)
  | GameEnd _ =>
      {| State.time := State.time s;
         State.gameEnd := true;
         State.note := State.note s;
         State.tail := State.tail s;
         State.exit := State.exit s;
         State.noteCount := State.noteCount s;
         State.score := State.score s;
         State.playNote := State.playNote s;
         State.backgroundNote := State.backgroundNote s;
         State.randomNotes := State.randomNotes s;
         State.consecutiveHits := State.consecutiveHits s;
         State.multiplier := State.multiplier s |}
  end.

(** [scan(reduceState, initialState)] over a finite prefix of the merged
    event stream. *)
Definition run (s : State) (es : list (Event num)) : State :=
  fold_left reduceState es s.

(** The states the fold can produce. *)
Inductive reachable : State -> Prop :=
  | reachable_initial : reachable initialState
  | reachable_step (s : State) (e : Event num) :
      reachable s -> reachable (reduceState s e).

End Game.

(** ** Vocabulary of the specification *)

Section Vocabulary.

Context {num : Type} {JS : JSNumber num}.
Local Open Scope js_scope.

#[local] Abbreviation Note := (Note.t num).
#[local] Abbreviation State := (State.t num).

(** Rounding to one decimal, as written twice in
    [calculateMultiplierAndScore]. *)
Definition roundTo1 (x : num) : num := round (x * lit 10) / lit 10.

(** How the reducer judges an event: an aligned hit (a press on an aligned
    tailless note, or an aligned tail release), a miss (a tick with a missed
    note, or a misaligned tail release), or neither. *)
Inductive Judgement : Type := Hit | Miss | Other.

Definition judge (s : State) (e : Event num) : Judgement :=
  match e with
  | KeyPressEvent column =>
      match find (fun note => assignColumn (Note.pitch note) === column)
                 (State.note s) with
      | Some n => if isAligned n && negb (hasTail n) then Hit else Other
      | None => Other
      end
  | EndTail endTime => if isTailAlign s endTime then Hit else Miss
  | Tick elapsed =>
      if (0 <? List.length (missedNotes s elapsed))%nat then Miss else Other
  | _ => Other
  end.

(** The number of aligned hits along a run of events, when no miss occurs
    in it. *)
Fixpoint hitsWithoutMiss (s : State) (es : list (Event num)) : option nat :=
  match es with
  | [] => Some O
  | e :: es' =>
      match judge s e with
      | Miss => None
      | Hit => option_map S (hitsWithoutMiss (reduceState s e) es')
      | Other => hitsWithoutMiss (reduceState s e) es'
      end
  end.

(** The streak and the multiplier after one scoring update. *)
Definition streakStep (cm : num * num) : num * num :=
  let c' := fst cm + lit 1 in
  (c', roundTo1 (if c' mod lit 10 === lit 0
                 then snd cm + lit 0.2 else snd cm)).

End Vocabulary.

(** ** Concrete runs *)

Section Runs.

Context {num : Type} {JS : JSNumber num}.

(** A chart row of the player, as the timeline source hands it over. *)
Definition chartNote (pitch start end_ : Q) : Note.t num :=
  {| Note.id := NoId;
     Note.createTime := lit 0;
     Note.userPlayed := true;
     Note.instrumentName := "piano";
     Note.velocity := lit 0.5;
     Note.pitch := lit pitch;
     Note.start := lit start;
     Note.end_ := lit end_;
     Note.cx := "20%";
     Note.cy := lit 0;
     Note.tail := None |}.

(** The clock: [n] ticks numbered [from], [from + 1], ... *)
Fixpoint ticks (from : Z) (n : nat) : list (Event num) :=
  match n with
  | O => []
  | S n' => Tick (lit (inject_Z from)) :: ticks (from + 1) n'
  end.

(** A short note in lane 0, carried to the hit line by ticks 0 to 99. *)
Definition shortAtLine : list (Event num) :=
  MusicNote (chartNote 0 0 0.5) :: ticks 0 100.

(** The same, then hit. *)
Definition shortNoteHit : list (Event num) :=
  shortAtLine ++ [KeyPressEvent (lit 0)].

(** A sustained note (1.5 s) in lane 0, carried to the hit line. *)
Definition sustainedAtLine : list (Event num) :=
  MusicNote (chartNote 0 0 1.5) :: ticks 0 100.

(** The sustained note pressed at the line and held until tick 175, that is
    until 2 s of travel and 1.5 s of sustain have passed. *)
Definition heldToEnd : list (Event num) :=
  sustainedAtLine ++ KeyPressEvent (lit 0) :: ticks 100 76.

(** A short note in lane 0 and a second note in lane 1 lasting [end_]
    seconds; the first is hit at the line, the second is left alone up to
    tick 100, the last tick at which it is still live. *)
Definition hitThenIdle (end_ : Q) : list (Event num) :=
  MusicNote (chartNote 0 0 0.5) :: MusicNote (chartNote 1 0 end_)
  :: ticks 0 100 ++ [KeyPressEvent (lit 0); Tick (lit 100)].

(** Twenty short notes in lane 0, carried to the hit line and hit one after
    the other. *)
Definition twentyHits : list (Event num) :=
  repeat (MusicNote (chartNote 0 0 0.5)) 20
  ++ ticks 0 100 ++ repeat (KeyPressEvent (lit 0)) 20.

(** The first live note of a state. *)
Definition firstNote (s : State.t num) : Note.t num :=
  hd dummyNote (State.note s).

End Runs.

(** The multiplier the specification expects after [k] hits in a row. *)
Definition expectedMultiplier (k : nat) : float :=
  if (k <? 10)%nat then lit 1
  else if (k <? 20)%nat then lit 1.2 else lit 1.4.

(** The seeds of the four streams zipped by the filler-note generator, and
    the default seed of [createRngStream]. *)
Definition seeds : list float := [lit 100; lit 1; lit 2; lit 3; lit 0].

(** The accumulators a stream passes to [hash]. *)
Inductive rng_reachable : float -> Prop :=
  | rng_seed (x : float) : In x seeds -> rng_reachable x
  | rng_next (x : float) : rng_reachable x -> rng_reachable (hash x).

Definition inUnitInterval (v : float) : bool :=
  (leb (lit 0) v && ltb v (lit 1))%bool.

(** [scale (hash x)] lies in [0, 1) for [x] and for all its iterates. *)
Definition alwaysUnit (x : float) : Prop :=
  forall k : nat, inUnitInterval (scale (hash (Nat.iter k hash x))) = true.

(** [n] steps of a stream from the accumulator [x], as long as the values
    it emits lie in [0, 1): the accumulator reached. *)
Fixpoint walk (n : nat) (x : float) : option float :=
  match n with
  | O => Some x
  | S n' =>
      let h := hash x in
      if inUnitInterval (scale h) then walk n' h else None
  end.

(** Two accumulators of the cycle of 10466 values all the streams fall
    into. *)
Definition cycleEntry : float := lit 1372572160.
Definition cycleEntry1 : float := lit 783117824.

(** ** Observations on runs *)

Section Observations.

Context {num : Type} {JS : JSNumber num}.
Local Open Scope js_scope.

Definition isMusicNote (e : Event num) : bool :=
  match e with MusicNote _ => true | _ => false end.

Definition isGameEnd (e : Event num) : bool :=
  match e with GameEnd _ => true | _ => false end.

(** The number of player-note spawns in a run of events. *)
Definition spawns (es : list (Event num)) : nat :=
  List.length (filter isMusicNote es).

(** The counter of the last tick of a run, [t0] when it has none. *)
Definition lastTick (t0 : num) (es : list (Event num)) : num :=
  fold_left (fun t e => match e with Tick elapsed => elapsed | _ => t end)
            es t0.

(** What a live note carries, whatever happened to it since its spawn: the
    identifier of a counter value [k], and either no tail and a duration
    below the sustain threshold, or the tail of the same counter value,
    spawn time and duration, with a duration at or above the threshold. *)
Definition wellFormedNote (n : Note.t num) : Prop :=
  exists k : num,
    Note.id n = NoteId k
    /\ match Note.tail n with
       | Some t =>
           Tail.id t = TailId k
           /\ Tail.createTime t = Note.createTime n
           /\ Tail.duration t = Note.end_ n - Note.start n
           /\ Tail.height t = tailLength (Tail.duration t)
           /\ (Tail.duration t >= lit 1) = true
       | None => (Note.end_ n - Note.start n >= lit 1) = false
       end.

(** What a live tail carries: the identifier of a counter value, the fixed
    width, and a duration at or above the sustain threshold. *)
Definition wellFormedTail (t : Tail.t num) : Prop :=
  (exists k : num, Tail.id t = TailId k)
  /\ Tail.width t = TAIL_WIDTH
  /\ (Tail.duration t >= lit 1) = true.

(** The counter value inside an identifier. *)
Definition counterOf (i : Ident num) : option num :=
  match i with
  | NoId => None
  | NoteId k => Some k
  | TailId k => Some k
  end.

End Observations.

(** ** The spawn counters *)

(** The elements of the first list are elements of the second, in the same
    order. *)
Inductive Subseq {A : Type} : list A -> list A -> Prop :=
  | Subseq_nil : Subseq [] []
  | Subseq_skip (x : A) (l l' : list A) : Subseq l l' -> Subseq l (x :: l')
  | Subseq_take (x : A) (l l' : list A) :
      Subseq l l' -> Subseq (x :: l) (x :: l').

Section Counters.

Context {num : Type} {JS : JSNumber num}.
Local Open Scope js_scope.

(** The value of [noteCount] after [k] spawns: [0 + 1 + ... + 1]. *)
Definition counter (k : nat) : num :=
  Nat.iter k (fun c => c + lit 1) (lit 0).

(** The values [noteCount] took before each of the first [n] spawns. *)
Definition counters (n : nat) : list num := map counter (seq 0 n).

(** What a state holds after [n] spawns: the counter, and live notes and
    tails whose identifiers are among those handed out so far, in the order
    of their spawns. *)
Definition afterSpawns (n : nat) (s : State.t num) : Prop :=
  State.noteCount s = counter n
  /\ Subseq (map (@Note.id num) (State.note s))
            (map (@NoteId num) (counters n))
  /\ Subseq (map (@Tail.id num) (State.tail s))
            (map (@TailId num) (counters n)).

End Counters.

(** The integer a double of integral value between 1 and 2^53 stands for,
    read off its mantissa and exponent with the primitive operations (0 for
    the double 0). *)
Definition integerOf (c : float) : PrimInt63.int :=
  let (f, e) := PrimFloat.frshiftexp c in
  PrimInt63.lsr (PrimFloat.normfr_mantissa f)
                (PrimInt63.sub (Uint63.of_Z (53 + FloatOps.shift)) e).

(** The first [n] values of the counter from [c], taken for the [i]-th, are
    the integers [i], [i + 1], ... *)
Fixpoint countsFrom (n : nat) (i : PrimInt63.int) (c : float) : bool :=
  match n with
  | O => true
  | S n' =>
      (PrimInt63.eqb (integerOf c) i
       && countsFrom n' (PrimInt63.add i (Uint63.of_Z 1)) (PrimFloat.add c (lit 1)))%bool
  end.

(** The number of spawns up to which the counter is checked. *)
Definition spawnBound : nat := N.to_nat 1048576.

(** ** Streak and multiplier on binary64 *)

(** The double nearest to [(10 + 2 * (n div 10)) / 10]: 1 plus 0.2 for every
    ten hits of a streak of [n]. *)
Definition multiplierAt (n : Z) : float :=
  lit (inject_Z (10 + 2 * (n / 10)) / 10).

(** From the streak [k] and the pair [cm], the pairs that [n] scoring
    updates produce are the streaks [k], [k + 1], ... with their
    multipliers. *)
Fixpoint streakFollows (n : nat) (k : Z) (cm : float * float) : bool :=
  (PrimFloat.Leibniz.eqb (fst cm) (lit (inject_Z k))
   && PrimFloat.Leibniz.eqb (snd cm) (multiplierAt k)
   && match n with
      | O => true
      | S n' => streakFollows n' (k + 1) (streakStep cm)
      end)%bool.

(** The number of scoring updates up to which the pairs are checked. *)
Definition hitBound : nat := N.to_nat 10000.

(** The events that can score: presses and releases. *)
Definition isAttempt {num : Type} (e : Event num) : bool :=
  match e with
  | KeyPressEvent _ | EndTail _ => true
  | _ => false
  end.

Definition attempts {num : Type} (es : list (Event num)) : nat :=
  List.length (filter isAttempt es).

(** ** Values of binary64 numbers

    What is needed to follow the score through the roundings of binary64:
    the exponent function of the format, the value of a finite double as a
    rational, and the bound on the relative error of one rounding. *)

Definition fexp64 (e : Z) : Z := SpecFloat.fexp FloatOps.prec FloatOps.emax e.

Definition pow2 (e : Z) : Q := (2 ^ e)%Q.

(** The value of the double of mantissa [m] and exponent [e]. *)
Definition val (m : positive) (e : Z) : Q := (inject_Z (Zpos m) * pow2 e)%Q.

(** The relative error of one rounding stays below [eta = 2^-52]. *)
Definition eta : Q := 1 # 4503599627370496.

(** [x] is a positive finite double of value [v]. *)
Definition Pos64 (x : float) (v : Q) : Prop :=
  exists (m : positive) (e : Z),
    Prim2SF x = S754_finite false m e /\ (v == val m e)%Q.

(** A double that is [+0] or positive, with its value. *)
Definition NonNeg64 (x : float) (v : Q) : Prop :=
  (Prim2SF x = S754_zero false /\ (v == 0)%Q) \/ Pos64 x v.

(** The bounds the multiplier and the score keep while at most [h] presses
    and releases have been made: the multiplier has a value [vm] between
    0.99 and [1 + 0.3 * h], and the score is [+0] or positive, of a value
    [vs] of at most [3000002 * h]. *)
Definition scoringWithin (h : Q) (s : State.t float) (vs : Q) : Prop :=
  exists vm : Q,
    Pos64 (State.multiplier s) vm
    /\ (99 # 100 <= vm)%Q /\ (vm <= 1 + (3 # 10) * h)%Q
    /\ NonNeg64 (State.score s) vs
    /\ (0 <= vs)%Q /\ (vs <= 3000002 * h)%Q.

(** The number of presses and releases up to which the score is followed. *)
Definition pressBound : nat := N.to_nat 10000000.

(** ** Lanes of the integer pitches *)

(** The text of the lane [r] in [arr], as [`${arr[r]}`] gives it. *)
Definition laneText (arr : list string) (r : Z) : string :=
  if (0 <=? r)%Z then nth (Z.to_nat r) arr "undefined"%string
  else "undefined"%string.

(** For the pitch [p]: the lane compares equal to [c] exactly when the
    remainder of the truncated division of [p] by 4 is [c], for [c] from -3
    to 3, and the two lookups of [createTail] give the texts of that
    remainder. *)
Definition laneChecked (p : Z) : bool :=
  (forallb
     (fun c => Bool.eqb (eqb (assignColumn (lit (inject_Z p) : float))
                             (lit (inject_Z c)))
                        (Z.rem p 4 =? c)%Z)
     [-3; -2; -1; 0; 1; 2; 3]%Z
   && String.eqb (index ["35"; "75"; "115"; "155"]%string
                        (assignColumn (lit (inject_Z p) : float)))
                 (laneText ["35"; "75"; "115"; "155"]%string (Z.rem p 4))
   && String.eqb (index ["green"; "red"; "blue"; "yellow"]%string
                        (assignColumn (lit (inject_Z p) : float)))
                 (laneText ["green"; "red"; "blue"; "yellow"]%string
                           (Z.rem p 4)))%bool.

(** [Constants.MAX_PITCH] *)
Definition MAX_PITCH : Z := 127.

(** The integers from [lo], [n] of them. *)
Fixpoint integersFrom (lo : Z) (n : nat) : list Z :=
  match n with
  | O => []
  | S n' => lo :: integersFrom (lo + 1) n'
  end.

(** ** The filler notes

    A press that hits nothing makes [render] call [playRandomNote], which
    feeds one value into each of four streams; [zip] combines their draws
    into a note that is played at once. *)

Section Filler.

Context {num : Type} {JS : JSNumber num}.
Local Open Scope js_scope.

Definition INSTRUMENT : list string :=
  ["bass-electric"; "piano"; "trumpet"; "saxophone"; "trombone"; "flute";
   "violin"]%string.

(** [arr[i]] for an array literal indexed by a number: the element at the
    position equal to [i], and [undefined] when there is none. *)
Fixpoint elementFrom (k : Z) (arr : list string) (i : num) : option string :=
  match arr with
  | [] => None
  | a :: arr' =>
      if i === lit (inject_Z k) then Some a else elementFrom (k + 1) arr' i
  end.

Definition element (arr : list string) (i : num) : option string :=
  elementFrom 0 arr i.

(** The note built from one draw of each stream; [None] when the instrument
    looked up is [undefined], which [playInstrument] cannot play. *)
Definition randomNote (value1 value2 value3 value4 : num)
  : option (Note.t num) :=
  match
    element INSTRUMENT
      (round
         (value1
          * (lit (inject_Z (Z.of_nat (List.length INSTRUMENT))) - lit 1)))
  with
  | None => None
  | Some name =>
      Some {| Note.id := NoId;
              Note.createTime := lit 0;
              Note.userPlayed := false;
              Note.instrumentName := name;
              Note.velocity := lit 0.3 * value2 + lit 0.5;
              Note.pitch := round (value3 * lit 90);
              Note.start := lit 0;
              Note.end_ := value4 * lit 0.5;
              Note.cx := EmptyString;
              Note.cy := lit 0;
              Note.tail := None |}
  end.

(** The first [n] notes of
    [zip(rngStream$(100), rngStream$(1), rngStream$(2), rngStream$(3))]. *)
Definition randomNotes (n : nat) : list (option (Note.t num)) :=
  map (fun v => match v with
                | (value1, value2, value3, value4) =>
                    randomNote value1 value2 value3 value4
                end)
      (combine
         (combine
            (combine (createRngStream (lit 100) n) (createRngStream (lit 1) n))
            (createRngStream (lit 2) n))
         (createRngStream (lit 3) n)).

End Filler.

(** The checks a filler note passes, one for each of the four draws. *)
Definition instrumentDefined (v : float) : bool :=
  match randomNote v v v v with Some _ => true | None => false end.

Definition velocityInRange (v : float) : bool :=
  (leb (lit 0.5) (add (mul (lit 0.3) v) (lit 0.5))
   && leb (add (mul (lit 0.3) v) (lit 0.5)) (lit 0.8))%bool.

Definition pitchInRange (v : float) : bool :=
  (leb (lit 0) (round (mul v (lit 90)))
   && leb (round (mul v (lit 90))) (lit 90))%bool.

Definition durationShort (v : float) : bool :=
  (leb (lit 0) (mul v (lit 0.5)) && ltb (mul v (lit 0.5)) (lit 0.5))%bool.

Definition fillerDraw (v : float) : bool :=
  (instrumentDefined v && velocityInRange v && pitchInRange v
   && durationShort v)%bool.

(** [walk] with any check [P] on the values emitted. *)
Fixpoint walkWith (P : float -> bool) (n : nat) (x : float) : option float :=
  match n with
  | O => Some x
  | S n' =>
      let h := hash x in
      if P (scale h) then walkWith P n' h else None
  end.

Definition alwaysWith (P : float -> bool) (x : float) : Prop :=
  forall k : nat, P (scale (hash (Nat.iter k hash x))) = true.

(** The length of the cycle the streams fall into. *)
Definition period : nat := (N.to_nat 6092 + N.to_nat 4374)%nat.

(** ** What [render] plays

    [scan(reduceState, initialState)] hands [render] the state after each
    event; [render] calls [playInstrument] on every note of [playNote], then
    [playRandomNote] once for every element of [randomNotes], and ends the
    subscription when the state it was handed has [gameEnd] set. *)

Section Rendering.

Context {num : Type} {JS : JSNumber num}.

Inductive Sound : Type :=
  | PlayInstrument (note : Note.t num)
  | PlayRandomNote.

Definition renderSounds (s : State.t num) : list Sound :=
  map PlayInstrument (State.playNote s)
  ++ map (fun _ => PlayRandomNote) (State.randomNotes s).

(** The states handed to [render] while the events [es] arrive in [s]. *)
Fixpoint rendered (s : State.t num) (es : list (Event num))
  : list (State.t num) :=
  match es with
  | [] => []
  | e :: es' =>
      let s' := reduceState s e in
      s' :: (if State.gameEnd s' then [] else rendered s' es')
  end.

Definition soundsOf (s : State.t num) (es : list (Event num)) : list Sound :=
  flat_map renderSounds (rendered s es).

(** The events that neither clear nor replace the notes to play, and do not
    end the game: spawns of player notes, presses and releases. *)
Definition betweenTicks (e : Event num) : bool :=
  match e with
  | MusicNote _ | KeyPressEvent _ | EndTail _ => true
  | Tick _ | BackgroundNote _ | GameEnd _ => false
  end.

End Rendering.

(** * Properties *)

(** ** Properties that hold for every interpretation of [number] *)

Section Shape.

Context {num : Type} {JS : JSNumber num}.
Local Open Scope js_scope.

#[local] Abbreviation Note := (Note.t num).
#[local] Abbreviation Tail := (Tail.t num).
#[local] Abbreviation State := (State.t num).

Lemma run_app (s : State) (es es' : list (Event num)) :
  run s (es ++ es') = run (run s es) es'.
Proof. apply fold_left_app. Qed.

Lemma reachable_run (s : State) (es : list (Event num)) :
  reachable s -> reachable (run s es).
Proof.
  revert s; induction es as [|e es IH]; intros s Hs; simpl; auto.
  apply IH. now constructor.
Qed.

(** *** The background-note buffer *)

Lemma backgroundNote_tick (s : State) (elapsed : num) :
  State.backgroundNote (tick s elapsed) = [].
Proof. reflexivity. Qed.

Lemma backgroundNote_processNoteEvent (s : State) (e : NoteEvent num) :
  State.backgroundNote (processNoteEvent s e) = State.backgroundNote s.
Proof.
  destruct e as [column|endTime]; simpl.
  - destruct (find _ _) as [n|]; [|reflexivity].
    destruct (isAligned n); [|reflexivity].
    destruct (hasTail n); reflexivity.
  - destruct (isTailAlign s endTime); reflexivity.
Qed.

Lemma backgroundNote_step (s : State) (e : Event num) :
  State.backgroundNote (reduceState s e) = []
  \/ State.backgroundNote (reduceState s e) = State.backgroundNote s.
Proof.
  destruct e as [n|elapsed|column|n|endTime|k]; simpl; auto.
  - destruct (Note.end_ n - Note.start n >= lit 1); auto.
  - right. apply (backgroundNote_processNoteEvent s (Pressed column)).
  - right. apply (backgroundNote_processNoteEvent s (Released endTime)).
Qed.

Lemma backgroundNote_reachable (s : State) :
  reachable s -> State.backgroundNote s = [].
Proof.
  induction 1 as [|s e _ IH]; [reflexivity|].
  destruct (backgroundNote_step s e) as [H|H]; congruence.
Qed.

(** C10: in every reachable state the [backgroundNote] sequence is empty,
    every transition out of it leaves the sequence empty, and the
    background-spawn transition, the only one that reads it, therefore
    builds [playNote] from the empty sequence. *)
Theorem backgroundNote_always_empty (s : State) :
  reachable s ->
  State.backgroundNote s = []
  /\ (forall e, State.backgroundNote (reduceState s e) = [])
  /\ (forall n, State.playNote (reduceState s (BackgroundNote n))
                = [createNote s (OfBackgroundNote n)]).
Proof.
  intros Hs. split; [now apply backgroundNote_reachable|]. split.
  - intros e. apply backgroundNote_reachable. now constructor.
  - intros n. simpl. now rewrite (backgroundNote_reachable Hs).
Qed.

(** *** Background spawn *)

(** C3 (amended): a background-spawn event rebuilds [playNote] from
    [backgroundNote] and the materialised ambient note, so in a reachable
    state the new [playNote] holds that note alone and the entries [playNote]
    held before are dropped; the live notes, the score, the streak and the
    multiplier are unchanged. *)
Theorem background_spawn_replaces_playNote (s : State) (n : Note) :
  let s' := reduceState s (BackgroundNote n) in
  (State.playNote s'
   = State.backgroundNote s ++ [createNote s (OfBackgroundNote n)]
   /\ State.note s' = State.note s
   /\ State.score s' = State.score s
   /\ State.consecutiveHits s' = State.consecutiveHits s
   /\ State.multiplier s' = State.multiplier s)
  /\ (reachable s ->
      State.playNote s' = [createNote s (OfBackgroundNote n)]).
Proof.
  simpl. repeat split.
  intros Hs. now rewrite (backgroundNote_reachable Hs).
Qed.

(** *** Lane press without an aligned note *)

(** C5: a note is aligned exactly when [|cy - 350| <= 30]; a press that
    finds no live note in its lane, or whose first note in the lane is not
    aligned, appends one dummy note to [randomNotes] and leaves the score,
    the streak, the multiplier and the live notes as they are. *)
Theorem press_without_aligned_note (s : State) (column : num) :
  (forall n : Note,
      isAligned n = (abs (Note.cy n - lit 350) <= lit 30))
  /\ (let found :=
        find (fun note => assignColumn (Note.pitch note) === column)
             (State.note s) in
      found = None \/ (exists n, found = Some n /\ isAligned n = false) ->
      let s' := reduceState s (KeyPressEvent column) in
      State.randomNotes s' = State.randomNotes s ++ [dummyNote]
      /\ State.score s' = State.score s
      /\ State.consecutiveHits s' = State.consecutiveHits s
      /\ State.multiplier s' = State.multiplier s
      /\ State.note s' = State.note s).
Proof.
  split; [reflexivity|].
  simpl. intros [H|[n [H Hn]]]; rewrite H; [|rewrite Hn]; repeat split.
Qed.

(** *** Misses on a tick *)

Lemma missedNotes_spec (s : State) (elapsed : num) (n : Note) :
  In n (missedNotes s elapsed)
  <-> In n (State.note s)
      /\ noteExpired elapsed n = true
      /\ includes (State.playNote s) n = false
      /\ Note.tail n = None.
Proof.
  unfold missedNotes, expiredNote, hasTail.
  rewrite !filter_In, !negb_true_iff.
  destruct (Note.tail n); intuition congruence.
Qed.

Lemma expired_in_exit (s : State) (elapsed : num) (n : Note) :
  In n (State.note s) -> noteExpired elapsed n = true ->
  In (inl n) (State.exit (tick s elapsed)).
Proof.
  intros Hin He. simpl. apply in_or_app; left.
  apply in_map. unfold expiredNote. now apply filter_In.
Qed.

Lemma tick_streak (s : State) (elapsed : num) :
  (missedNotes s elapsed <> [] ->
   State.consecutiveHits (tick s elapsed) = lit 0
   /\ State.multiplier (tick s elapsed) = lit 1)
  /\ (missedNotes s elapsed = [] ->
      State.consecutiveHits (tick s elapsed) = State.consecutiveHits s
      /\ State.multiplier (tick s elapsed) = State.multiplier s).
Proof.
  simpl. destruct (missedNotes s elapsed) as [|m l]; simpl; split;
    intros H; try congruence; auto.
Qed.

(** C4: on a tick a live note is missed exactly when it expired, is not in
    [playNote] and has no tail; a miss resets the streak to 0 and the
    multiplier to 1; every expired note, tailed or not, goes to [exit]; and
    when the only notes that expire unplayed are tailed, the streak and the
    multiplier stay as they were. *)
Theorem tick_counts_misses (s : State) (elapsed : num) :
  let s' := reduceState s (Tick elapsed) in
  (forall n,
      In n (missedNotes s elapsed)
      <-> In n (State.note s)
          /\ noteExpired elapsed n = true
          /\ includes (State.playNote s) n = false
          /\ Note.tail n = None)
  /\ (missedNotes s elapsed <> [] ->
      State.consecutiveHits s' = lit 0 /\ State.multiplier s' = lit 1)
  /\ (forall n,
      In n (State.note s) -> noteExpired elapsed n = true ->
      In (inl n) (State.exit s')
      /\ forall n', In n' (State.note s') -> exists n0,
           In n0 (State.note s) /\ noteExpired elapsed n0 = false
           /\ n' = moveNote n0)
  /\ ((forall n,
        In n (State.note s) -> noteExpired elapsed n = true ->
        includes (State.playNote s) n = false -> hasTail n = true) ->
      State.consecutiveHits s' = State.consecutiveHits s
      /\ State.multiplier s' = State.multiplier s).
Proof.
  cbv zeta. change (reduceState s (Tick elapsed)) with (tick s elapsed).
  split; [apply missedNotes_spec|].
  split; [apply tick_streak|]. split.
  - intros n Hin He. split; [now apply expired_in_exit|].
    intros n' Hn'. simpl in Hn'. apply in_map_iff in Hn'.
    destruct Hn' as [n0 [<- Hn0]]. unfold activeNote in Hn0.
    apply filter_In in Hn0. destruct Hn0 as [Hn0 Hx]. unfold not in Hx.
    apply negb_true_iff in Hx. now exists n0.
  - intros Hall. apply tick_streak.
    destruct (missedNotes s elapsed) as [|m l] eqn:Hm; [reflexivity|].
    assert (Hin : In m (missedNotes s elapsed)) by (rewrite Hm; now left).
    apply missedNotes_spec in Hin. destruct Hin as (H1 & H2 & H3 & H4).
    specialize (Hall m H1 H2 H3). unfold hasTail in Hall.
    rewrite H4 in Hall. discriminate.
Qed.

(** *** Judgement of events and the scoring update *)

Lemma judge_hit (s : State) (e : Event num) :
  judge s e = Hit
  <-> (exists column n,
          e = KeyPressEvent column
          /\ find (fun note => assignColumn (Note.pitch note) === column)
                  (State.note s) = Some n
          /\ isAligned n = true /\ hasTail n = false)
      \/ (exists endTime, e = EndTail endTime /\ isTailAlign s endTime = true).
Proof.
  split.
  - destruct e as [n|elapsed|column|n|endTime|k]; simpl; try discriminate.
    + destruct (0 <? _)%nat; discriminate.
    + destruct (find _ _) as [n|] eqn:Hf; [|discriminate].
      destruct (isAligned n) eqn:Ha, (hasTail n) eqn:Ht; try discriminate.
      intros _. left. now exists column, n.
    + destruct (isTailAlign s endTime) eqn:Ha; [|discriminate].
      intros _. right. now exists endTime.
  - intros [(column & n & -> & Hf & Ha & Ht)|(endTime & -> & Ha)]; simpl.
    + now rewrite Hf, Ha, Ht.
    + now rewrite Ha.
Qed.

Lemma hit_applies_scoring (s : State) (e : Event num) :
  judge s e = Hit ->
  let r := calculateMultiplierAndScore s in
  State.consecutiveHits (reduceState s e) = newStreak r
  /\ State.multiplier (reduceState s e) = roundedMultiplier r
  /\ State.score (reduceState s e) = roundedScore r.
Proof.
  intros H. apply judge_hit in H.
  destruct H as [(column & n & -> & Hf & Ha & Ht)|(endTime & -> & Ha)]; simpl.
  - rewrite Hf, Ha, Ht. simpl. auto.
  - rewrite Ha. simpl. auto.
Qed.

Lemma miss_resets (s : State) (e : Event num) :
  judge s e = Miss ->
  State.consecutiveHits (reduceState s e) = lit 0
  /\ State.multiplier (reduceState s e) = lit 1
  /\ State.score (reduceState s e) = State.score s.
Proof.
  destruct e as [n|elapsed|column|n|endTime|k]; simpl; try discriminate.
  - destruct (0 <? _)%nat; [auto|discriminate].
  - destruct (find _ _) as [n|]; [|discriminate].
    destruct (isAligned n && negb (hasTail n)); discriminate.
  - destruct (isTailAlign s endTime); [discriminate|auto].
Qed.

Lemma other_keeps_scoring (s : State) (e : Event num) :
  judge s e = Other ->
  State.consecutiveHits (reduceState s e) = State.consecutiveHits s
  /\ State.multiplier (reduceState s e) = State.multiplier s
  /\ State.score (reduceState s e) = State.score s.
Proof.
  destruct e as [n|elapsed|column|n|endTime|k]; simpl; auto.
  - destruct (Note.end_ n - Note.start n >= lit 1); simpl; auto.
  - destruct (0 <? _)%nat; [discriminate|auto].
  - destruct (find _ _) as [n|]; [|auto].
    destruct (isAligned n) eqn:Ha; [|auto].
    destruct (hasTail n) eqn:Ht; simpl; [auto|discriminate].
  - destruct (isTailAlign s endTime); discriminate.
Qed.

Lemma scoring_formulas (s : State) :
  let r := calculateMultiplierAndScore s in
  newStreak r = State.consecutiveHits s + lit 1
  /\ roundedMultiplier r
     = roundTo1 (if (State.consecutiveHits s + lit 1) mod lit 10 === lit 0
                 then State.multiplier s + lit 0.2 else State.multiplier s)
  /\ roundedScore r = roundTo1 (State.score s + lit 1 * roundedMultiplier r).
Proof. repeat split. Qed.

Lemma hit_streakStep (s : State) (e : Event num) :
  judge s e = Hit ->
  (State.consecutiveHits (reduceState s e), State.multiplier (reduceState s e))
  = streakStep (State.consecutiveHits s, State.multiplier s).
Proof.
  intros H. destruct (hit_applies_scoring s e H) as (H1 & H2 & _).
  now rewrite H1, H2.
Qed.

Lemma streak_after_hits (es : list (Event num)) :
  forall (s : State) (k : nat),
    hitsWithoutMiss s es = Some k ->
    (State.consecutiveHits (run s es), State.multiplier (run s es))
    = Nat.iter k streakStep (State.consecutiveHits s, State.multiplier s).
Proof.
  induction es as [|e es IH]; intros s k; simpl.
  - intros [= <-]. reflexivity.
  - destruct (judge s e) eqn:Hj; [|discriminate|].
    + destruct (hitsWithoutMiss (reduceState s e) es) as [k'|] eqn:Hk;
        [|discriminate].
      intros [= <-]. rewrite (IH _ _ Hk), (hit_streakStep _ _ Hj).
      now rewrite Nat.iter_succ_r.
    + intros Hk. rewrite (IH _ _ Hk).
      destruct (other_keeps_scoring s e Hj) as (-> & -> & _). reflexivity.
Qed.

(** *** Tail release *)

Lemma release_scoring (s : State) (endTime : num) :
  let s' := reduceState s (EndTail endTime) in
  let r := calculateMultiplierAndScore s in
  (isTailAlign s endTime = true ->
   State.consecutiveHits s' = newStreak r
   /\ State.multiplier s' = roundedMultiplier r
   /\ State.score s' = roundedScore r)
  /\ (isTailAlign s endTime = false ->
      State.consecutiveHits s' = lit 0
      /\ State.multiplier s' = lit 1
      /\ State.score s' = State.score s).
Proof.
  simpl. destruct (isTailAlign s endTime); split; intros H;
    try discriminate; simpl; auto.
Qed.

(** *** Life cycle of tails *)

(** C2 (amended): a tail is not destroyed with its note.  A successful press
    on a tailed note takes the note out of the live notes and leaves the
    live tails as they are; a tick takes out of the live tails exactly those
    whose own expiry rule holds and moves the others one step, whatever
    happens to the notes. *)
Theorem tail_outlives_its_note (s : State) :
  (forall column n,
      find (fun note => assignColumn (Note.pitch note) === column)
           (State.note s) = Some n ->
      isAligned n = true -> hasTail n = true ->
      let s' := reduceState s (KeyPressEvent column) in
      State.tail s' = State.tail s
      /\ State.note s'
         = filter (fun note => negb (Note_same note n)) (State.note s)
      /\ State.exit s' = State.exit s ++ [inl n])
  /\ (forall elapsed,
      let s' := reduceState s (Tick elapsed) in
      State.tail s'
      = map moveTail (filter (not (tailExpired elapsed)) (State.tail s))
      /\ forall t, In t (State.tail s) ->
           (tailExpired elapsed t = false -> In (moveTail t) (State.tail s'))
           /\ (tailExpired elapsed t = true -> In (inr t) (State.exit s'))).
Proof.
  split.
  - intros column n Hf Ha Ht. simpl. rewrite Hf, Ha, Ht. simpl. auto.
  - intros elapsed. simpl. split; [reflexivity|].
    intros t Hin. split; intros Hx.
    + apply in_map. unfold activeTail. apply filter_In. split; [exact Hin|].
      unfold not. now rewrite Hx.
    + apply in_or_app; right. apply in_map. unfold expiredTail.
      now apply filter_In.
Qed.

(** *** Movement of notes *)

Lemma NoDup_map_inj {A B : Type} (f : A -> B) (l : list A) (a b : A) :
  NoDup (map f l) -> In a l -> In b l -> f a = f b -> a = b.
Proof.
  induction l as [|x l IH]; simpl; [tauto|].
  intros Hnd Ha Hb Hab. inversion Hnd as [|? ? Hx Hl]; subst.
  destruct Ha as [->|Ha], Hb as [->|Hb]; auto.
  - exfalso. apply Hx. rewrite Hab. now apply in_map.
  - exfalso. apply Hx. rewrite <- Hab. now apply in_map.
Qed.

Lemma tick_moves_live_notes (s : State) (elapsed : num) (n : Note) :
  In n (State.note s) ->
  let s' := reduceState s (Tick elapsed) in
  (noteExpired elapsed n = false ->
   In (moveNote n) (State.note s')
   /\ Note.id (moveNote n) = Note.id n
   /\ Note.cy (moveNote n) = Note.cy n + movementPerTick)
  /\ (noteExpired elapsed n = true ->
      In (inl n) (State.exit s')
      /\ (NoDup (map (@Note.id num) (State.note s)) ->
          forall n', In n' (State.note s') -> Note.id n' <> Note.id n)).
Proof.
  intros Hin. cbv zeta. change (reduceState s (Tick elapsed)) with (tick s elapsed).
  split; intros Hx.
  - split; [|split; reflexivity].
    simpl. apply in_map. unfold activeNote. apply filter_In.
    split; [exact Hin|]. unfold not. now rewrite Hx.
  - split; [now apply expired_in_exit|].
    intros Hnd n' Hn' Hid. simpl in Hn'. apply in_map_iff in Hn'.
    destruct Hn' as [n0 [<- Hn0]]. unfold activeNote in Hn0.
    apply filter_In in Hn0. destruct Hn0 as [Hn0 Hx0]. unfold not in Hx0.
    assert (n0 = n) by (eapply NoDup_map_inj; eauto).
    subst n0. rewrite Hx in Hx0. discriminate.
Qed.

End Shape.

(** ** Properties of the binary64 interpretation *)

Lemma movementPerTick_value : @movementPerTick float _ = lit 3.5.
Proof. vm_compute. reflexivity. Qed.

Lemma expiry_threshold_value :
  (NOTE_TRAVEL_DURATION / lit 1000 / SECOND_PER_TICK)%js = lit 100 :> float.
Proof. vm_compute. reflexivity. Qed.

Lemma travel_seconds_value :
  (NOTE_TRAVEL_DURATION / lit 1000)%js = lit 2 :> float.
Proof. vm_compute. reflexivity. Qed.

(** The operations of [F64] on a few values: rounding of ties towards
    +infinity, the sign of a remainder, and the drift that the rounding of
    the multiplier removes. *)
Example round_ties_upwards :
  F64.round (lit 2.5) = lit 3
  /\ F64.round (lit (-2.5)) = lit (-2)
  /\ F64.round (lit 0.4) = lit 0
  /\ F64.round (lit (-0.4)) = neg_zero.
Proof. repeat split; vm_compute; reflexivity. Qed.

Example rem_keeps_sign_of_dividend :
  F64.rem (lit 5.5) (lit 2) = lit 1.5
  /\ F64.rem (lit (-5.5)) (lit 2) = lit (-1.5)
  /\ F64.rem (lit 20) (lit 10) = lit 0
  /\ F64.rem (lit 7) (lit 0) = nan.
Proof. repeat split; vm_compute; reflexivity. Qed.

Example rounding_removes_drift :
  PrimFloat.eqb (PrimFloat.add (lit 1.4) (lit 0.2)) (lit 1.6) = false
  /\ roundTo1 (PrimFloat.add (lit 1.4) (lit 0.2)) = lit 1.6.
Proof. split; vm_compute; reflexivity. Qed.

Lemma cy_after_moves {num : Type} {JS : JSNumber num}
      (n : Note.t num) (k : nat) :
  Note.cy (Nat.iter k moveNote n)
  = Nat.iter k (fun c => add c movementPerTick) (Note.cy n).
Proof.
  induction k as [|k IH]; [reflexivity|].
  change (Note.cy (Nat.iter (S k) moveNote n))
    with (add (Note.cy (Nat.iter k moveNote n)) movementPerTick).
  cbn [Nat.iter]. now rewrite IH.
Qed.

Lemma descent_table (k : nat) :
  (k <= 101)%nat ->
  Nat.iter k (fun c : float => add c movementPerTick) (lit 0)
  = lit (inject_Z (7 * Z.of_nat k) / 2).
Proof.
  intros Hk.
  do 102 (destruct k as [|k]; [vm_compute; reflexivity|]).
  lia.
Qed.

Lemma streak_table (k : nat) :
  (k <= 20)%nat ->
  Nat.iter k streakStep (lit 0, lit 1)
  = (lit (inject_Z (Z.of_nat k)), expectedMultiplier k).
Proof.
  intros Hk.
  do 21 (destruct k as [|k]; [vm_compute; reflexivity|]).
  lia.
Qed.

(** C1: an aligned hit, by a press on a tailless note or by a tail release,
    adds 1 to the streak, adds 0.2 to the multiplier when the new streak is
    a multiple of 10, rounds the multiplier to one decimal and adds it to the
    score, rounded to one decimal.  On binary64, from streak 0 and multiplier
    1, hits in a row without a miss keep the multiplier at 1 up to the ninth,
    make it 1.2 from the tenth to the nineteenth and 1.4 at the twentieth. *)
Theorem scoring_update_and_multiplier_steps :
  (forall (num : Type) (JS : JSNumber num) (s : State.t num) (e : Event num),
      judge s e = Hit ->
      let s' := reduceState s e in
      State.consecutiveHits s' = (State.consecutiveHits s + lit 1)%js
      /\ State.multiplier s'
         = roundTo1
             (if ((State.consecutiveHits s + lit 1) mod lit 10 === lit 0)%js
              then (State.multiplier s + lit 0.2)%js else State.multiplier s)
      /\ State.score s'
         = roundTo1 (State.score s + lit 1 * State.multiplier s')%js)
  /\ (forall (num : Type) (JS : JSNumber num) (s : State.t num) (e : Event num),
      judge s e = Hit
      <-> (exists column n,
              e = KeyPressEvent column
              /\ find (fun note =>
                         (assignColumn (Note.pitch note) === column)%js)
                      (State.note s) = Some n
              /\ isAligned n = true /\ hasTail n = false)
          \/ (exists endTime,
                 e = EndTail endTime /\ isTailAlign s endTime = true))
  /\ (forall (s : State.t float) (es : list (Event float)) (k : nat),
      State.consecutiveHits s = lit 0 ->
      State.multiplier s = lit 1 ->
      hitsWithoutMiss s es = Some k ->
      (k <= 20)%nat ->
      State.consecutiveHits (run s es) = lit (inject_Z (Z.of_nat k))
      /\ State.multiplier (run s es) = expectedMultiplier k).
Proof.
  split; [|split; [intros num JS s e; apply judge_hit|]].
  - intros num JS s e H. cbv zeta.
    destruct (hit_applies_scoring s e H) as (H1 & H2 & H3).
    destruct (scoring_formulas s) as (F1 & F2 & F3).
    rewrite H1, H2, H3. auto.
  - intros s es k Hc Hm Hk Hle.
    pose proof (streak_after_hits es s Hk) as H.
    rewrite Hc, Hm, (streak_table Hle) in H.
    now inversion H.
Qed.

(** C6: a tail release is judged by time: it is aligned exactly when
    [|time * 0.02 - endTime - 2| <= 0.25], evaluated on binary64 as the
    program does.  An aligned release applies the scoring update: it adds 1
    to the streak, adds 0.2 to the multiplier when the new streak is a
    multiple of 10, rounds the multiplier to one decimal and adds it to the
    score, rounded to one decimal.  A misaligned release sets the streak to
    0 and the multiplier to 1 and leaves the score. *)
Theorem tail_release_judged_by_time :
  (forall (s : State.t float) (endTime : float),
      isTailAlign s endTime
      = (abs (State.time s * lit 0.02 - endTime - lit 2) <= lit 0.25)%js)
  /\ (forall (num : Type) (JS : JSNumber num) (s : State.t num) (endTime : num),
      let s' := reduceState s (EndTail endTime) in
      (isTailAlign s endTime = true ->
       State.consecutiveHits s' = (State.consecutiveHits s + lit 1)%js
       /\ State.multiplier s'
          = roundTo1
              (if ((State.consecutiveHits s + lit 1) mod lit 10 === lit 0)%js
               then (State.multiplier s + lit 0.2)%js else State.multiplier s)
       /\ State.score s'
          = roundTo1 (State.score s + lit 1 * State.multiplier s')%js)
      /\ (isTailAlign s endTime = false ->
          State.consecutiveHits s' = lit 0
          /\ State.multiplier s' = lit 1
          /\ State.score s' = State.score s)).
Proof.
  split.
  - intros s endTime. unfold isTailAlign. now rewrite travel_seconds_value.
  - intros num JS s endTime. cbv zeta.
    destruct (release_scoring s endTime) as [Hhit Hmiss]. cbv zeta in Hhit, Hmiss.
    split; [|exact Hmiss].
    intros Ha. destruct (Hhit Ha) as (H1 & H2 & H3).
    destruct (scoring_formulas s) as (F1 & F2 & F3). cbv zeta in F1, F2, F3.
    rewrite H1, H2, H3, F1, F3, F2. auto.
Qed.

(** C7: on a tick every live note whose age [elapsed - createTime] does not
    exceed 100 stays live and its [cy] grows by [350 / (2000 / 20) = 3.5];
    a note whose age exceeds [2000 / 1000 / 0.02 = 100] goes to [exit] and,
    the identifiers of live notes being distinct, no live note carries its
    identifier afterwards.  The sums are exact: a note that starts at 0 is
    at [3.5 * k] after [k] moves, for the 101 moves a note can make. *)
Theorem note_descends_until_expiry :
  ((lit 350 / (lit 2000 / lit 20))%js = lit 3.5 :> float
   /\ (lit 2000 / lit 1000 / lit 0.02)%js = lit 100 :> float)
  /\ (forall (s : State.t float) (elapsed : float) (n : Note.t float),
      In n (State.note s) ->
      NoDup (map (@Note.id float) (State.note s)) ->
      let s' := reduceState s (Tick elapsed) in
      let age := (elapsed - Note.createTime n)%js in
      ((age > lit 100)%js = false ->
       exists n',
         In n' (State.note s')
         /\ Note.id n' = Note.id n
         /\ Note.cy n' = (Note.cy n + lit 3.5)%js)
      /\ ((age > lit 100)%js = true ->
          In (inl n) (State.exit s')
          /\ forall n', In n' (State.note s') -> Note.id n' <> Note.id n))
  /\ (forall (n : Note.t float) (k : nat),
      Note.cy n = lit 0 -> (k <= 101)%nat ->
      Note.cy (Nat.iter k moveNote n) = lit (inject_Z (7 * Z.of_nat k) / 2)).
Proof.
  split; [split; vm_compute; reflexivity|]. split.
  - intros s elapsed n Hin Hnd. cbv zeta.
    destruct (tick_moves_live_notes s elapsed n Hin) as [Hlive Hdead].
    unfold noteExpired in Hlive, Hdead.
    rewrite expiry_threshold_value in Hlive, Hdead.
    rewrite movementPerTick_value in Hlive.
    split; intros Hage.
    + exists (moveNote n). now apply Hlive.
    + destruct (Hdead Hage) as [Hexit Hgone]. split; auto.
  - intros n k H0 Hk. rewrite cy_after_moves, H0. now apply descent_table.
Qed.

(** *** The pseudo-random streams *)

Lemma scanHash_nth {num : Type} {JS : JSNumber num} (n : nat) :
  forall (seed : num) (k : nat),
    (k < n)%nat ->
    nth_error (scanHash seed n) k = Some (Nat.iter (S k) hash seed).
Proof.
  induction n as [|n IH]; intros seed k Hk; [lia|].
  destruct k as [|k]; [reflexivity|].
  cbn [scanHash nth_error]. rewrite IH by lia.
  now rewrite <- Nat.iter_succ_r.
Qed.

Lemma createRngStream_nth {num : Type} {JS : JSNumber num}
      (seed : num) (n k : nat) :
  (k < n)%nat ->
  nth_error (createRngStream seed n) k
  = Some (scale (Nat.iter (S k) hash seed)).
Proof.
  intros Hk. unfold createRngStream.
  now rewrite nth_error_map, scanHash_nth.
Qed.

Lemma walk_spec (n : nat) :
  forall x z,
    walk n x = Some z ->
    z = Nat.iter n hash x
    /\ forall i, (i < n)%nat ->
         inUnitInterval (scale (hash (Nat.iter i hash x))) = true.
Proof.
  induction n as [|n IH]; intros x z H.
  - injection H as <-. split; [reflexivity|lia].
  - cbn [walk] in H. cbv zeta in H.
    destruct (inUnitInterval (scale (hash x))) eqn:H0; [|discriminate].
    destruct (IH _ _ H) as [-> Hi]. split.
    + now rewrite Nat.iter_succ_r.
    + intros [|i] Hlt; [exact H0|].
      rewrite Nat.iter_succ_r. apply Hi. lia.
Qed.

Lemma walk_app (n m : nat) :
  forall x y z,
    walk n x = Some y -> walk m y = Some z -> walk (n + m) x = Some z.
Proof.
  induction n as [|n IH]; intros x y z Hn Hm.
  - now injection Hn as <-.
  - cbn [walk Nat.add] in *. cbv zeta in *.
    destruct (inUnitInterval (scale (hash x))); [|discriminate].
    now apply IH with y.
Qed.

Lemma walk_alwaysUnit (n : nat) (x z : float) :
  walk n x = Some z -> alwaysUnit z -> alwaysUnit x.
Proof.
  intros H Hz k. destruct (walk_spec n x H) as [-> Hi].
  destruct (Nat.lt_ge_cases k n) as [Hk|Hk]; [now apply Hi|].
  specialize (Hz (k - n)%nat). rewrite <- Nat.iter_add in Hz.
  now replace (k - n + n)%nat with k in Hz by lia.
Qed.

Lemma cycle_alwaysUnit (n : nat) (z : float) :
  (0 < n)%nat -> walk n z = Some z -> alwaysUnit z.
Proof.
  intros Hn H k. destruct (walk_spec n z H) as [Hz Hi].
  induction k as [k IH] using lt_wf_ind.
  destruct (Nat.lt_ge_cases k n) as [Hk|Hk]; [now apply Hi|].
  specialize (IH (k - n)%nat ltac:(lia)).
  rewrite Hz in IH at 1. rewrite <- Nat.iter_add in IH.
  now replace (k - n + n)%nat with k in IH by lia.
Qed.

Lemma cycle_closes :
  walk (N.to_nat 6092) cycleEntry = Some cycleEntry1
  /\ walk (N.to_nat 4374) cycleEntry1 = Some cycleEntry.
Proof. split; vm_compute; reflexivity. Qed.

Lemma seeds_reach_cycle :
  walk (N.to_nat 8134) (lit 100) = Some cycleEntry
  /\ walk (N.to_nat 689) (lit 1) = Some cycleEntry1
  /\ walk (N.to_nat 6805) (lit 2) = Some cycleEntry
  /\ walk (N.to_nat 3003) (lit 3) = Some cycleEntry
  /\ walk (N.to_nat 5939) (lit 0) = Some cycleEntry.
Proof.
  split; [vm_compute; reflexivity|].
  split; [vm_compute; reflexivity|].
  split; [vm_compute; reflexivity|].
  split; vm_compute; reflexivity.
Qed.

Lemma cycle_in_unit_interval : alwaysUnit cycleEntry /\ alwaysUnit cycleEntry1.
Proof.
  destruct cycle_closes as [H1 H2].
  assert (He : alwaysUnit cycleEntry).
  { apply cycle_alwaysUnit with (n := (N.to_nat 6092 + N.to_nat 4374)%nat).
    - apply Nat.ltb_lt. vm_compute. reflexivity.
    - exact (@walk_app _ _ _ _ _ H1 H2). }
  split; [exact He|]. exact (@walk_alwaysUnit _ _ _ H2 He).
Qed.

Lemma seeds_in_unit_interval (x : float) : In x seeds -> alwaysUnit x.
Proof.
  destruct cycle_in_unit_interval as [He He1].
  destruct seeds_reach_cycle as (H100 & H1 & H2 & H3 & H0).
  intros [<-|[<-|[<-|[<-|[<-|[]]]]]].
  - exact (@walk_alwaysUnit _ _ _ H100 He).
  - exact (@walk_alwaysUnit _ _ _ H1 He1).
  - exact (@walk_alwaysUnit _ _ _ H2 He).
  - exact (@walk_alwaysUnit _ _ _ H3 He).
  - exact (@walk_alwaysUnit _ _ _ H0 He).
Qed.

Lemma rng_reachable_iter (x : float) :
  rng_reachable x -> exists seed k, In seed seeds /\ x = Nat.iter k hash seed.
Proof.
  induction 1 as [x Hx|x _ (seed & k & Hs & ->)].
  - now exists x, O.
  - now exists seed, (S k).
Qed.

Lemma scale_hash_in_unit_interval (x : float) :
  rng_reachable x -> inUnitInterval (scale (hash x)) = true.
Proof.
  intros Hx. destruct (rng_reachable_iter Hx) as (seed & k & Hs & ->).
  now apply seeds_in_unit_interval.
Qed.

(** C8: [hash] is the expression [(1103515245 * seed + 12345) % 2^31]
    evaluated on doubles and [scale h] is [h / (2^31 - 1)]; a stream is the
    sequence of iterates of [hash] on its seed, so the seed fixes it; and
    for every accumulator [x] reachable from the seeds of the program
    [scale (hash x)] lies in [0, 1). *)
Theorem rng_deterministic_and_in_unit_interval :
  (forall seed : float,
      hash seed
      = ((lit 1103515245 * seed + lit 12345) mod lit 2147483648)%js)
  /\ (forall h : float, scale h = (h / lit 2147483647)%js)
  /\ (forall (seed : float) (n k : nat),
      (k < n)%nat ->
      nth_error (createRngStream seed n) k
      = Some (scale (Nat.iter (S k) hash seed)))
  /\ (forall x : float,
      rng_reachable x ->
      (lit 0 <= scale (hash x))%js = true
      /\ (scale (hash x) < lit 1)%js = true).
Proof.
  split; [reflexivity|]. split.
  - intros h. unfold scale.
    replace (RNG_m - lit 1)%js with (lit 2147483647 : float)
      by (vm_compute; reflexivity).
    reflexivity.
  - split; [intros; now apply createRngStream_nth|].
    intros x Hx. apply andb_true_iff.
    exact (scale_hash_in_unit_interval Hx).
Qed.

(** The doubles round the product once it passes 2^53: already the second
    accumulator of the stream seeded with 100 is not the value of the
    congruence on the integers. *)
Lemma hash_rounds_large_products :
  @hash float _ (lit 100) = lit 829870797
  /\ @hash float _ (lit 829870797) = lit 1533044608
  /\ (@hash Q _ 829870797 == 1533044610)%Q.
Proof.
  split; [vm_compute; reflexivity|].
  split; [vm_compute; reflexivity|].
  apply Qeq_bool_eq. vm_compute. reflexivity.
Qed.

(** ** The theorems on concrete runs *)

(** C2, as stated, fails on both paths.  A sustained note is carried to
    the hit line and pressed: the press removes the note from the live notes
    and its tail stays in the live tails.  A sustained note in another lane
    is left alone: at tick 101 the note expires and leaves the live notes,
    and its tail stays in the live tails. *)
Lemma tail_survives_removal_of_its_note :
  let s : State.t float := run initialState sustainedAtLine in
  let s' := reduceState s (KeyPressEvent (lit 0)) in
  let h : State.t float := run initialState (hitThenIdle 1.5) in
  let h' := reduceState h (Tick (lit 101)) in
  (reachable s
   /\ (exists n t,
          State.note s = [n]
          /\ Note.id n = NoteId (lit 0)
          /\ Note.tail n = Some t
          /\ Tail.id t = TailId (lit 0))
   /\ State.note s' = []
   /\ (exists t', State.tail s' = [t'] /\ Tail.id t' = TailId (lit 0)))
  /\ (reachable h
      /\ (exists n t,
             State.note h = [n]
             /\ Note.id n = NoteId (lit 1)
             /\ Note.tail n = Some t
             /\ Tail.id t = TailId (lit 1))
      /\ State.note h' = []
      /\ (exists t', State.tail h' = [t'] /\ Tail.id t' = TailId (lit 1))).
Proof.
  cbv zeta. split.
  - split; [apply reachable_run; constructor|].
    split; [|split].
    + vm_compute. do 2 eexists. split; [reflexivity|]. split; [reflexivity|].
      split; reflexivity.
    + vm_compute. reflexivity.
    + vm_compute. eexists. split; reflexivity.
  - split; [apply reachable_run; constructor|].
    split; [|split].
    + vm_compute. do 2 eexists. split; [reflexivity|]. split; [reflexivity|].
      split; reflexivity.
    + vm_compute. reflexivity.
    + vm_compute. eexists. split; reflexivity.
Qed.

Lemma tail_outlives_its_note_witness :
  let s : State.t float := run initialState sustainedAtLine in
  let s' := reduceState s (KeyPressEvent (lit 0)) in
  (find (fun note => eqb (assignColumn (Note.pitch note)) (lit 0))
        (State.note s) = Some (firstNote s)
   /\ isAligned (firstNote s) = true
   /\ hasTail (firstNote s) = true)
  /\ State.tail s' = State.tail s
  /\ State.note s'
     = filter (fun note => negb (Note_same note (firstNote s))) (State.note s)
  /\ State.exit s' = State.exit s ++ [inl (firstNote s)].
Proof.
  cbv zeta.
  assert (H : find (fun note => eqb (assignColumn (Note.pitch note)) (lit 0))
                   (State.note (run initialState sustainedAtLine))
              = Some (firstNote (run (@initialState float _) sustainedAtLine))
              /\ isAligned (firstNote (run (@initialState float _) sustainedAtLine)) = true
              /\ hasTail (firstNote (run (@initialState float _) sustainedAtLine)) = true).
  { split; [vm_compute; reflexivity|]. split; vm_compute; reflexivity. }
  split; [exact H|].
  destruct H as (Hf & Ha & Ht).
  exact (proj1 (tail_outlives_its_note (run initialState sustainedAtLine))
               (lit 0) _ Hf Ha Ht).
Defined.

Lemma backgroundNote_always_empty_witness :
  let s : State.t float := run initialState shortNoteHit in
  reachable s
  /\ State.backgroundNote s = []
  /\ (forall e, State.backgroundNote (reduceState s e) = [])
  /\ (forall n, State.playNote (reduceState s (BackgroundNote n))
                = [createNote s (OfBackgroundNote n)]).
Proof.
  cbv zeta.
  assert (H : reachable (run (@initialState float _) shortNoteHit))
    by (apply reachable_run; constructor).
  split; [exact H|]. exact (backgroundNote_always_empty H).
Defined.

(** C3, as stated, fails: a short note is hit, which puts it in [playNote];
    a background spawn in the same tick leaves a [playNote] that holds the
    ambient note alone, not the hit note followed by the ambient note. *)
Lemma background_spawn_drops_played_note :
  let s : State.t float := run initialState shortNoteHit in
  let ambient := createNote s (OfBackgroundNote (chartNote 1 0 0.2)) in
  let s' := reduceState s (BackgroundNote (chartNote 1 0 0.2)) in
  reachable s
  /\ (exists played,
         State.playNote s = [played]
         /\ Note.id played = NoteId (lit 0)
         /\ State.playNote s' = [ambient]
         /\ Note.id ambient = NoId)
  /\ State.playNote s' <> State.playNote s ++ [ambient].
Proof.
  cbv zeta. split; [apply reachable_run; constructor|]. split.
  - vm_compute. eexists. split; [reflexivity|]. split; [reflexivity|].
    split; reflexivity.
  - vm_compute. discriminate.
Qed.

Lemma background_spawn_replaces_playNote_witness :
  let s : State.t float := run initialState shortNoteHit in
  let n : Note.t float := chartNote 1 0 0.2 in
  reachable s
  /\ State.playNote (reduceState s (BackgroundNote n))
     = [createNote s (OfBackgroundNote n)].
Proof.
  cbv zeta.
  assert (H : reachable (run (@initialState float _) shortNoteHit))
    by (apply reachable_run; constructor).
  split; [exact H|].
  exact (proj2 (background_spawn_replaces_playNote
                  (run initialState shortNoteHit) (chartNote 1 0 0.2)) H).
Defined.

Lemma press_without_aligned_note_witness :
  let s : State.t float := run initialState [MusicNote (chartNote 0 0 0.5)] in
  let s' := reduceState s (KeyPressEvent (lit 0)) in
  (find (fun note => eqb (assignColumn (Note.pitch note)) (lit 0))
        (State.note s) = Some (firstNote s)
   /\ isAligned (firstNote s) = false)
  /\ State.randomNotes s' = State.randomNotes s ++ [dummyNote]
  /\ State.score s' = State.score s
  /\ State.consecutiveHits s' = State.consecutiveHits s
  /\ State.multiplier s' = State.multiplier s
  /\ State.note s' = State.note s.
Proof.
  cbv zeta.
  set (s := run (@initialState float _) [MusicNote (chartNote 0 0 0.5)]).
  assert (H : find (fun note => eqb (assignColumn (Note.pitch note)) (lit 0))
                   (State.note s) = Some (firstNote s)
              /\ isAligned (firstNote s) = false)
    by (split; vm_compute; reflexivity).
  split; [exact H|].
  apply (proj2 (press_without_aligned_note s (lit 0))).
  right. exists (firstNote s). exact H.
Defined.

Lemma tick_counts_misses_witness :
  let s : State.t float := run initialState (hitThenIdle 0.5) in
  let s' := reduceState s (Tick (lit 101)) in
  let h : State.t float := run initialState (hitThenIdle 1.5) in
  let h' := reduceState h (Tick (lit 101)) in
  (missedNotes s (lit 101) <> []
   /\ State.consecutiveHits s = lit 1
   /\ State.consecutiveHits s' = lit 0
   /\ State.multiplier s' = lit 1)
  /\ (In (firstNote h) (State.note h)
      /\ noteExpired (lit 101) (firstNote h) = true
      /\ hasTail (firstNote h) = true
      /\ In (inl (firstNote h)) (State.exit h')
      /\ State.consecutiveHits h' = State.consecutiveHits h
      /\ State.multiplier h' = State.multiplier h).
Proof.
  cbv zeta. split.
  - set (s := run (@initialState float _) (hitThenIdle 0.5)).
    assert (Hm : missedNotes s (lit 101) <> [])
      by (vm_compute; discriminate).
    split; [exact Hm|]. split; [vm_compute; reflexivity|].
    exact (proj1 (proj2 (tick_counts_misses s (lit 101))) Hm).
  - set (h := run (@initialState float _) (hitThenIdle 1.5)).
    assert (Hin : In (firstNote h) (State.note h))
      by (vm_compute; left; reflexivity).
    assert (Hx : noteExpired (lit 101) (firstNote h) = true)
      by (vm_compute; reflexivity).
    assert (Ht : hasTail (firstNote h) = true) by (vm_compute; reflexivity).
    split; [exact Hin|]. split; [exact Hx|]. split; [exact Ht|].
    destruct (tick_counts_misses h (lit 101)) as (_ & _ & Hexit & Hkeep).
    split; [exact (proj1 (Hexit _ Hin Hx))|].
    apply Hkeep. intros n Hn _ _.
    assert (Hone : State.note h = [firstNote h]) by (vm_compute; reflexivity).
    rewrite Hone in Hn. destruct Hn as [<-|[]]. exact Ht.
Defined.

Lemma scoring_update_and_multiplier_steps_witness :
  let s : State.t float := run initialState shortAtLine in
  let s' := reduceState s (KeyPressEvent (lit 0)) in
  (judge s (KeyPressEvent (lit 0)) = Hit
   /\ State.consecutiveHits s' = add (State.consecutiveHits s) (lit 1)
   /\ State.score s' = roundTo1 (add (State.score s)
                                     (mul (lit 1) (State.multiplier s'))))
  /\ (hitsWithoutMiss (@initialState float _) twentyHits = Some 20%nat
      /\ State.consecutiveHits (run (@initialState float _) twentyHits) = lit 20
      /\ State.multiplier (run (@initialState float _) twentyHits) = lit 1.4).
Proof.
  cbv zeta.
  destruct scoring_update_and_multiplier_steps as (Hgen & _ & Hrun). split.
  - set (s := run (@initialState float _) shortAtLine).
    assert (Hj : judge s (KeyPressEvent (lit 0)) = Hit)
      by (vm_compute; reflexivity).
    split; [exact Hj|].
    destruct (Hgen float Float64 s (KeyPressEvent (lit 0)) Hj) as (H1 & _ & H3).
    split; [exact H1|exact H3].
  - assert (Hk : hitsWithoutMiss (@initialState float _) twentyHits
                 = Some 20%nat) by (vm_compute; reflexivity).
    split; [exact Hk|].
    exact (Hrun initialState twentyHits 20%nat eq_refl eq_refl Hk
                ltac:(apply Nat.leb_le; reflexivity)).
Defined.

Lemma tail_release_judged_by_time_witness :
  let s : State.t float := run initialState heldToEnd in
  let s' := reduceState s (EndTail (lit 1.5)) in
  let e : State.t float :=
    run initialState (sustainedAtLine ++ [KeyPressEvent (lit 0)]) in
  let e' := reduceState e (EndTail (lit 1.5)) in
  let l : State.t float := run initialState (ticks 0 142) in
  let l' := reduceState l (EndTail (lit 1.07)) in
  (State.time s = lit 175
   /\ isTailAlign s (lit 1.5) = true
   /\ (State.consecutiveHits s = lit 0 /\ State.consecutiveHits s' = lit 1)
   /\ (State.multiplier s = lit 1 /\ State.multiplier s' = lit 1)
   /\ (State.score s = lit 0 /\ State.score s' = lit 1)
   /\ State.consecutiveHits s' = (State.consecutiveHits s + lit 1)%js
   /\ State.multiplier s'
      = roundTo1
          (if ((State.consecutiveHits s + lit 1) mod lit 10 === lit 0)%js
           then (State.multiplier s + lit 0.2)%js else State.multiplier s)
   /\ State.score s'
      = roundTo1 (State.score s + lit 1 * State.multiplier s')%js)
  /\ (State.time e = lit 99
      /\ isTailAlign e (lit 1.5) = false
      /\ State.consecutiveHits e' = lit 0
      /\ State.multiplier e' = lit 1
      /\ State.score e' = State.score e)
  /\ (State.time l = lit 141
      /\ (abs (lit 141 * lit 0.02 - lit 1.07 - lit 2)%js
          = lit 0.25000000000000022 :> float)
      /\ isTailAlign l (lit 1.07) = false
      /\ State.consecutiveHits l' = lit 0
      /\ State.multiplier l' = lit 1
      /\ State.score l' = State.score l).
Proof.
  cbv zeta.
  destruct tail_release_judged_by_time as (_ & Hgen). split; [|split].
  - set (s := run (@initialState float _) heldToEnd).
    assert (Ha : isTailAlign s (lit 1.5) = true) by (vm_compute; reflexivity).
    split; [vm_compute; reflexivity|]. split; [exact Ha|].
    split; [split; vm_compute; reflexivity|].
    split; [split; vm_compute; reflexivity|].
    split; [split; vm_compute; reflexivity|].
    exact (proj1 (Hgen float Float64 s (lit 1.5)) Ha).
  - set (e := run (@initialState float _)
                  (sustainedAtLine ++ [KeyPressEvent (lit 0)])).
    assert (Ha : isTailAlign e (lit 1.5) = false) by (vm_compute; reflexivity).
    split; [vm_compute; reflexivity|]. split; [exact Ha|].
    exact (proj2 (Hgen float Float64 e (lit 1.5)) Ha).
  - set (l := run (@initialState float _) (ticks 0 142)).
    assert (Ha : isTailAlign l (lit 1.07) = false) by (vm_compute; reflexivity).
    split; [vm_compute; reflexivity|]. split; [vm_compute; reflexivity|].
    split; [exact Ha|].
    exact (proj2 (Hgen float Float64 l (lit 1.07)) Ha).
Defined.

Lemma note_descends_until_expiry_witness :
  let s : State.t float := run initialState shortAtLine in
  let s' := reduceState s (Tick (lit 100)) in
  let n := firstNote s in
  let n1 := firstNote s' in
  (In n (State.note s)
   /\ NoDup (map (@Note.id float) (State.note s))
   /\ ltb (lit 100) (sub (lit 100) (Note.createTime n)) = false)
  /\ (exists n',
         In n' (State.note s')
         /\ Note.id n' = Note.id n
         /\ Note.cy n' = add (Note.cy n) (lit 3.5))
  /\ (In n1 (State.note s')
      /\ NoDup (map (@Note.id float) (State.note s'))
      /\ ltb (lit 100) (sub (lit 101) (Note.createTime n1)) = true)
  /\ (In (inl n1) (State.exit (reduceState s' (Tick (lit 101))))
      /\ (forall n', In n' (State.note (reduceState s' (Tick (lit 101)))) ->
                     Note.id n' <> Note.id n1))
  /\ ((Note.cy (chartNote 0 0 0.5 : Note.t float) = lit 0 /\ (100 <= 101)%nat)
      /\ Note.cy (Nat.iter 100 moveNote (chartNote 0 0 0.5 : Note.t float))
         = lit (inject_Z (7 * Z.of_nat 100) / 2)).
Proof.
  cbv zeta. destruct note_descends_until_expiry as (_ & Hgen & Hpath).
  set (s := run (@initialState float _) shortAtLine).
  set (s' := reduceState s (Tick (lit 100))).
  assert (Hin : In (firstNote s) (State.note s))
    by (vm_compute; left; reflexivity).
  assert (Hnd : NoDup (map (@Note.id float) (State.note s))).
  { vm_compute. constructor; [intros []|constructor]. }
  assert (Hage : ltb (lit 100) (sub (lit 100) (Note.createTime (firstNote s)))
                 = false) by (vm_compute; reflexivity).
  assert (Hin' : In (firstNote s') (State.note s'))
    by (vm_compute; left; reflexivity).
  assert (Hnd' : NoDup (map (@Note.id float) (State.note s'))).
  { vm_compute. constructor; [intros []|constructor]. }
  assert (Hage' : ltb (lit 100)
                      (sub (lit 101) (Note.createTime (firstNote s'))) = true)
    by (vm_compute; reflexivity).
  split; [repeat split; assumption|].
  split; [exact (proj1 (Hgen s (lit 100) (firstNote s) Hin Hnd) Hage)|].
  split; [repeat split; assumption|].
  split; [exact (proj2 (Hgen s' (lit 101) (firstNote s') Hin' Hnd') Hage')|].
  assert (Hk : (100 <= 101)%nat) by (apply Nat.leb_le; reflexivity).
  split; [split; [reflexivity|exact Hk]|].
  exact (Hpath (chartNote 0 0 0.5) 100%nat eq_refl Hk).
Defined.

Lemma rng_deterministic_and_in_unit_interval_witness :
  rng_reachable (hash (lit 100))
  /\ leb (lit 0) (scale (hash (hash (lit 100)))) = true
  /\ ltb (scale (hash (hash (lit 100)))) (lit 1) = true.
Proof.
  assert (H : rng_reachable (hash (lit 100))).
  { apply rng_next. apply rng_seed. left. reflexivity. }
  split; [exact H|].
  exact (proj2 (proj2 (proj2 rng_deterministic_and_in_unit_interval)) _ H).
Defined.

(** * Further properties of the code *)

(** ** What each event leaves alone *)

Section Frames.

Context {num : Type} {JS : JSNumber num}.
Local Open Scope js_scope.

#[local] Abbreviation Note := (Note.t num).
#[local] Abbreviation Tail := (Tail.t num).
#[local] Abbreviation State := (State.t num).

Lemma press_frame (s : State) (column : num) :
  let s' := processNoteEvent s (Pressed column) in
  State.time s' = State.time s
  /\ State.gameEnd s' = State.gameEnd s
  /\ State.noteCount s' = State.noteCount s
  /\ State.tail s' = State.tail s
  /\ State.backgroundNote s' = State.backgroundNote s.
Proof.
  simpl. destruct (find _ _) as [n|]; [|repeat split].
  destruct (isAligned n); [|repeat split].
  destruct (hasTail n); repeat split.
Qed.

Lemma press_notes (s : State) (column : num) :
  State.note (processNoteEvent s (Pressed column))
  = match find (fun note => assignColumn (Note.pitch note) === column)
               (State.note s) with
    | Some a =>
        if isAligned a
        then filter (fun note => negb (Note_same note a)) (State.note s)
        else State.note s
    | None => State.note s
    end.
Proof.
  simpl. destruct (find _ _) as [n|]; [|reflexivity].
  destruct (isAligned n); [|reflexivity].
  destruct (hasTail n); reflexivity.
Qed.

Lemma release_frame (s : State) (endTime : num) :
  let s' := processNoteEvent s (Released endTime) in
  State.time s' = State.time s
  /\ State.gameEnd s' = State.gameEnd s
  /\ State.noteCount s' = State.noteCount s
  /\ State.note s' = State.note s
  /\ State.tail s' = State.tail s
  /\ State.exit s' = State.exit s
  /\ State.playNote s' = State.playNote s
  /\ State.backgroundNote s' = State.backgroundNote s
  /\ State.randomNotes s' = State.randomNotes s.
Proof. simpl. destruct (isTailAlign s endTime); repeat split. Qed.

Lemma spawn_shape (s : State) (n : Note) :
  let s' := reduceState s (MusicNote n) in
  State.note s' = State.note s ++ [createNote s (OfMusicNote n)]
  /\ State.tail s'
     = State.tail s
       ++ match Note.tail (createNote s (OfMusicNote n)) with
          | Some t => [t]
          | None => []
          end
  /\ State.noteCount s' = State.noteCount s + lit 1
  /\ State.time s' = State.time s
  /\ State.gameEnd s' = State.gameEnd s
  /\ State.exit s' = State.exit s
  /\ State.score s' = State.score s
  /\ State.playNote s' = State.playNote s
  /\ State.randomNotes s' = State.randomNotes s.
Proof.
  cbv zeta. cbn [reduceState].
  destruct (Note.tail (createNote s (OfMusicNote n))); cbn;
    rewrite ?app_nil_r; repeat split.
Qed.

Lemma gameEnd_step (s : State) (e : Event num) :
  State.gameEnd (reduceState s e) = State.gameEnd s || isGameEnd e.
Proof.
  destruct e as [n|elapsed|column|n|endTime|k]; cbn [isGameEnd];
    rewrite ?orb_false_r, ?orb_true_r.
  - apply (spawn_shape s n).
  - reflexivity.
  - apply (press_frame s column).
  - reflexivity.
  - apply (release_frame s endTime).
  - reflexivity.
Qed.

Lemma noteCount_step (s : State) (e : Event num) :
  State.noteCount (reduceState s e)
  = if isMusicNote e then State.noteCount s + lit 1 else State.noteCount s.
Proof.
  destruct e as [n|elapsed|column|n|endTime|k]; cbn [isMusicNote].
  - apply (spawn_shape s n).
  - reflexivity.
  - apply (press_frame s column).
  - reflexivity.
  - apply (release_frame s endTime).
  - reflexivity.
Qed.

Lemma time_step (s : State) (e : Event num) :
  State.time (reduceState s e)
  = match e with Tick elapsed => elapsed | _ => State.time s end.
Proof.
  destruct e as [n|elapsed|column|n|endTime|k].
  - apply (spawn_shape s n).
  - reflexivity.
  - apply (press_frame s column).
  - reflexivity.
  - apply (release_frame s endTime).
  - reflexivity.
Qed.

Lemma live_notes_step (s : State) (e : Event num) :
  (List.length (State.note (reduceState s e))
   <= List.length (State.note s) + (if isMusicNote e then 1 else 0))%nat.
Proof.
  destruct e as [n|elapsed|column|n|endTime|k]; cbn [isMusicNote].
  - destruct (spawn_shape s n) as (-> & _). rewrite length_app. simpl. lia.
  - simpl. rewrite length_map. unfold activeNote.
    pose proof (filter_length_le (not (noteExpired elapsed)) (State.note s)).
    lia.
  - simpl. destruct (find _ _) as [a|]; [|simpl; lia].
    destruct (isAligned a); [|simpl; lia].
    pose proof (filter_length_le (fun note => negb (Note_same note a))
                                 (State.note s)).
    destruct (hasTail a); simpl; lia.
  - simpl. lia.
  - destruct (release_frame s endTime) as (_ & _ & _ & H & _).
    cbn [reduceState]. rewrite H. lia.
  - simpl. lia.
Qed.

(** X1: the end of the game is permanent and nothing but the end signal
    brings it about: after a run the flag is set exactly when it was set
    before or the run holds an end signal. *)
Theorem gameEnd_set_only_by_end_signal (s : State) (es : list (Event num)) :
  State.gameEnd (run s es) = State.gameEnd s || existsb isGameEnd es.
Proof.
  revert s. induction es as [|e es IH]; intros s; simpl.
  - now rewrite orb_false_r.
  - change (fold_left reduceState es (reduceState s e))
      with (run (reduceState s e) es).
    now rewrite IH, gameEnd_step, orb_assoc.
Qed.

(** X2: [noteCount] counts the player-note spawns: a run adds 1 to it once
    per [MusicNote] event and no other event touches it; and the live notes
    never outnumber those present before plus the spawns of the run. *)
Theorem noteCount_counts_spawns (s : State) (es : list (Event num)) :
  State.noteCount (run s es)
  = Nat.iter (spawns es) (fun c => c + lit 1) (State.noteCount s)
  /\ (List.length (State.note (run s es))
      <= List.length (State.note s) + spawns es)%nat.
Proof.
  revert s. induction es as [|e es IH]; intros s; [simpl; split; [reflexivity|lia]|].
  change (run s (e :: es)) with (run (reduceState s e) es).
  destruct (IH (reduceState s e)) as [IH1 IH2].
  rewrite IH1, noteCount_step.
  pose proof (live_notes_step s e) as Hl.
  unfold spawns in *. cbn [filter].
  destruct (isMusicNote e); cbn [List.length].
  - split; [now rewrite Nat.iter_succ_r|lia].
  - split; [reflexivity|lia].
Qed.

(** X3: the state's [time] is the counter of the last tick folded in, and
    the initial value as long as no tick arrived: the reducer keeps no clock
    of its own and does not compare successive counters. *)
Theorem time_is_last_tick (s : State) (es : list (Event num)) :
  State.time (run s es) = lastTick (State.time s) es.
Proof.
  revert s. induction es as [|e es IH]; intros s; [reflexivity|].
  change (run s (e :: es)) with (run (reduceState s e) es).
  rewrite IH, time_step. unfold lastTick. simpl.
  destruct e; reflexivity.
Qed.

End Frames.

(** ** Shape of the live notes and tails *)

Section LiveObjects.

Context {num : Type} {JS : JSNumber num}.
Local Open Scope js_scope.

Lemma wellFormed_createNote (s : State.t num) (n : Note.t num) :
  wellFormedNote (createNote s (OfMusicNote n)).
Proof.
  exists (State.noteCount s). split; [reflexivity|].
  cbn. destruct (Note.end_ n - Note.start n >= lit 1) eqn:H; cbn.
  - repeat split. exact H.
  - reflexivity.
Qed.

Lemma wellFormed_moveNote (n : Note.t num) :
  wellFormedNote n -> wellFormedNote (moveNote n).
Proof. intros H. exact H. Qed.

Lemma wellFormed_createTail (s : State.t num) (n : Note.t num) :
  (Note.end_ n - Note.start n >= lit 1) = true ->
  wellFormedTail (createTail s n).
Proof.
  intros H. split; [now exists (State.noteCount s)|]. split; [reflexivity|].
  exact H.
Qed.

Lemma wellFormed_moveTail (t : Tail.t num) :
  wellFormedTail t -> wellFormedTail (moveTail t).
Proof.
  intros H. unfold moveTail.
  destruct (Tail.y t + Tail.height t >= NOTE_PATH_LENGTH); exact H.
Qed.

Lemma Forall_map_filter {A : Type} (P : A -> Prop) (f : A -> A)
      (p : A -> bool) (l : list A) :
  (forall a, P a -> P (f a)) -> Forall P l -> Forall P (map f (filter p l)).
Proof.
  intros Hf Hl. apply Forall_forall. intros x Hx.
  apply in_map_iff in Hx. destruct Hx as [a [<- Ha]].
  apply filter_In in Ha. apply Hf.
  rewrite Forall_forall in Hl. now apply Hl.
Qed.

Lemma Forall_filter' {A : Type} (P : A -> Prop) (p : A -> bool) (l : list A) :
  Forall P l -> Forall P (filter p l).
Proof.
  intros Hl. apply Forall_forall. intros x Hx. apply filter_In in Hx.
  rewrite Forall_forall in Hl. now apply Hl.
Qed.

Lemma wellFormed_step (s : State.t num) (e : Event num) :
  Forall wellFormedNote (State.note s) /\ Forall wellFormedTail (State.tail s) ->
  Forall wellFormedNote (State.note (reduceState s e))
  /\ Forall wellFormedTail (State.tail (reduceState s e)).
Proof.
  intros [Hn Ht]. destruct e as [n|elapsed|column|n|endTime|k].
  - destruct (spawn_shape s n) as (-> & -> & _). split.
    + apply Forall_app. split; [exact Hn|].
      constructor; [apply wellFormed_createNote|constructor].
    + apply Forall_app. split; [exact Ht|].
      cbn. destruct (Note.end_ n - Note.start n >= lit 1) eqn:H; cbn;
        constructor; [now apply wellFormed_createTail|constructor].
  - split; cbn.
    + apply Forall_map_filter; [apply wellFormed_moveNote|exact Hn].
    + apply Forall_map_filter; [apply wellFormed_moveTail|exact Ht].
  - split.
    + cbn [reduceState]. rewrite press_notes.
      destruct (find _ _) as [a|]; [|exact Hn].
      destruct (isAligned a); [|exact Hn].
      now apply Forall_filter'.
    + destruct (press_frame s column) as (_ & _ & _ & H & _).
      cbn [reduceState]. now rewrite H.
  - now split.
  - destruct (release_frame s endTime) as (_ & _ & _ & H1 & H2 & _).
    cbn [reduceState]. now rewrite H1, H2.
  - now split.
Qed.

(** X4: in every reachable state each live note carries the identifier of a
    counter value and either no tail, its duration being below the 1 s
    threshold, or the tail of the same counter value, spawn time and
    duration, at or above the threshold; each live tail carries the
    identifier of a counter value, the fixed width and a duration at or
    above the threshold. *)
Theorem live_notes_and_tails_well_formed (s : State.t num) :
  reachable s ->
  Forall wellFormedNote (State.note s) /\ Forall wellFormedTail (State.tail s).
Proof.
  induction 1 as [|s e _ IH].
  - split; constructor.
  - now apply wellFormed_step.
Qed.

End LiveObjects.

(** ** Identifiers and spawn counters *)

Lemma Subseq_refl {A : Type} (l : list A) : Subseq l l.
Proof. induction l; constructor; assumption. Qed.

Lemma Subseq_trans {A : Type} (l1 l2 l3 : list A) :
  Subseq l1 l2 -> Subseq l2 l3 -> Subseq l1 l3.
Proof.
  intros H12 H23. revert l1 H12.
  induction H23 as [|x l2 l3 _ IH|x l2 l3 _ IH]; intros l1 H12.
  - exact H12.
  - constructor. now apply IH.
  - inversion H12; subst.
    + apply Subseq_skip. now apply IH.
    + apply Subseq_take. now apply IH.
Qed.

Lemma Subseq_filter {A : Type} (p : A -> bool) (l : list A) :
  Subseq (filter p l) l.
Proof.
  induction l as [|a l IH]; [constructor|].
  cbn. destruct (p a); constructor; exact IH.
Qed.

Lemma Subseq_map {A B : Type} (f : A -> B) (l l' : list A) :
  Subseq l l' -> Subseq (map f l) (map f l').
Proof. induction 1; cbn; constructor; assumption. Qed.

Lemma Subseq_snoc {A : Type} (l l' : list A) (x : A) :
  Subseq l l' -> Subseq (l ++ [x]) (l' ++ [x]).
Proof.
  induction 1 as [|y l l' _ IH|y l l' _ IH]; cbn.
  - apply Subseq_take, Subseq_nil.
  - apply Subseq_skip, IH.
  - apply Subseq_take, IH.
Qed.

Lemma Subseq_grow {A : Type} (l l' : list A) (x : A) :
  Subseq l l' -> Subseq l (l' ++ [x]).
Proof.
  induction 1 as [|y l l' _ IH|y l l' _ IH]; cbn.
  - apply Subseq_skip, Subseq_nil.
  - apply Subseq_skip, IH.
  - apply Subseq_take, IH.
Qed.

Lemma Subseq_In {A : Type} (l l' : list A) (a : A) :
  Subseq l l' -> In a l -> In a l'.
Proof.
  induction 1 as [|x l l' _ IH|x l l' _ IH]; intros Ha.
  - exact Ha.
  - right. now apply IH.
  - destruct Ha as [->|Ha]; [now left|right; now apply IH].
Qed.

Lemma Subseq_NoDup {A : Type} (l l' : list A) :
  Subseq l l' -> NoDup l' -> NoDup l.
Proof.
  induction 1 as [|x l l' H IH|x l l' H IH]; intros Hn.
  - exact Hn.
  - inversion Hn; subst. now apply IH.
  - inversion Hn; subst. constructor; [|now apply IH].
    intros Hx. apply H2. exact (@Subseq_In _ _ _ x H Hx).
Qed.

Section SpawnCounters.

Context {num : Type} {JS : JSNumber num}.
Local Open Scope js_scope.

Lemma counters_succ (n : nat) : counters (S n) = counters n ++ [counter n].
Proof. unfold counters. now rewrite seq_S, map_app. Qed.

Lemma moveNote_ids (l : list (Note.t num)) :
  map (@Note.id num) (map moveNote l) = map (@Note.id num) l.
Proof. rewrite map_map. apply map_ext. reflexivity. Qed.

Lemma moveTail_ids (l : list (Tail.t num)) :
  map (@Tail.id num) (map moveTail l) = map (@Tail.id num) l.
Proof.
  rewrite map_map. apply map_ext. intros t. unfold moveTail.
  now destruct (leb _ _).
Qed.

Lemma afterSpawns_step (n : nat) (s : State.t num) (e : Event num) :
  afterSpawns n s ->
  afterSpawns (if isMusicNote e then S n else n) (reduceState s e).
Proof.
  intros (Hc & Hn & Ht). unfold afterSpawns.
  rewrite noteCount_step.
  destruct e as [r|elapsed|column|r|endTime|k]; cbn [isMusicNote].
  - destruct (spawn_shape s r) as (-> & -> & _).
    rewrite counters_succ, !map_app. cbn [map].
    split; [now rewrite Hc|]. split.
    + cbn [createNote materialise Note.id]. rewrite Hc.
      now apply Subseq_snoc.
    + cbn [createNote materialise Note.tail].
      destruct (leb _ _); cbn [map].
      * cbn [createTail Tail.id]. rewrite Hc. now apply Subseq_snoc.
      * rewrite app_nil_r. now apply Subseq_grow.
  - split; [exact Hc|]. cbn [reduceState tick State.note State.tail].
    rewrite moveNote_ids, moveTail_ids. split.
    + eapply Subseq_trans; [|exact Hn]. apply Subseq_map, Subseq_filter.
    + eapply Subseq_trans; [|exact Ht]. apply Subseq_map, Subseq_filter.
  - split; [exact Hc|]. cbn [reduceState]. rewrite press_notes.
    destruct (press_frame s column) as (_ & _ & _ & -> & _).
    split; [|exact Ht].
    destruct (find _ _) as [a|]; [|exact Hn].
    destruct (isAligned a); [|exact Hn].
    eapply Subseq_trans; [|exact Hn]. apply Subseq_map, Subseq_filter.
  - now split.
  - destruct (release_frame s endTime) as (_ & _ & _ & H1 & H2 & _).
    cbn [reduceState]. now rewrite H1, H2.
  - now split.
Qed.

Lemma afterSpawns_run (es : list (Event num)) :
  forall (n : nat) (s : State.t num),
    afterSpawns n s -> afterSpawns (spawns es + n) (run s es).
Proof.
  induction es as [|e es IH]; intros n s H; [exact H|].
  change (run s (e :: es)) with (run (reduceState s e) es).
  apply (@afterSpawns_step n s e) in H. apply IH in H.
  unfold spawns in *. cbn [filter]. destruct (isMusicNote e); cbn [List.length].
  - now rewrite Nat.add_succ_r in H.
  - exact H.
Qed.

Lemma identifiers_of_run (es : list (Event num)) :
  let s := run initialState es in
  State.noteCount s = counter (spawns es)
  /\ Subseq (map (@Note.id num) (State.note s))
            (map (@NoteId num) (counters (spawns es)))
  /\ Subseq (map (@Tail.id num) (State.tail s))
            (map (@TailId num) (counters (spawns es))).
Proof.
  cbv zeta.
  assert (H0 : afterSpawns 0 initialState) by (repeat split; constructor).
  apply (afterSpawns_run es) in H0. now rewrite Nat.add_0_r in H0.
Qed.

End SpawnCounters.

Lemma countsFrom_spec (n : nat) :
  forall (i : PrimInt63.int) (c : float),
    countsFrom n i c = true ->
    forall k : nat,
      (k < n)%nat ->
      Uint63.to_Z (integerOf (Nat.iter k (fun c => PrimFloat.add c (lit 1)) c))
      = ((Uint63.to_Z i + Z.of_nat k) mod Uint63.wB)%Z.
Proof.
  induction n as [|n IH]; intros i c H k Hk; [lia|].
  cbn [countsFrom] in H. apply andb_true_iff in H. destruct H as [H0 H].
  destruct k as [|k].
  - apply Uint63.eqb_spec in H0.
    change (Uint63.to_Z (integerOf c)
            = ((Uint63.to_Z i + Z.of_nat 0) mod Uint63.wB)%Z).
    rewrite H0, Z.add_0_r.
    symmetry. apply Z.mod_small. apply Uint63.to_Z_bounded.
  - rewrite Nat.iter_succ_r. rewrite (IH _ _ H k) by lia.
    rewrite Uint63.add_spec, Uint63.of_Z_spec.
    rewrite Zplus_mod_idemp_r, Zplus_mod_idemp_l. f_equal. lia.
Qed.

Lemma counters_checked : countsFrom spawnBound (Uint63.of_Z 0) (lit 0) = true.
Proof. vm_compute. reflexivity. Qed.

Lemma counter_injective (j k : nat) :
  (j < spawnBound)%nat -> (k < spawnBound)%nat ->
  @counter float _ j = counter k -> j = k.
Proof.
  intros Hj Hk E.
  pose proof (@countsFrom_spec _ _ _ counters_checked j Hj) as Pj.
  pose proof (@countsFrom_spec _ _ _ counters_checked k Hk) as Pk.
  unfold counter in E. cbn [add Float64] in E.
  rewrite E in Pj. rewrite Pj in Pk.
  assert (B : (Z.of_nat spawnBound < Uint63.wB)%Z).
  { unfold spawnBound. rewrite N_nat_Z. reflexivity. }
  rewrite Uint63.of_Z_spec in Pk.
  rewrite !Z.add_0_l, !Z.mod_small in Pk by (try reflexivity; lia). lia.
Qed.

Lemma counters_NoDup (n : nat) :
  (n <= spawnBound)%nat -> NoDup (@counters float _ n).
Proof.
  intros Hn. unfold counters.
  apply NoDup_map_NoDup_ForallPairs; [|apply seq_NoDup].
  intros j k Hj Hk E. apply in_seq in Hj, Hk.
  apply counter_injective; [lia|lia|exact E].
Qed.

(** X5: the identifiers of the live notes and tails are spawn counters.
    After any run from the initial state [noteCount] is the counter of the
    spawns of the run, and the identifiers of the live notes, and those of
    the live tails, are among the counters handed out, in the order of their
    spawns; this holds for every interpretation.  On binary64 the first
    2^20 counters are the integers 0, 1, 2, ... without a repetition, so in
    every run with at most 2^20 spawns no two live notes and no two live
    tails share an identifier. *)
Theorem live_identifiers_are_spawn_counters :
  (forall (num : Type) (JS : JSNumber num) (es : list (Event num)),
      let s := run initialState es in
      State.noteCount s = counter (spawns es)
      /\ Subseq (map (@Note.id num) (State.note s))
                (map (@NoteId num) (counters (spawns es)))
      /\ Subseq (map (@Tail.id num) (State.tail s))
                (map (@TailId num) (counters (spawns es))))
  /\ (forall es : list (Event float),
         (spawns es <= spawnBound)%nat ->
         let s := run initialState es in
         NoDup (map (@Note.id float) (State.note s))
         /\ NoDup (map (@Tail.id float) (State.tail s))).
Proof.
  split; [intros num JS es; apply identifiers_of_run|].
  intros es Hn. cbv zeta.
  destruct (identifiers_of_run es) as (_ & H1 & H2). cbv zeta in H1, H2.
  pose proof (counters_NoDup Hn) as Hc. split.
  - apply (Subseq_NoDup H1). apply NoDup_map_NoDup_ForallPairs; [|exact Hc].
    intros a b _ _ E. now injection E.
  - apply (Subseq_NoDup H2). apply NoDup_map_NoDup_ForallPairs; [|exact Hc].
    intros a b _ _ E. now injection E.
Qed.

(** ** A successful press removes one note *)

Lemma find_split {A : Type} (p : A -> bool) (l : list A) (a : A) :
  find p l = Some a ->
  exists l1 l2,
    l = l1 ++ a :: l2 /\ p a = true /\ Forall (fun x => p x = false) l1.
Proof.
  induction l as [|x l IH]; simpl; [discriminate|].
  destruct (p x) eqn:Hx.
  - intros [= <-]. exists [], l. repeat split; [exact Hx|constructor].
  - intros H. destruct (IH H) as (l1 & l2 & -> & Ha & Hl).
    exists (x :: l1), l2. repeat split; [exact Ha|now constructor].
Qed.

Lemma binary64_same_refl (x : float) : same x x = true.
Proof. now apply FloatAxioms.Leibniz.eqb_spec. Qed.

Lemma binary64_Ident_same (i j : Ident float) :
  Ident_same i j = true <-> i = j.
Proof.
  destruct i as [|a|a], j as [|b|b]; cbn [Ident_same same Float64];
    try (split; [discriminate|discriminate]); try tauto.
  - rewrite FloatAxioms.Leibniz.eqb_spec. split; [now intros ->|now intros [=]].
  - rewrite FloatAxioms.Leibniz.eqb_spec. split; [now intros ->|now intros [=]].
Qed.

Lemma binary64_Tail_same_refl (t : Tail.t float) : Tail_same t t = true.
Proof.
  unfold Tail_same.
  rewrite (proj2 (binary64_Ident_same _ _) eq_refl), !binary64_same_refl,
    !String.eqb_refl.
  reflexivity.
Qed.

Lemma binary64_Note_same_refl (n : Note.t float) : Note_same n n = true.
Proof.
  unfold Note_same.
  rewrite (proj2 (binary64_Ident_same _ _) eq_refl), !binary64_same_refl,
    !String.eqb_refl, Bool.eqb_reflx.
  destruct (Note.tail n); [apply binary64_Tail_same_refl|reflexivity].
Qed.

Lemma binary64_Note_same_id (a b : Note.t float) :
  Note_same a b = true -> Note.id a = Note.id b.
Proof.
  unfold Note_same. intros H.
  repeat (apply andb_true_iff in H; destruct H as [H _]).
  now apply binary64_Ident_same.
Qed.

Lemma filter_others {A B : Type} (f : A -> B) (p : A -> bool) (a : A)
      (l1 l2 : list A) :
  NoDup (map f (l1 ++ a :: l2)) ->
  p a = false ->
  (forall m, p m = false -> f m = f a) ->
  filter p (l1 ++ a :: l2) = l1 ++ l2.
Proof.
  intros Hn Ha Hp. rewrite map_app in Hn. cbn [map] in Hn.
  apply NoDup_remove_2 in Hn.
  rewrite filter_app. cbn [filter]. rewrite Ha.
  assert (K : forall l, (forall m, In m l -> In (f m) (map f l1 ++ map f l2)) ->
                        filter p l = l).
  { intros l Hl. apply forallb_filter_id. apply forallb_forall. intros m Hm.
    destruct (p m) eqn:E; [reflexivity|].
    exfalso. apply Hn. rewrite <- (Hp m E). now apply Hl. }
  f_equal; apply K; intros m Hm; apply in_or_app;
    [left|right]; now apply in_map.
Qed.

(** X6: on binary64, after any run from the initial state with at most 2^20
    spawns, a press that finds an aligned note removes that note and no
    other: the live notes before it, none of which is in the pressed lane,
    and the live notes after it stay, in their order. *)
Theorem press_removes_first_note_in_lane
        (es : list (Event float)) (column : float) (n : Note.t float) :
  (spawns es <= spawnBound)%nat ->
  let s := run initialState es in
  find (fun note => eqb (assignColumn (Note.pitch note)) column)
       (State.note s) = Some n ->
  isAligned n = true ->
  exists l1 l2,
    State.note s = l1 ++ n :: l2
    /\ Forall (fun m => eqb (assignColumn (Note.pitch m)) column = false) l1
    /\ State.note (reduceState s (KeyPressEvent column)) = l1 ++ l2.
Proof.
  intros Hb s Hf Ha.
  destruct (find_split _ _ Hf) as (l1 & l2 & Hl & _ & Hl1).
  exists l1, l2. split; [exact Hl|]. split; [exact Hl1|].
  cbn [reduceState]. rewrite press_notes, Hf, Ha, Hl.
  apply filter_others with (f := @Note.id float).
  - rewrite <- Hl.
    destruct (identifiers_of_run es) as (_ & H1 & _). cbv zeta in H1.
    apply (Subseq_NoDup H1).
    apply NoDup_map_NoDup_ForallPairs; [|exact (counters_NoDup Hb)].
    intros a b _ _ E. now injection E.
  - now rewrite binary64_Note_same_refl.
  - intros m Hm. apply binary64_Note_same_id.
    now destruct (Note_same m n).
Qed.

(** ** Streak and multiplier on binary64 *)

Lemma streakFollows_spec (n : nat) :
  forall (k : Z) (cm : float * float),
    streakFollows n k cm = true ->
    forall j : nat,
      (j <= n)%nat ->
      Nat.iter j streakStep cm
      = (lit (inject_Z (k + Z.of_nat j)), multiplierAt (k + Z.of_nat j)).
Proof.
  induction n as [|n IH]; intros k [c m] H j Hj;
    cbn [streakFollows fst snd] in H;
    apply andb_true_iff in H; destruct H as [H Hn];
    apply andb_true_iff in H; destruct H as [Hc Hm];
    apply FloatAxioms.Leibniz.eqb_spec in Hc, Hm; subst c m.
  - assert (j = 0)%nat as -> by lia. now rewrite Z.add_0_r.
  - destruct j as [|j]; [now rewrite Z.add_0_r|].
    rewrite Nat.iter_succ_r, (IH _ _ Hn j) by lia.
    now replace (k + 1 + Z.of_nat j)%Z with (k + Z.of_nat (S j))%Z by lia.
Qed.

Lemma streak_checked : streakFollows hitBound 0 (lit 0, lit 1) = true.
Proof. vm_compute. reflexivity. Qed.

Lemma streakStep_at (n : nat) :
  (n < hitBound)%nat ->
  streakStep (lit (inject_Z (Z.of_nat n)) : float, multiplierAt (Z.of_nat n))
  = (lit (inject_Z (Z.of_nat (S n))), multiplierAt (Z.of_nat (S n))).
Proof.
  intros Hn.
  pose proof (@streakFollows_spec _ _ _ streak_checked n ltac:(lia)) as H0.
  pose proof (@streakFollows_spec _ _ _ streak_checked (S n) ltac:(lia)) as H1.
  rewrite Nat.iter_succ, H0 in H1. exact H1.
Qed.

Lemma judge_hit_attempt {num : Type} {JS : JSNumber num}
      (s : State.t num) (e : Event num) :
  judge s e = Hit -> isAttempt e = true.
Proof.
  destruct e; cbn [judge isAttempt]; try discriminate; try reflexivity.
  match goal with
  | |- (if ?b then _ else _) = _ -> _ => destruct b; discriminate
  end.
Qed.

Lemma streak_run (es : list (Event float)) :
  forall (s : State.t float) (n : nat),
    State.consecutiveHits s = lit (inject_Z (Z.of_nat n)) ->
    State.multiplier s = multiplierAt (Z.of_nat n) ->
    (n + attempts es <= hitBound)%nat ->
    exists n' : nat,
      (n' <= n + attempts es)%nat
      /\ State.consecutiveHits (run s es) = lit (inject_Z (Z.of_nat n'))
      /\ State.multiplier (run s es) = multiplierAt (Z.of_nat n').
Proof.
  induction es as [|e es IH]; intros s n Hc Hm Hb.
  - exists n. split; [lia|]. now split.
  - change (run s (e :: es)) with (run (reduceState s e) es).
    unfold attempts in *. cbn [filter] in *.
    destruct (judge s e) eqn:Hj.
    + rewrite (judge_hit_attempt _ _ Hj) in *. cbn [List.length] in *.
      pose proof (hit_streakStep s e Hj) as Hs.
      rewrite Hc, Hm, streakStep_at in Hs by lia.
      injection Hs as Hc' Hm'.
      destruct (IH _ (S n) Hc' Hm' ltac:(lia)) as (n' & Hle & H).
      exists n'. split; [lia|exact H].
    + destruct (miss_resets s e Hj) as (Hc' & Hm' & _).
      destruct (IH _ 0%nat Hc' Hm') as (n' & Hle & H).
      { destruct (isAttempt e); cbn [List.length] in *; lia. }
      exists n'. split; [|exact H].
      destruct (isAttempt e); cbn [List.length] in *; lia.
    + destruct (other_keeps_scoring s e Hj) as (Hc' & Hm' & _).
      rewrite Hc in Hc'. rewrite Hm in Hm'.
      destruct (IH _ n Hc' Hm') as (n' & Hle & H).
      { destruct (isAttempt e); cbn [List.length] in *; lia. }
      exists n'. split; [|exact H].
      destruct (isAttempt e); cbn [List.length] in *; lia.
Qed.

(** X7: on binary64 the streak determines the multiplier.  After any run
    from the initial state with at most 10000 presses and releases, the
    streak is a natural number [n], at most the number of presses and
    releases, and the multiplier is the double nearest to
    [(10 + 2 * (n div 10)) / 10]. *)
Theorem multiplier_follows_streak (es : list (Event float)) :
  (attempts es <= hitBound)%nat ->
  let s := run initialState es in
  exists n : nat,
    (n <= attempts es)%nat
    /\ State.consecutiveHits s = lit (inject_Z (Z.of_nat n))
    /\ State.multiplier s = multiplierAt (Z.of_nat n).
Proof.
  intros Hb. cbv zeta.
  apply (@streak_run es initialState 0%nat); [reflexivity| |exact Hb].
  vm_compute. reflexivity.
Qed.

(** ** The score on binary64

    The score is followed through the roundings of the scoring update, on
    the specification of binary64 ([SpecFloat]): each of [+], [*] and [/]
    on positive doubles in the normal range returns a double whose value is
    within a relative error of [eta] of the exact result (of twice [eta]
    from below, for [/]), and [Math.round] returns the double of an integer
    within one half of its argument.  The bounds are coarse but linear, and
    they suffice as long as the score stays far below [2^49]. *)

(** *** Rounding of binary64, from its specification *)

Section Rounding.

Local Open Scope Z_scope.

Lemma fexp64_eq (e : Z) : fexp64 e = Z.max (e - 53) (-1074).
Proof. reflexivity. Qed.

Lemma digits2_pos_bounds (p : positive) :
  2 ^ (Zpos (SpecFloat.digits2_pos p) - 1) <= Zpos p
  < 2 ^ Zpos (SpecFloat.digits2_pos p).
Proof.
  induction p as [p IH|p IH|]; cbn [SpecFloat.digits2_pos].
  - rewrite Pos2Z.inj_succ, (Pos2Z.inj_xI p).
    replace (Z.succ (Zpos (SpecFloat.digits2_pos p)) - 1)
      with (Z.succ (Zpos (SpecFloat.digits2_pos p) - 1)) by lia.
    rewrite !Z.pow_succ_r by lia.
    revert IH. generalize (2 ^ (Zpos (SpecFloat.digits2_pos p) - 1)).
    generalize (2 ^ Zpos (SpecFloat.digits2_pos p)). intros. lia.
  - rewrite Pos2Z.inj_succ, (Pos2Z.inj_xO p).
    replace (Z.succ (Zpos (SpecFloat.digits2_pos p)) - 1)
      with (Z.succ (Zpos (SpecFloat.digits2_pos p) - 1)) by lia.
    rewrite !Z.pow_succ_r by lia.
    revert IH. generalize (2 ^ (Zpos (SpecFloat.digits2_pos p) - 1)).
    generalize (2 ^ Zpos (SpecFloat.digits2_pos p)). intros. lia.
  - cbn. lia.
Qed.

Lemma Zdigits2_bounds (m : Z) :
  0 < m ->
  2 ^ (SpecFloat.Zdigits2 m - 1) <= m < 2 ^ SpecFloat.Zdigits2 m.
Proof.
  destruct m as [|p|p]; try lia. intros _. apply digits2_pos_bounds.
Qed.

Lemma Zdigits2_pos (m : Z) : 0 < m -> 0 < SpecFloat.Zdigits2 m.
Proof. destruct m; cbn; lia. Qed.

Lemma Zdigits2_unique (m d : Z) :
  0 < m -> 2 ^ (d - 1) <= m < 2 ^ d -> SpecFloat.Zdigits2 m = d.
Proof.
  intros Hm [H1 H2]. pose proof (Zdigits2_bounds Hm) as [B1 B2].
  pose proof (Zdigits2_pos Hm) as Hd.
  assert (Hd' : 0 < d).
  { destruct (Z.lt_ge_cases 0 d) as [|Hn]; [assumption|].
    rewrite (Z.pow_neg_r 2 d) in H2 by (destruct (Z.eq_dec d 0); [subst; cbn in H2; lia|lia]).
    lia. }
  destruct (Z.lt_trichotomy (SpecFloat.Zdigits2 m) d) as [Hlt|[Heq|Hgt]];
    [|exact Heq|].
  - assert (2 ^ SpecFloat.Zdigits2 m <= 2 ^ (d - 1))
      by (apply Z.pow_le_mono_r; lia). lia.
  - assert (2 ^ d <= 2 ^ (SpecFloat.Zdigits2 m - 1))
      by (apply Z.pow_le_mono_r; lia). lia.
Qed.

Lemma shr_1_m (mrs : SpecFloat.shr_record) :
  0 <= SpecFloat.shr_m mrs ->
  SpecFloat.shr_m (SpecFloat.shr_1 mrs) = SpecFloat.shr_m mrs / 2.
Proof.
  destruct mrs as [m r s]. cbn [SpecFloat.shr_m]. intros Hm.
  destruct m as [|[p|p|]|p]; cbn [SpecFloat.shr_1 SpecFloat.shr_m]; try lia.
  - reflexivity.
  - rewrite (Pos2Z.inj_xI p). apply Z.div_unique with (r := 1); lia.
  - rewrite (Pos2Z.inj_xO p). apply Z.div_unique with (r := 0); lia.
  - reflexivity.
Qed.

Lemma iter_shr_m (p : positive) :
  forall mrs : SpecFloat.shr_record,
    0 <= SpecFloat.shr_m mrs ->
    SpecFloat.shr_m (SpecFloat.iter_pos SpecFloat.shr_1 p mrs)
    = SpecFloat.shr_m mrs / 2 ^ Zpos p.
Proof.
  induction p as [p IH|p IH|]; intros mrs Hm; cbn [SpecFloat.iter_pos].
  - assert (H1 : 0 <= SpecFloat.shr_m (SpecFloat.shr_1 mrs)).
    { rewrite shr_1_m by assumption. apply Z.div_pos; lia. }
    assert (H2 : 0 <= SpecFloat.shr_m
                        (SpecFloat.iter_pos SpecFloat.shr_1 p
                                            (SpecFloat.shr_1 mrs))).
    { rewrite IH by assumption. apply Z.div_pos; [assumption|].
      apply Z.pow_pos_nonneg; lia. }
    rewrite IH, IH, shr_1_m by assumption.
    rewrite !Z.div_div by (try apply Z.pow_pos_nonneg; lia).
    f_equal. rewrite (Pos2Z.inj_xI p).
    replace (2 * Zpos p + 1) with (1 + Zpos p + Zpos p) by lia.
    rewrite !Z.pow_add_r by lia. lia.
  - assert (H2 : 0 <= SpecFloat.shr_m
                        (SpecFloat.iter_pos SpecFloat.shr_1 p mrs)).
    { rewrite IH by assumption. apply Z.div_pos; [assumption|].
      apply Z.pow_pos_nonneg; lia. }
    rewrite IH, IH by assumption.
    rewrite !Z.div_div by (try apply Z.pow_pos_nonneg; lia).
    f_equal. rewrite (Pos2Z.inj_xO p).
    replace (2 * Zpos p) with (Zpos p + Zpos p) by lia.
    rewrite !Z.pow_add_r by lia. lia.
  - rewrite shr_1_m by assumption. reflexivity.
Qed.

Lemma shr_record_of_loc_m (m : Z) (l : SpecFloat.location) :
  SpecFloat.shr_m (SpecFloat.shr_record_of_loc m l) = m.
Proof. destruct l as [|[]]; reflexivity. Qed.

Lemma shr_fexp_m (m e : Z) (l : SpecFloat.location) :
  0 <= m ->
  let n := Z.max 0 (fexp64 (SpecFloat.Zdigits2 m + e) - e) in
  SpecFloat.shr_m (fst (SpecFloat.shr_fexp FloatOps.prec FloatOps.emax m e l))
  = m / 2 ^ n
  /\ snd (SpecFloat.shr_fexp FloatOps.prec FloatOps.emax m e l) = e + n.
Proof.
  intros Hm. cbv zeta. unfold SpecFloat.shr_fexp, SpecFloat.shr.
  fold (fexp64 (SpecFloat.Zdigits2 m + e)).
  destruct (fexp64 (SpecFloat.Zdigits2 m + e) - e) as [|p|p] eqn:E;
    cbn [fst snd].
  - rewrite shr_record_of_loc_m. cbn. rewrite Z.div_1_r. lia.
  - rewrite iter_shr_m by (rewrite shr_record_of_loc_m; assumption).
    rewrite shr_record_of_loc_m.
    replace (Z.max 0 (Zpos p)) with (Zpos p) by lia. split; reflexivity.
  - rewrite shr_record_of_loc_m.
    replace (Z.max 0 (Zneg p)) with 0 by lia. cbn. rewrite Z.div_1_r. lia.
Qed.

Lemma shr_fexp_exact (m e : Z) (l : SpecFloat.location) :
  fexp64 (SpecFloat.Zdigits2 m + e) - e <= 0 ->
  SpecFloat.shr_fexp FloatOps.prec FloatOps.emax m e l
  = (SpecFloat.shr_record_of_loc m l, e).
Proof.
  intros H. unfold SpecFloat.shr_fexp, SpecFloat.shr.
  fold (fexp64 (SpecFloat.Zdigits2 m + e)).
  destruct (fexp64 (SpecFloat.Zdigits2 m + e) - e); try reflexivity. lia.
Qed.

Lemma round_nearest_even_bounds (m : Z) (l : SpecFloat.location) :
  m <= SpecFloat.round_nearest_even m l <= m + 1.
Proof.
  destruct l as [|[]]; cbn; try lia. destruct (Z.even m); lia.
Qed.

Lemma loc_of_shr_record_of_loc (m : Z) (l : SpecFloat.location) :
  SpecFloat.loc_of_shr_record (SpecFloat.shr_record_of_loc m l) = l.
Proof. destruct l as [|[]]; reflexivity. Qed.

Lemma shr_fexp_pair (m e : Z) (l : SpecFloat.location) :
  SpecFloat.shr_fexp FloatOps.prec FloatOps.emax m e l
  = (fst (SpecFloat.shr_fexp FloatOps.prec FloatOps.emax m e l),
     snd (SpecFloat.shr_fexp FloatOps.prec FloatOps.emax m e l)).
Proof. now destruct (SpecFloat.shr_fexp _ _ m e l). Qed.

(** The second normalisation of [binary_round_aux]: a mantissa of 53 bits
    stays, and 2^53 becomes 2^52 with the exponent raised by one. *)
Lemma renormalise (sx : bool) (m1 e1 : Z) :
  2 ^ 52 <= m1 <= 2 ^ 53 ->
  -1074 <= e1 <= 970 ->
  exists (m2 : positive) (e2 : Z),
    (let '(mrs, e) :=
       SpecFloat.shr_fexp FloatOps.prec FloatOps.emax m1 e1
                          SpecFloat.loc_Exact in
     match SpecFloat.shr_m mrs with
     | Z0 => S754_zero sx
     | Zpos m =>
         if e <=? FloatOps.emax - FloatOps.prec
         then S754_finite sx m e else S754_infinity sx
     | Zneg _ => S754_nan
     end) = S754_finite sx m2 e2
    /\ e1 <= e2 /\ Zpos m2 * 2 ^ (e2 - e1) = m1.
Proof.
  intros [Hlo Hhi] He.
  assert (Hpos : 0 < m1) by (assert (0 < 2 ^ 52) by reflexivity; lia).
  destruct (Z.eq_dec m1 (2 ^ 53)) as [->|Hne].
  - exists (Z.to_pos (2 ^ 52)), (e1 + 1).
    rewrite shr_fexp_pair.
    destruct (@shr_fexp_m (2 ^ 53) e1 SpecFloat.loc_Exact ltac:(lia)) as [H1 H2].
    cbv zeta in H1, H2.
    replace (SpecFloat.Zdigits2 (2 ^ 53)) with 54 in H1, H2 by reflexivity.
    rewrite fexp64_eq in H1, H2.
    replace (Z.max 0 (Z.max (54 + e1 - 53) (-1074) - e1)) with 1 in H1, H2
      by lia.
    rewrite H1, H2.
    change (2 ^ 53 / 2 ^ 1) with (Zpos (Z.to_pos (2 ^ 52))).
    replace (e1 + 1 <=? FloatOps.emax - FloatOps.prec) with true
      by (symmetry; apply Z.leb_le; change (FloatOps.emax - FloatOps.prec) with 971; lia).
    split; [reflexivity|]. split; [lia|].
    replace (e1 + 1 - e1) with 1 by lia. reflexivity.
  - assert (Hd : SpecFloat.Zdigits2 m1 = 53).
    { apply Zdigits2_unique; [assumption|].
      change (53 - 1) with 52. lia. }
    rewrite shr_fexp_exact
      by (rewrite Hd, fexp64_eq; lia).
    destruct m1 as [|p|p]; try lia.
    exists p, e1. cbn [SpecFloat.shr_m SpecFloat.shr_record_of_loc].
    replace (e1 <=? FloatOps.emax - FloatOps.prec) with true
      by (symmetry; apply Z.leb_le; change (FloatOps.emax - FloatOps.prec) with 971; lia).
    split; [reflexivity|]. split; [lia|].
    rewrite Z.sub_diag. cbn. lia.
Qed.

(** [binary_round_aux] on a mantissa of at least 53 bits, in the range of
    the normal numbers: the mantissa is cut to 53 bits, downwards or
    upwards. *)
Lemma round_aux (sx : bool) (mx ex : Z) (lx : SpecFloat.location) :
  0 < mx ->
  let d := SpecFloat.Zdigits2 mx in
  53 <= d ->
  -1074 <= d + ex - 53 ->
  d + ex + 1 <= 1024 ->
  exists (m2 : positive) (e2 m1 : Z),
    SpecFloat.binary_round_aux FloatOps.prec FloatOps.emax sx mx ex lx
    = S754_finite sx m2 e2
    /\ ex + (d - 53) <= e2
    /\ Zpos m2 * 2 ^ (e2 - (ex + (d - 53))) = m1
    /\ mx / 2 ^ (d - 53) <= m1 <= mx / 2 ^ (d - 53) + 1
    /\ (lx = SpecFloat.loc_Exact -> d = 53 -> m1 = mx).
Proof.
  intros Hm d Hd Hlo Hhi.
  pose proof (Zdigits2_bounds Hm) as [B1 B2]. fold d in B1, B2.
  set (n := d - 53) in *.
  assert (Hn : 0 <= n) by lia.
  assert (P : 0 < 2 ^ n) by (apply Z.pow_pos_nonneg; lia).
  set (q := mx / 2 ^ n).
  assert (Hq : 2 ^ 52 <= q < 2 ^ 53).
  { unfold q. split.
    - apply Z.div_le_lower_bound; [assumption|].
      rewrite <- Z.pow_add_r by lia.
      replace (n + 52) with (d - 1) by lia. assumption.
    - apply Z.div_lt_upper_bound; [assumption|].
      rewrite <- Z.pow_add_r by lia.
      replace (n + 53) with d by lia. assumption. }
  unfold SpecFloat.binary_round_aux.
  rewrite (shr_fexp_pair mx ex lx).
  destruct (@shr_fexp_m mx ex lx ltac:(lia)) as [H1 H2]. cbv zeta in H1, H2.
  fold d in H1, H2. rewrite fexp64_eq in H1, H2.
  replace (Z.max 0 (Z.max (d + ex - 53) (-1074) - ex)) with n in H1, H2
    by lia.
  fold q in H1.
  set (mrs := fst (SpecFloat.shr_fexp FloatOps.prec FloatOps.emax mx ex lx))
    in *.
  rewrite H2.
  set (m1 := SpecFloat.round_nearest_even
               (SpecFloat.shr_m mrs) (SpecFloat.loc_of_shr_record mrs)).
  pose proof (round_nearest_even_bounds
                (SpecFloat.shr_m mrs) (SpecFloat.loc_of_shr_record mrs)) as Hr.
  fold m1 in Hr. rewrite H1 in Hr.
  destruct (@renormalise sx m1 (ex + n)) as (m2 & e2 & R & Re & Rm);
    [lia|lia|].
  exists m2, e2, m1. split; [exact R|]. split; [exact Re|].
  split; [exact Rm|]. split; [exact Hr|].
  intros -> Hd53. unfold m1, mrs.
  rewrite shr_fexp_exact by (fold d; rewrite fexp64_eq; lia).
  cbn [fst]. now rewrite shr_record_of_loc_m, loc_of_shr_record_of_loc.
Qed.

End Rounding.

(** *** Values of doubles as rationals *)

Lemma pow2_pos (e : Z) : 0 < pow2 e.
Proof. apply Qpower_0_lt. reflexivity. Qed.

Lemma pow2_add (a b : Z) : pow2 (a + b) == pow2 a * pow2 b.
Proof. apply Qpower_plus. discriminate. Qed.

Lemma pow2_Z (n : Z) : (0 <= n)%Z -> pow2 n == inject_Z (2 ^ n).
Proof. intros H. unfold pow2. now rewrite Zpower_Qpower. Qed.

Lemma pow2_le (a b : Z) : (a <= b)%Z -> pow2 a <= pow2 b.
Proof. intros H. apply Qpower_le_compat_l; [exact H|discriminate]. Qed.

Lemma pow2_lt (a b : Z) : (a < b)%Z -> pow2 a < pow2 b.
Proof. intros H. apply Qpower_lt_compat_l; [exact H|reflexivity]. Qed.

Lemma pow2_lt_inv (a b : Z) : pow2 a < pow2 b -> (a < b)%Z.
Proof. intros H. apply Qpower_lt_compat_l_inv with (q := 2); [exact H|reflexivity]. Qed.

Lemma val_pos (m : positive) (e : Z) : 0 < val m e.
Proof.
  unfold val. apply Qmult_lt_0_compat; [reflexivity|apply pow2_pos].
Qed.

(** Mantissa times a power of two, as a value. *)
Lemma scaled (m : Z) (k e : Z) :
  (0 <= k)%Z ->
  inject_Z (m * 2 ^ k) * pow2 e == inject_Z m * pow2 (e + k).
Proof.
  intros Hk. rewrite inject_Z_mult, pow2_add, <- (pow2_Z Hk). ring.
Qed.

(** The position of a value fixes the sum of digits and exponent. *)
Lemma digits_above (m e a : Z) :
  (0 < m)%Z -> pow2 a <= inject_Z m * pow2 e ->
  (a + 1 <= SpecFloat.Zdigits2 m + e)%Z.
Proof.
  intros Hm H. pose proof (Zdigits2_bounds Hm) as [_ B].
  pose proof (Zdigits2_pos Hm) as Hd.
  assert (L : inject_Z m * pow2 e < pow2 (SpecFloat.Zdigits2 m + e)).
  { rewrite pow2_add. apply Qmult_lt_compat_r; [apply pow2_pos|].
    rewrite pow2_Z by lia. now rewrite <- Zlt_Qlt. }
  assert (K : pow2 a < pow2 (SpecFloat.Zdigits2 m + e))
    by (eapply Qle_lt_trans; eassumption).
  apply pow2_lt_inv in K. lia.
Qed.

Lemma digits_below (m e b : Z) :
  (0 < m)%Z -> inject_Z m * pow2 e < pow2 b ->
  (SpecFloat.Zdigits2 m + e <= b)%Z.
Proof.
  intros Hm H. pose proof (Zdigits2_bounds Hm) as [B _].
  pose proof (Zdigits2_pos Hm) as Hd.
  assert (L : pow2 (SpecFloat.Zdigits2 m - 1 + e) <= inject_Z m * pow2 e).
  { rewrite pow2_add. apply Qmult_le_compat_r; [|apply Qlt_le_weak, pow2_pos].
    rewrite pow2_Z by lia. now rewrite <- Zle_Qle. }
  assert (K : pow2 (SpecFloat.Zdigits2 m - 1 + e) < pow2 b)
    by (eapply Qle_lt_trans; eassumption).
  apply pow2_lt_inv in K. lia.
Qed.

(** [binary_round_aux] on values. *)
Lemma round_aux_val (sx : bool) (mx ex : Z) (lx : SpecFloat.location) :
  (0 < mx)%Z ->
  (53 <= SpecFloat.Zdigits2 mx)%Z ->
  pow2 (-1022) <= inject_Z mx * pow2 ex ->
  inject_Z mx * pow2 ex < pow2 1023 ->
  exists (m2 : positive) (e2 : Z),
    SpecFloat.binary_round_aux FloatOps.prec FloatOps.emax sx mx ex lx
    = S754_finite sx m2 e2
    /\ inject_Z mx * pow2 ex * (1 - eta) <= val m2 e2
    /\ val m2 e2 <= inject_Z mx * pow2 ex * (1 + eta).
Proof.
  intros Hm Hd Hlo Hhi.
  pose proof (digits_above _ _ Hm Hlo) as D1.
  pose proof (digits_below _ _ Hm Hhi) as D2.
  destruct (@round_aux sx mx ex lx Hm Hd ltac:(lia) ltac:(lia))
    as (m2 & e2 & m1 & R & Re & Rm & [Rlo Rhi] & _).
  exists m2, e2. split; [exact R|].
  set (d := SpecFloat.Zdigits2 mx) in *. set (n := (d - 53)%Z) in *.
  assert (Hn : (0 <= n)%Z) by lia.
  pose proof (Zdigits2_bounds Hm) as [B1 _]. fold d in B1.
  assert (P : (0 < 2 ^ n)%Z) by (apply Z.pow_pos_nonneg; lia).
  (* the value is m1 * 2^(ex + n) *)
  assert (V : val m2 e2 == inject_Z (m1 * 2 ^ n) * pow2 ex).
  { unfold val. rewrite <- Rm.
    replace e2 with ((ex + n) + (e2 - (ex + n)))%Z at 1 by lia.
    rewrite <- scaled by lia. rewrite (@scaled _ n ex) by lia. reflexivity. }
  (* integer bounds *)
  pose proof (Z.mul_div_le mx (2 ^ n) P) as Q1.
  pose proof (Z.mul_succ_div_gt mx (2 ^ n) P) as Q2.
  assert (S : (2 ^ n * 2 ^ 52 <= mx)%Z).
  { rewrite <- Z.pow_add_r by lia. replace (n + 52)%Z with (d - 1)%Z by lia.
    exact B1. }
  assert (I1 : (mx * 2 ^ 52 <= m1 * 2 ^ n * 2 ^ 52 + mx)%Z) by nia.
  assert (I2 : (m1 * 2 ^ n * 2 ^ 52 <= mx * 2 ^ 52 + mx)%Z) by nia.
  rewrite V. split.
  - setoid_replace (inject_Z mx * pow2 ex * (1 - eta))
      with (inject_Z mx * (1 - eta) * pow2 ex) by ring.
    apply Qmult_le_compat_r; [|apply Qlt_le_weak, pow2_pos].
    rewrite Zle_Qle in I1.
    rewrite inject_Z_plus, !inject_Z_mult in I1.
    change (inject_Z (2 ^ 52)) with 4503599627370496 in I1.
    rewrite inject_Z_mult. unfold eta. lra.
  - setoid_replace (inject_Z mx * pow2 ex * (1 + eta))
      with (inject_Z mx * (1 + eta) * pow2 ex) by ring.
    apply Qmult_le_compat_r; [|apply Qlt_le_weak, pow2_pos].
    rewrite Zle_Qle in I2.
    rewrite inject_Z_plus, !inject_Z_mult in I2.
    change (inject_Z (2 ^ 52)) with 4503599627370496 in I2.
    rewrite inject_Z_mult. unfold eta. lra.
Qed.

(** *** Digits of the normal doubles *)

Lemma digits_ge (m k : Z) :
  (0 < m)%Z -> (2 ^ (k - 1) <= m)%Z -> (k <= SpecFloat.Zdigits2 m)%Z.
Proof.
  intros Hm H. pose proof (Zdigits2_bounds Hm) as [_ B].
  pose proof (Zdigits2_pos Hm) as Hd.
  destruct (Z.le_gt_cases k (SpecFloat.Zdigits2 m)) as [|Hlt]; [assumption|].
  assert (2 ^ SpecFloat.Zdigits2 m <= 2 ^ (k - 1))%Z
    by (apply Z.pow_le_mono_r; lia).
  lia.
Qed.

(** A valid double in the range of the normal numbers has 53 digits. *)
Lemma normal_digits (s : bool) (m : positive) (e : Z) :
  SpecFloat.valid_binary FloatOps.prec FloatOps.emax (S754_finite s m e) = true ->
  pow2 (-1022) <= val m e ->
  SpecFloat.Zdigits2 (Zpos m) = 53%Z /\ (-1074 <= e <= 971)%Z.
Proof.
  intros Hv Hlo. cbn [SpecFloat.valid_binary] in Hv.
  unfold SpecFloat.bounded, SpecFloat.canonical_mantissa in Hv.
  apply andb_true_iff in Hv. destruct Hv as [Hc Hb].
  apply Z.eqb_eq in Hc. apply Z.leb_le in Hb.
  fold (fexp64 (Zpos (SpecFloat.digits2_pos m) + e)) in Hc.
  rewrite fexp64_eq in Hc.
  change (FloatOps.emax - FloatOps.prec)%Z with 971%Z in Hb.
  pose proof (@digits_above (Zpos m) e (-1022) ltac:(lia) Hlo) as D.
  cbn [SpecFloat.Zdigits2] in *. lia.
Qed.

Lemma Pos64_normal (x : float) (v : Q) :
  Pos64 x v -> pow2 (-1022) <= v ->
  exists (m : positive) (e : Z),
    Prim2SF x = S754_finite false m e /\ v == val m e
    /\ SpecFloat.Zdigits2 (Zpos m) = 53%Z /\ (-1074 <= e <= 971)%Z.
Proof.
  intros (m & e & Hx & Hv) Hlo. exists m, e.
  split; [exact Hx|]. split; [exact Hv|].
  apply normal_digits with (s := false).
  - rewrite <- Hx. apply Prim2SF_valid.
  - now rewrite <- Hv.
Qed.

(** *** Multiplication *)

Lemma mul_val (x y : float) (vx vy : Q) :
  Pos64 x vx -> Pos64 y vy ->
  pow2 (-1022) <= vx ->
  pow2 (-1022) <= vx * vy -> vx * vy < pow2 1023 ->
  exists v : Q,
    Pos64 (PrimFloat.mul x y) v
    /\ vx * vy * (1 - eta) <= v /\ v <= vx * vy * (1 + eta).
Proof.
  intros Hx (my & ey & Hy & Vy) Lx Lo Hi.
  destruct (Pos64_normal Hx Lx) as (mx & ex & Hx' & Vx & Dx & _).
  assert (V : inject_Z (Zpos (mx * my)) * pow2 (ex + ey) == vx * vy).
  { rewrite Vx, Vy. unfold val. rewrite Pos2Z.inj_mul, inject_Z_mult, pow2_add.
    ring. }
  assert (D : (53 <= SpecFloat.Zdigits2 (Zpos (mx * my)))%Z).
  { apply digits_ge; [lia|].
    pose proof (@Zdigits2_bounds (Zpos mx) ltac:(lia)) as [B _].
    rewrite Dx in B. change (53 - 1)%Z with 52%Z in *.
    rewrite Pos2Z.inj_mul. nia. }
  destruct (@round_aux_val false (Zpos (mx * my)) (ex + ey)
              SpecFloat.loc_Exact ltac:(lia) D)
    as (m2 & e2 & R & B1 & B2).
  { now rewrite V. }
  { now rewrite V. }
  exists (val m2 e2). split.
  - exists m2, e2. split; [|reflexivity].
    rewrite mul_spec, Hx', Hy. exact R.
  - rewrite <- V. split; assumption.
Qed.

(** *** Rounding of an integer mantissa *)

Lemma iter_xO (m d : positive) :
  Zpos (Pos.iter xO m d) = (Zpos m * 2 ^ Zpos d)%Z.
Proof.
  induction d as [|d IH] using Pos.peano_ind.
  - cbn [Pos.iter]. rewrite (Pos2Z.inj_xO m). change (2 ^ 1)%Z with 2%Z. lia.
  - rewrite Pos.iter_succ, (Pos2Z.inj_xO (Pos.iter xO m d)), IH.
    rewrite Pos2Z.inj_succ, Z.pow_succ_r by lia. lia.
Qed.

Lemma shl_align_val (m : positive) (e e' : Z) :
  let r := SpecFloat.shl_align m e e' in
  (snd r <= e)%Z
  /\ Zpos (fst r) = (Zpos m * 2 ^ (e - snd r))%Z
  /\ (snd r = Z.min e e').
Proof.
  cbv zeta. unfold SpecFloat.shl_align.
  destruct (e' - e)%Z as [|d|d] eqn:E; cbn [fst snd].
  - rewrite Z.sub_diag. cbn. lia.
  - rewrite Z.sub_diag. cbn. lia.
  - rewrite iter_xO. replace (e - e')%Z with (Zpos d) by lia. lia.
Qed.

Lemma binary_round_val (sx : bool) (m : positive) (e : Z) :
  pow2 (-1022) <= val m e -> val m e < pow2 1023 ->
  exists (m2 : positive) (e2 : Z),
    SpecFloat.binary_round FloatOps.prec FloatOps.emax sx m e
    = S754_finite sx m2 e2
    /\ val m e * (1 - eta) <= val m2 e2
    /\ val m2 e2 <= val m e * (1 + eta).
Proof.
  intros Lo Hi. unfold SpecFloat.binary_round.
  fold (fexp64 (Zpos (SpecFloat.digits2_pos m) + e)).
  pose proof (shl_align_val m e (fexp64 (Zpos (SpecFloat.digits2_pos m) + e)))
    as (S1 & S2 & S3). cbv zeta in S1, S2, S3.
  destruct (SpecFloat.shl_align m e
              (fexp64 (Zpos (SpecFloat.digits2_pos m) + e))) as [mz ez].
  cbn [fst snd] in S1, S2, S3.
  assert (V : inject_Z (Zpos mz) * pow2 ez == val m e).
  { rewrite S2. rewrite scaled by lia. unfold val.
    now replace (ez + (e - ez))%Z with e by lia. }
  pose proof (@digits_above (Zpos m) e (-1022) ltac:(lia) Lo) as D.
  cbn [SpecFloat.Zdigits2] in D.
  rewrite fexp64_eq in S3.
  assert (Dz : (53 <= SpecFloat.Zdigits2 (Zpos mz))%Z).
  { apply digits_ge; [lia|]. rewrite S2.
    pose proof (digits2_pos_bounds m) as [B _].
    change (53 - 1)%Z with 52%Z.
    destruct (Z.le_gt_cases 53 (Zpos (SpecFloat.digits2_pos m))) as [Hd|Hd].
    - replace (e - ez)%Z with 0%Z by lia. rewrite Z.mul_1_r.
      eapply Z.le_trans; [|exact B]. apply Z.pow_le_mono_r; lia.
    - replace 52%Z
        with ((Zpos (SpecFloat.digits2_pos m) - 1) + (e - ez))%Z by lia.
      rewrite Z.pow_add_r by lia.
      apply Z.mul_le_mono_nonneg_r; [|exact B].
      apply Z.pow_nonneg. lia. }
  destruct (@round_aux_val sx (Zpos mz) ez SpecFloat.loc_Exact
              ltac:(lia) Dz)
    as (m2 & e2 & R & B1 & B2).
  { now rewrite V. }
  { now rewrite V. }
  exists m2, e2. split; [exact R|]. rewrite <- V. split; assumption.
Qed.

(** *** Addition *)

Lemma add_val (x y : float) (vx vy : Q) :
  Pos64 x vx -> Pos64 y vy ->
  pow2 (-1022) <= vx + vy -> vx + vy < pow2 1023 ->
  exists v : Q,
    Pos64 (PrimFloat.add x y) v
    /\ (vx + vy) * (1 - eta) <= v /\ v <= (vx + vy) * (1 + eta).
Proof.
  intros (mx & ex & Hx & Vx) (my & ey & Hy & Vy) Lo Hi.
  pose proof (add_spec x y) as A. rewrite Hx, Hy in A.
  unfold SF64add, SpecFloat.SFadd in A. cbv zeta in A.
  cbn [SpecFloat.cond_Zopp] in A.
  pose proof (shl_align_val mx ex (Z.min ex ey)) as (X1 & X2 & X3).
  pose proof (shl_align_val my ey (Z.min ex ey)) as (Y1 & Y2 & Y3).
  cbv zeta in X1, X2, X3, Y1, Y2, Y3.
  destruct (SpecFloat.shl_align mx ex (Z.min ex ey)) as [ax ez1].
  destruct (SpecFloat.shl_align my ey (Z.min ex ey)) as [ay ez2].
  cbn [fst snd] in *.
  change (Zpos ax + Zpos ay)%Z with (Zpos (ax + ay)) in A.
  cbn [SpecFloat.binary_normalize] in A.
  assert (V : val (ax + ay) (Z.min ex ey) == vx + vy).
  { unfold val. rewrite Pos2Z.inj_add, inject_Z_plus, X2, Y2.
    rewrite Qmult_plus_distr_l.
    rewrite !scaled by lia.
    replace (Z.min ex ey + (ex - ez1))%Z with ex by lia.
    replace (Z.min ex ey + (ey - ez2))%Z with ey by lia.
    rewrite Vx, Vy. reflexivity. }
  destruct (@binary_round_val false (ax + ay) (Z.min ex ey))
    as (m2 & e2 & R & B1 & B2).
  { now rewrite V. }
  { now rewrite V. }
  exists (val m2 e2). split.
  - exists m2, e2. split; [|reflexivity]. rewrite A. exact R.
  - rewrite <- V. split; assumption.
Qed.

Lemma add_zero_l (x y : float) (vy : Q) :
  Prim2SF x = S754_zero false -> Pos64 y vy -> Pos64 (PrimFloat.add x y) vy.
Proof.
  intros Hx (my & ey & Hy & Vy). exists my, ey. split; [|exact Vy].
  now rewrite add_spec, Hx, Hy.
Qed.

(** *** Division *)

Lemma div_val (x y : float) (vx vy : Q) :
  Pos64 x vx -> Pos64 y vy ->
  pow2 (-1022) <= vx -> pow2 (-1022) <= vy ->
  pow2 (-1021) <= vx / vy -> vx / vy < pow2 1023 ->
  exists v : Q,
    Pos64 (PrimFloat.div x y) v
    /\ vx / vy * (1 - eta) * (1 - eta) <= v /\ v <= vx / vy * (1 + eta).
Proof.
  intros Hx Hy Lx Ly Lo Hi.
  destruct (Pos64_normal Hx Lx) as (mx & ex & Hx' & Vx & Dx & _).
  destruct (Pos64_normal Hy Ly) as (my & ey & Hy' & Vy & Dy & _).
  pose proof (@Zdigits2_bounds (Zpos mx) ltac:(lia)) as [Bx1 Bx2].
  pose proof (@Zdigits2_bounds (Zpos my) ltac:(lia)) as [By1 By2].
  rewrite Dx in Bx1, Bx2. rewrite Dy in By1, By2.
  change (53 - 1)%Z with 52%Z in *.
  (* the quotient of the values *)
  assert (Py : 0 < inject_Z (Zpos my)) by reflexivity.
  assert (V : vx / vy
              == inject_Z (Zpos mx * 2 ^ 53) / inject_Z (Zpos my)
                 * pow2 (ex - ey - 53)).
  { rewrite Vx, Vy. unfold val.
    replace ex with ((ex - ey - 53) + 53 + ey)%Z at 1 by lia.
    rewrite !pow2_add, inject_Z_mult, (@pow2_Z 53) by lia.
    pose proof (pow2_pos ey). field. split; lra. }
  (* the exponents are apart by less than the range *)
  assert (E : (-1021 <= ex - ey)%Z).
  { assert (K : vx / vy < pow2 (ex - ey + 1)).
    { rewrite V.
      replace (ex - ey + 1)%Z with (54 + (ex - ey - 53))%Z by lia.
      rewrite pow2_add. apply Qmult_lt_compat_r; [apply pow2_pos|].
      apply Qlt_shift_div_r; [exact Py|].
      rewrite (@pow2_Z 54) by lia. rewrite <- inject_Z_mult, <- Zlt_Qlt.
      change (2 ^ 54)%Z with (2 * 2 ^ 53)%Z. nia. }
    assert (K' : pow2 (-1021) < pow2 (ex - ey + 1))
      by (eapply Qle_lt_trans; eassumption).
    apply pow2_lt_inv in K'. lia. }
  pose proof (div_spec x y) as A. rewrite Hx', Hy' in A.
  unfold SF64div, SpecFloat.SFdiv, SpecFloat.SFdiv_core_binary in A.
  cbv zeta in A. rewrite Dx, Dy in A.
  fold (fexp64 (53 + ex - (53 + ey))) in A. rewrite fexp64_eq in A.
  replace (Z.min (Z.max (53 + ex - (53 + ey) - 53) (-1074)) (ex - ey))
    with (ex - ey - 53)%Z in A by lia.
  replace (ex - ey - (ex - ey - 53))%Z with 53%Z in A by lia.
  cbv iota in A. rewrite Z.shiftl_mul_pow2 in A by lia.
  pose proof (Z_div_mod (Zpos mx * 2 ^ 53) (Zpos my) ltac:(lia)) as DM.
  destruct (Z.div_eucl (Zpos mx * 2 ^ 53) (Zpos my)) as [q r].
  destruct DM as [DM1 DM2].
  assert (Hq : (2 ^ 52 <= q)%Z) by nia.
  assert (Dq : (53 <= SpecFloat.Zdigits2 q)%Z)
    by (apply digits_ge; [lia|exact Hq]).
  set (P := pow2 (ex - ey - 53)) in *.
  assert (PP : 0 < P) by apply pow2_pos.
  set (W := inject_Z q * P).
  assert (W1 : W <= vx / vy).
  { rewrite V. unfold W. apply Qmult_le_compat_r; [|lra].
    apply Qle_shift_div_l; [exact Py|].
    rewrite <- inject_Z_mult, <- Zle_Qle. nia. }
  assert (W2 : vx / vy < W + P).
  { rewrite V. unfold W.
    setoid_replace (inject_Z q * P + P) with ((inject_Z q + 1) * P) by ring.
    apply Qmult_lt_compat_r; [exact PP|].
    apply Qlt_shift_div_r; [exact Py|].
    change 1 with (inject_Z 1).
    rewrite <- inject_Z_plus, <- inject_Z_mult, <- Zlt_Qlt. nia. }
  assert (W3 : P <= eta * W).
  { unfold W. rewrite Qmult_assoc.
    setoid_replace P with (1 * P) at 1 by ring.
    apply Qmult_le_compat_r; [|lra].
    rewrite Zle_Qle in Hq. change (inject_Z (2 ^ 52)) with 4503599627370496 in Hq.
    unfold eta. lra. }
  assert (E1 : eta == 1 # 4503599627370496) by reflexivity.
  assert (Wlo : pow2 (-1022) <= W).
  { assert (H2 : pow2 (-1021) == 2 * pow2 (-1022)) by reflexivity.
    assert (P <= W) by (rewrite E1 in W3; lra). lra. }
  destruct (@round_aux_val false q (ex - ey - 53)
              (SpecFloat.new_location (Zpos my) r)
              ltac:(lia) Dq)
    as (m2 & e2 & R & B1 & B2).
  { exact Wlo. }
  { fold P. fold W. lra. }
  fold P in B1, B2. fold W in B1, B2.
  exists (val m2 e2). split.
  - exists m2, e2. split; [|reflexivity]. rewrite A. exact R.
  - rewrite E1 in *. split.
    + assert (L : vx / vy * (1 - (1 # 4503599627370496)) <= W) by lra.
      lra.
    + lra.
Qed.

(** *** Comparison *)

Lemma canonical_form (s : bool) (m : positive) (e : Z) :
  SpecFloat.valid_binary FloatOps.prec FloatOps.emax (S754_finite s m e) = true ->
  (e = Z.max (Zpos (SpecFloat.digits2_pos m) + e - 53) (-1074))%Z.
Proof.
  intros Hv. cbn [SpecFloat.valid_binary] in Hv.
  unfold SpecFloat.bounded, SpecFloat.canonical_mantissa in Hv.
  apply andb_true_iff in Hv. destruct Hv as [Hc _].
  apply Z.eqb_eq in Hc.
  fold (fexp64 (Zpos (SpecFloat.digits2_pos m) + e)) in Hc.
  rewrite fexp64_eq in Hc. lia.
Qed.

Lemma val_lt_exponent (m1 m2 : positive) (e1 e2 : Z) :
  SpecFloat.valid_binary FloatOps.prec FloatOps.emax (S754_finite false m1 e1)
  = true ->
  SpecFloat.valid_binary FloatOps.prec FloatOps.emax (S754_finite false m2 e2)
  = true ->
  (e1 < e2)%Z -> val m1 e1 < val m2 e2.
Proof.
  intros H1 H2 He.
  apply canonical_form in H1, H2.
  pose proof (digits2_pos_bounds m1) as [_ B1].
  pose proof (digits2_pos_bounds m2) as [B2 _].
  assert (D1 : (Zpos (SpecFloat.digits2_pos m1) <= 53)%Z) by lia.
  assert (D2 : (Zpos (SpecFloat.digits2_pos m2) = 53)%Z) by lia.
  rewrite D2 in B2. change (53 - 1)%Z with 52%Z in B2.
  assert (U : val m1 e1 < pow2 (53 + e1)).
  { unfold val. rewrite pow2_add.
    apply Qmult_lt_compat_r; [apply pow2_pos|].
    rewrite (@pow2_Z 53) by lia. rewrite <- Zlt_Qlt.
    eapply Z.lt_le_trans; [exact B1|]. apply Z.pow_le_mono_r; lia. }
  assert (L : pow2 (52 + e2) <= val m2 e2).
  { unfold val. rewrite pow2_add.
    apply Qmult_le_compat_r; [|apply Qlt_le_weak, pow2_pos].
    rewrite (@pow2_Z 52) by lia. now rewrite <- Zle_Qle. }
  assert (M : pow2 (53 + e1) <= pow2 (52 + e2)) by (apply pow2_le; lia).
  lra.
Qed.

Lemma leb_val (x y : float) (vx vy : Q) :
  Pos64 x vx -> Pos64 y vy -> vx <= vy -> PrimFloat.leb x y = true.
Proof.
  intros (mx & ex & Hx & Vx) (my & ey & Hy & Vy) H.
  pose proof (Prim2SF_valid x) as Ux. pose proof (Prim2SF_valid y) as Uy.
  rewrite Hx in Ux. rewrite Hy in Uy.
  rewrite leb_spec, Hx, Hy. unfold SpecFloat.SFleb, SpecFloat.SFcompare.
  destruct (Z.compare_spec ex ey) as [E|E|E].
  - subst ey. change (Pos.compare_cont Eq mx my) with (Pos.compare mx my).
    destruct (Pos.compare_spec mx my) as [C|C|C]; try reflexivity.
    exfalso. rewrite Vx, Vy in H. unfold val in H.
    apply Qmult_le_r in H; [|apply pow2_pos].
    rewrite <- Zle_Qle in H. lia.
  - reflexivity.
  - exfalso. pose proof (@val_lt_exponent _ _ _ _ Uy Ux E) as K.
    rewrite Vx, Vy in H. lra.
Qed.

Lemma leb_zero_l (x y : float) (vy : Q) :
  Prim2SF x = S754_zero false -> Pos64 y vy -> PrimFloat.leb x y = true.
Proof.
  intros Hx (my & ey & Hy & _). now rewrite leb_spec, Hx, Hy.
Qed.

(** *** Integers and [Math.round] *)

Lemma of_Z_val (p : positive) :
  (Zpos p < 2 ^ 62)%Z ->
  exists v : Q,
    Pos64 (F64.of_Z (Zpos p)) v
    /\ inject_Z (Zpos p) * (1 - eta) <= v
    /\ v <= inject_Z (Zpos p) * (1 + eta).
Proof.
  intros Hp.
  assert (V : val p 0 == inject_Z (Zpos p)).
  { unfold val. change (pow2 0) with 1. ring. }
  destruct (@binary_round_val false p 0) as (m2 & e2 & R & B1 & B2).
  { rewrite V. change (pow2 (-1022))
      with (inject_Z 1 * pow2 (-1022)).
    assert (pow2 (-1022) <= 1).
    { change 1 with (pow2 0). apply pow2_le. lia. }
    assert (1 <= inject_Z (Zpos p)).
    { change 1 with (inject_Z 1). rewrite <- Zle_Qle. lia. }
    change (inject_Z 1) with 1. lra. }
  { rewrite V. rewrite (@pow2_Z 1023) by lia. rewrite <- Zlt_Qlt.
    eapply Z.lt_trans; [exact Hp|]. reflexivity. }
  exists (val m2 e2). split.
  - exists m2, e2. split; [|reflexivity].
    unfold F64.of_Z. rewrite of_uint63_spec, Uint63.of_Z_spec.
    rewrite Z.mod_small by (split; [lia|]; eapply Z.lt_trans; [exact Hp|reflexivity]).
    exact R.
  - rewrite <- V. split; assumption.
Qed.

Lemma round_val (x : float) (v : Q) :
  Pos64 x v -> 1 <= v -> v < pow2 61 ->
  exists (n : Z) (v' : Q),
    Pos64 (F64.round x) v'
    /\ v - (1 # 2) <= inject_Z n /\ inject_Z n <= v + (1 # 2)
    /\ inject_Z n * (1 - eta) <= v' /\ v' <= inject_Z n * (1 + eta).
Proof.
  intros (m & e & Hx & Vx) Lo Hi.
  assert (E1 : eta == 1 # 4503599627370496) by reflexivity.
  unfold F64.round. rewrite Hx.
  destruct (Z.leb_spec 0 e) as [He|He].
  - exists (Zpos m * 2 ^ e)%Z, v.
    assert (V : v == inject_Z (Zpos m * 2 ^ e)).
    { rewrite Vx. unfold val. rewrite inject_Z_mult, pow2_Z by lia.
      reflexivity. }
    split; [exists m, e; now split|]. rewrite <- V, E1.
    repeat split; lra.
  - cbv zeta. cbn [F64.signed].
    set (k := (- e)%Z). assert (Hk : (0 < k)%Z) by lia.
    replace (1 - e)%Z with (k + 1)%Z by lia.
    set (T := (2 ^ k)%Z). assert (HT : (0 < T)%Z) by (apply Z.pow_pos_nonneg; lia).
    rewrite Z.pow_add_r by lia. change (2 ^ 1)%Z with 2%Z. fold T.
    set (n := ((2 * Zpos m + T) / (T * 2))%Z).
    pose proof (Z.mul_div_le (2 * Zpos m + T) (T * 2) ltac:(lia)) as N1.
    pose proof (Z.mul_succ_div_gt (2 * Zpos m + T) (T * 2) ltac:(lia)) as N2.
    fold n in N1, N2.
    assert (VT : v * inject_Z T == inject_Z (Zpos m)).
    { rewrite Vx. unfold val, T. rewrite <- (pow2_Z (n := k)) by lia.
      unfold k. rewrite <- Qmult_assoc, <- pow2_add.
      replace (e + - e)%Z with 0%Z by lia. change (pow2 0) with 1. ring. }
    assert (QT : 0 < inject_Z T)
      by (change 0 with (inject_Z 0); now rewrite <- Zlt_Qlt).
    assert (Qn1 : inject_Z n <= v + (1 # 2)).
    { apply Qmult_le_r with (z := inject_Z T * 2); [lra|].
      rewrite Zle_Qle in N1.
      rewrite !inject_Z_mult, inject_Z_plus, inject_Z_mult in N1.
      change (inject_Z 2) with 2 in N1.
      setoid_replace ((v + (1 # 2)) * (inject_Z T * 2))
        with (2 * (v * inject_Z T) + inject_Z T) by ring.
      rewrite VT. lra. }
    assert (Qn2 : v - (1 # 2) < inject_Z n).
    { apply Qmult_lt_r with (z := inject_Z T * 2); [lra|].
      rewrite Zlt_Qlt in N2. unfold Z.succ in N2.
      rewrite !inject_Z_mult, !inject_Z_plus, inject_Z_mult in N2.
      change (inject_Z 2) with 2 in N2. change (inject_Z 1) with 1 in N2.
      setoid_replace ((v - (1 # 2)) * (inject_Z T * 2))
        with (2 * (v * inject_Z T) - inject_Z T) by ring.
      rewrite VT. lra. }
    assert (Hn : (1 <= n)%Z).
    { assert (K : 0 < inject_Z n) by lra.
      change 0 with (inject_Z 0) in K. rewrite <- Zlt_Qlt in K. lia. }
    assert (Hn2 : (n < 2 ^ 62)%Z).
    { assert (K : inject_Z n < pow2 62).
      { assert (pow2 61 + pow2 61 == pow2 62) by reflexivity.
        assert (1 <= pow2 61) by (change 1 with (pow2 0); apply pow2_le; lia).
        lra. }
      rewrite (@pow2_Z 62) in K by lia. now rewrite <- Zlt_Qlt in K. }
    destruct (Z.eqb_spec n 0) as [E0|_]; [lia|].
    destruct n as [|p|p] eqn:En; try lia.
    destruct (@of_Z_val _ Hn2) as (v' & P & B1 & B2).
    exists (Zpos p), v'. split; [exact P|].
    repeat split; try assumption; lra.
Qed.

(** *** The constants of the scoring update *)

Lemma eta_value : eta == 1 # 4503599627370496.
Proof. reflexivity. Qed.

Lemma pow2_low : pow2 (-1022) <= 1 # 128 /\ pow2 (-1021) <= 1 # 128.
Proof.
  assert (E : pow2 (-7) == 1 # 128) by reflexivity.
  rewrite <- E. split; apply pow2_le; lia.
Qed.

Lemma pow2_high : 1180591620717411303424 <= pow2 1023.
Proof.
  assert (E : pow2 70 == 1180591620717411303424) by reflexivity.
  rewrite <- E. apply pow2_le. lia.
Qed.

Lemma pow2_61 : pow2 61 == 2305843009213693952.
Proof. reflexivity. Qed.

Lemma lit_1_val : Pos64 (lit 1) 1.
Proof.
  exists 4503599627370496%positive, (-52)%Z.
  split; [vm_compute; reflexivity|reflexivity].
Qed.

Lemma lit_10_val : Pos64 (lit 10) 10.
Proof.
  exists 5629499534213120%positive, (-49)%Z.
  split; [vm_compute; reflexivity|reflexivity].
Qed.

Lemma lit_02_val :
  exists v : Q, Pos64 (lit 0.2) v /\ 1 # 5 <= v /\ v <= 21 # 100.
Proof.
  exists (val 7205759403792794 (-55)). split.
  - exists 7205759403792794%positive, (-55)%Z.
    split; [vm_compute; reflexivity|reflexivity].
  - split; vm_compute; discriminate.
Qed.

(** *** Rounding to one decimal *)

Lemma roundTo1_val (x : float) (v : Q) :
  Pos64 x v -> 98 # 100 <= v -> v <= 100000000000000 ->
  exists (n : Q) (v' : Q),
    Pos64 (roundTo1 x) v'
    /\ 10 <= n
    /\ v * 10 * (1 - eta) - (1 # 2) <= n
    /\ n <= v * 10 * (1 + eta) + (1 # 2)
    /\ n * (1 # 10) * (1 - eta) * (1 - eta) * (1 - eta) <= v'
    /\ v' <= n * (1 # 10) * (1 + eta) * (1 + eta).
Proof.
  intros Hx Lo Hi.
  pose proof eta_value as E. pose proof pow2_low as [L1 L2].
  pose proof pow2_high as Hh. pose proof pow2_61 as H61.
  unfold roundTo1. cbn [round mul div Float64].
  destruct (@mul_val x (lit 10) v 10 Hx lit_10_val) as (vu & Pu & U1 & U2);
    [lra|lra|lra|].
  rewrite E in U1, U2.
  destruct (@round_val _ vu Pu) as (n & vr & Pr & N1 & N2 & R1 & R2);
    [lra|lra|].
  rewrite E in R1, R2.
  assert (Hn : (10 <= n)%Z).
  { destruct (Z_lt_le_dec n 10) as [K|K]; [|exact K]. exfalso.
    assert (K' : (n <= 9)%Z) by lia. rewrite Zle_Qle in K'.
    change (inject_Z 9) with 9 in K'. lra. }
  rewrite Zle_Qle in Hn. change (inject_Z 10) with 10 in Hn.
  assert (D : vr / 10 == vr * (1 # 10)) by (field; discriminate).
  destruct (@div_val _ (lit 10) vr 10 Pr lit_10_val) as (v' & P' & D1 & D2);
    [lra|lra|rewrite D; lra|rewrite D; lra|].
  rewrite D, E in D1, D2.
  exists (inject_Z n), v'. split; [exact P'|]. rewrite E.
  repeat split; lra.
Qed.

(** *** The scoring update on values *)

Lemma Pos64_positive (x : float) (v : Q) : Pos64 x v -> 0 < v.
Proof. intros (m & e & _ & V). rewrite V. apply val_pos. Qed.

Lemma leb_nonneg (x y : float) (vx vy : Q) :
  NonNeg64 x vx -> NonNeg64 y vy -> vx <= vy -> PrimFloat.leb x y = true.
Proof.
  intros [[Hx Vx]|Hx] [[Hy Vy]|Hy] H.
  - now rewrite leb_spec, Hx, Hy.
  - exact (@leb_zero_l _ _ _ Hx Hy).
  - apply Pos64_positive in Hx. lra.
  - exact (@leb_val _ _ _ _ Hx Hy H).
Qed.

Lemma scoringWithin_mono (h h' : Q) (s : State.t float) (vs : Q) :
  scoringWithin h s vs -> h <= h' -> scoringWithin h' s vs.
Proof.
  intros (vm & Pm & M1 & M2 & Ps & S1 & S2) H. exists vm.
  repeat split; try assumption; lra.
Qed.

Lemma multiplier_update (b : bool) (m : float) (vm h : Q) :
  Pos64 m vm -> 99 # 100 <= vm -> vm <= 1 + (3 # 10) * h ->
  0 <= h -> h <= 9999999 ->
  exists v' : Q,
    Pos64 (roundTo1 (if b then PrimFloat.add m (lit 0.2) else m)) v'
    /\ 99 # 100 <= v' /\ v' <= 1 + (3 # 10) * (h + 1).
Proof.
  intros Pm M1 M2 H0 H1.
  pose proof eta_value as E. pose proof pow2_low as [L1 L2].
  pose proof pow2_high as Hh.
  destruct b.
  - destruct lit_02_val as (w & Pw & W1 & W2).
    destruct (@add_val m (lit 0.2) vm w Pm Pw) as (vx & Px & X1 & X2);
      [lra|lra|].
    rewrite E in X1, X2.
    destruct (@roundTo1_val _ vx Px) as (n & v' & P' & N0 & N1 & N2 & V1 & V2);
      [lra|lra|].
    rewrite E in N1, N2, V1, V2.
    exists v'. split; [exact P'|]. split; lra.
  - destruct (@roundTo1_val _ vm Pm) as (n & v' & P' & N0 & N1 & N2 & V1 & V2);
      [lra|lra|].
    rewrite E in N1, N2, V1, V2.
    exists v'. split; [exact P'|]. split; lra.
Qed.

Lemma score_update (sc m : float) (vs vm h : Q) :
  NonNeg64 sc vs -> 0 <= vs -> vs <= 3000002 * h ->
  Pos64 m vm -> 99 # 100 <= vm -> vm <= 3000001 ->
  0 <= h -> h <= 9999999 ->
  exists v' : Q,
    Pos64 (roundTo1 (PrimFloat.add sc (PrimFloat.mul (lit 1) m))) v'
    /\ vs <= v' /\ v' <= 3000002 * (h + 1).
Proof.
  intros Ps S1 S2 Pm M1 M2 H0 H1.
  pose proof eta_value as E. pose proof pow2_low as [L1 L2].
  pose proof pow2_high as Hh.
  destruct (@mul_val (lit 1) m 1 vm lit_1_val Pm) as (vp & Pp & P1 & P2);
    [lra|lra|lra|].
  rewrite E in P1, P2.
  assert (T : exists vt : Q,
             Pos64 (PrimFloat.add sc (PrimFloat.mul (lit 1) m)) vt
             /\ (vs + vp) * (1 - eta) <= vt /\ vt <= (vs + vp) * (1 + eta)).
  { destruct Ps as [[Hz Vz]|Ps].
    - exists vp. split; [exact (@add_zero_l _ _ _ Hz Pp)|].
      rewrite E. split; lra.
    - apply add_val; [exact Ps|exact Pp|lra|lra]. }
  destruct T as (vt & Pt & T1 & T2). rewrite E in T1, T2.
  destruct (@roundTo1_val _ vt Pt) as (n & v' & P' & N0 & N1 & N2 & V1 & V2);
    [lra|lra|].
  rewrite E in N1, N2, V1, V2.
  exists v'. split; [exact P'|]. split; lra.
Qed.

(** *** The score along a run *)

Lemma scoring_step (s : State.t float) (e : Event float) (h vs : Q) :
  scoringWithin h s vs -> 0 <= h ->
  (isAttempt e = true -> h <= 9999999) ->
  exists vs' : Q,
    scoringWithin (h + (if isAttempt e then 1 else 0)) (reduceState s e) vs'
    /\ vs <= vs'.
Proof.
  intros (vm & Pm & M1 & M2 & Ps & S1 & S2) H0 Hb.
  assert (Hh : h <= h + (if isAttempt e then 1 else 0))
    by (destruct (isAttempt e); lra).
  destruct (judge s e) eqn:Hj.
  - pose proof (judge_hit_attempt _ _ Hj) as Ha. specialize (Hb Ha).
    rewrite Ha.
    destruct (hit_applies_scoring s e Hj) as (_ & Em & Es).
    destruct (scoring_formulas s) as (_ & Fm & Fs).
    rewrite Fs, <- Em in Es. rewrite Fm in Em.
    destruct (@multiplier_update
                (eqb (rem (add (State.consecutiveHits s) (lit 1)) (lit 10))
                     (lit 0))
                _ _ _ Pm M1 M2 H0 Hb) as (vm' & Pm' & A1 & A2).
    assert (Pm'' : Pos64 (State.multiplier (reduceState s e)) vm')
      by (rewrite Em; exact Pm').
    destruct (@score_update _ _ _ _ _ Ps S1 S2 Pm'' A1 ltac:(lra) H0 Hb)
      as (vs' & Ps' & B1 & B2).
    exists vs'. split; [|exact B1].
    exists vm'. split; [exact Pm''|]. split; [exact A1|]. split; [exact A2|].
    split; [right; rewrite Es; exact Ps'|]. split; lra.
  - destruct (miss_resets s e Hj) as (_ & Em & Es).
    exists vs. split; [|lra].
    exists 1. rewrite Em, Es. split; [exact lit_1_val|].
    repeat split; try assumption; lra.
  - destruct (other_keeps_scoring s e Hj) as (_ & Em & Es).
    exists vs. split; [|lra].
    exists vm. rewrite Em, Es.
    repeat split; try assumption; lra.
Qed.

Lemma attempts_cons {num : Type} (e : Event num) (es : list (Event num)) :
  attempts (e :: es)
  = ((if isAttempt e then 1 else 0) + attempts es)%nat.
Proof. unfold attempts. cbn [filter]. now destruct (isAttempt e). Qed.

Lemma attempts_app {num : Type} (es1 es2 : list (Event num)) :
  attempts (es1 ++ es2) = (attempts es1 + attempts es2)%nat.
Proof. unfold attempts. now rewrite filter_app, length_app. Qed.

Lemma scoring_run (es : list (Event float)) :
  forall (s : State.t float) (h : nat) (vs : Q),
    scoringWithin (inject_Z (Z.of_nat h)) s vs ->
    (h + attempts es <= pressBound)%nat ->
    exists vs' : Q,
      scoringWithin (inject_Z (Z.of_nat (h + attempts es))) (run s es) vs'
      /\ vs <= vs'.
Proof.
  induction es as [|e es IH]; intros s h vs Hs Hb.
  - exists vs. split; [|lra].
    change (attempts []) with 0%nat. now rewrite Nat.add_0_r.
  - change (run s (e :: es)) with (run (reduceState s e) es).
    rewrite attempts_cons in *.
    assert (H0 : 0 <= inject_Z (Z.of_nat h)).
    { change 0 with (inject_Z 0). rewrite <- Zle_Qle. lia. }
    destruct (@scoring_step s e _ _ Hs H0) as (v1 & H1 & L1).
    { intros Ha. rewrite Ha in Hb. change 9999999 with (inject_Z 9999999).
      rewrite <- Zle_Qle. unfold pressBound in Hb. lia. }
    assert (E : inject_Z (Z.of_nat h) + (if isAttempt e then 1 else 0)
                == inject_Z (Z.of_nat (h + (if isAttempt e then 1 else 0)))).
    { rewrite Nat2Z.inj_add, inject_Z_plus. now destruct (isAttempt e). }
    assert (H1' : scoringWithin
                    (inject_Z (Z.of_nat (h + (if isAttempt e then 1 else 0))))
                    (reduceState s e) v1).
    { apply (scoringWithin_mono H1). rewrite E. apply Qle_refl. }
    destruct (IH _ _ _ H1' ltac:(lia)) as (v2 & H2 & L2).
    exists v2. split; [|lra].
    now rewrite Nat.add_assoc.
Qed.

Lemma scoring_initially : @scoringWithin (inject_Z (Z.of_nat 0)) initialState 0.
Proof.
  exists 1. split; [exact lit_1_val|].
  change (inject_Z (Z.of_nat 0)) with 0.
  repeat split; try lra.
  left. split; [vm_compute; reflexivity|reflexivity].
Qed.

(** X17: on binary64 the score never decreases along a run from the initial
    state that holds at most ten million presses and releases: the score
    after a longer prefix of the run is at least the score after a shorter
    one, by the comparison of doubles. *)
Theorem score_never_drops_within_bound (es1 es2 : list (Event float)) :
  (attempts (es1 ++ es2) <= pressBound)%nat ->
  (State.score (run initialState es1)
   <= State.score (run initialState (es1 ++ es2)))%js = true.
Proof.
  intros Hb. rewrite attempts_app in Hb. rewrite run_app.
  destruct (@scoring_run es1 _ _ _ scoring_initially ltac:(cbn [Nat.add]; lia))
    as (v1 & H1 & _).
  cbn [Nat.add] in H1.
  destruct (@scoring_run es2 _ _ _ H1 Hb) as (v2 & H2 & L).
  destruct H1 as (_ & _ & _ & _ & P1 & _).
  destruct H2 as (_ & _ & _ & _ & P2 & _).
  exact (@leb_nonneg _ _ _ _ P1 P2 L).
Qed.

(** ** The hit window, counted in moves *)

Lemma exact_movementPerTick : @movementPerTick Q _ == 7 # 2.
Proof. reflexivity. Qed.

Lemma exact_descent (c0 : Q) (k : nat) :
  Nat.iter k (fun c : Q => add c movementPerTick) c0
  == c0 + inject_Z (Z.of_nat k) * (7 # 2).
Proof.
  induction k as [|k IH].
  - change (c0 == c0 + 0 * (7 # 2)). ring.
  - rewrite Nat.iter_succ. cbn [add Exact]. rewrite IH, exact_movementPerTick.
    rewrite Nat2Z.inj_succ. unfold Z.succ. rewrite inject_Z_plus.
    change (inject_Z 1) with 1. ring.
Qed.

Lemma exact_isAligned (n : Note.t Q) :
  isAligned n = true <-> 320 <= Note.cy n <= 380.
Proof.
  unfold isAligned, isAlignedCurried. cbn [leb abs sub Exact].
  rewrite Qle_bool_iff.
  change NOTE_ALIGNMENT_TOLERANCE with 30. change NOTE_PATH_LENGTH with 350.
  rewrite Qabs_Qle_condition. split; intros [H1 H2]; split; lra.
Qed.

Lemma window_table (k : nat) :
  (k <= 101)%nat ->
  PrimFloat.leb
    (PrimFloat.abs
       (PrimFloat.sub (lit (inject_Z (7 * Z.of_nat k) / 2)) NOTE_PATH_LENGTH))
    NOTE_ALIGNMENT_TOLERANCE
  = (92 <=? k)%nat.
Proof.
  intros Hk.
  do 102 (destruct k as [|k]; [vm_compute; reflexivity|]).
  lia.
Qed.


(** ** More on the pseudo-random streams *)

Lemma scanHash_app {num : Type} {JS : JSNumber num} (n m : nat) :
  forall seed : num,
    scanHash seed (n + m)
    = scanHash seed n ++ scanHash (Nat.iter n hash seed) m.
Proof.
  induction n as [|n IH]; intros seed; [reflexivity|].
  cbn [Nat.add scanHash app]. cbv zeta. rewrite IH.
  now rewrite <- Nat.iter_succ_r.
Qed.

(** X11: a stream is stable under further draws: the first [n] values of
    the stream of [n + m] draws are the stream of [n] draws, and the rest is
    the stream seeded with the accumulator reached. *)
Theorem longer_stream_extends_shorter {num : Type} {JS : JSNumber num}
        (seed : num) (n m : nat) :
  createRngStream seed (n + m)
  = createRngStream seed n ++ createRngStream (Nat.iter n hash seed) m
  /\ firstn n (createRngStream seed (n + m)) = createRngStream seed n.
Proof.
  assert (E : createRngStream seed (n + m)
              = createRngStream seed n
                ++ createRngStream (Nat.iter n hash seed) m).
  { unfold createRngStream. now rewrite scanHash_app, map_app. }
  split; [exact E|].
  rewrite E. rewrite firstn_app.
  assert (L : List.length (createRngStream seed n) = n).
  { unfold createRngStream. rewrite length_map.
    clear E. revert seed. induction n as [|n IH]; intros seed; [reflexivity|].
    cbn [scanHash List.length]. cbv zeta. now rewrite IH. }
  rewrite L, Nat.sub_diag, firstn_O, app_nil_r.
  rewrite <- L at 1. apply firstn_all.
Qed.

Lemma iter_shift {A : Type} (f : A -> A) (c : A) (P j : nat) :
  Nat.iter P f c = c -> Nat.iter (j + P) f c = Nat.iter j f c.
Proof. intros H. rewrite Nat.iter_add. rewrite H. reflexivity. Qed.

Lemma seed_enters_cycle (seed : float) :
  In seed seeds ->
  exists (p : nat) (c : float),
    (p <= N.to_nat 8134)%nat
    /\ Nat.iter p hash seed = c
    /\ Nat.iter period hash c = c.
Proof.
  destruct cycle_closes as [H1 H2].
  assert (Ce : Nat.iter period hash cycleEntry = cycleEntry).
  { symmetry. exact (proj1 (walk_spec _ _ (@walk_app _ _ _ _ _ H1 H2))). }
  assert (Ce1 : Nat.iter period hash cycleEntry1 = cycleEntry1).
  { symmetry. unfold period. rewrite Nat.add_comm.
    exact (proj1 (walk_spec _ _ (@walk_app _ _ _ _ _ H2 H1))). }
  destruct seeds_reach_cycle as (H100 & H1' & H2' & H3 & H0).
  assert (L : forall a b, (a <=? b)%N = true -> (N.to_nat a <= N.to_nat b)%nat).
  { intros a b H. apply N.leb_le in H. lia. }
  intros [<-|[<-|[<-|[<-|[<-|[]]]]]].
  - exists (N.to_nat 8134), cycleEntry. split; [now apply L|].
    split; [symmetry; exact (proj1 (walk_spec _ _ H100))|exact Ce].
  - exists (N.to_nat 689), cycleEntry1. split; [now apply L|].
    split; [symmetry; exact (proj1 (walk_spec _ _ H1'))|exact Ce1].
  - exists (N.to_nat 6805), cycleEntry. split; [now apply L|].
    split; [symmetry; exact (proj1 (walk_spec _ _ H2'))|exact Ce].
  - exists (N.to_nat 3003), cycleEntry. split; [now apply L|].
    split; [symmetry; exact (proj1 (walk_spec _ _ H3))|exact Ce].
  - exists (N.to_nat 5939), cycleEntry. split; [now apply L|].
    split; [symmetry; exact (proj1 (walk_spec _ _ H0))|exact Ce].
Qed.

(** X12: on binary64 the streams of the program repeat: from the draw of
    index 8134 on, each of the streams seeded with 100, 1, 2, 3 and 0 gives
    the same value again 10466 draws later. *)
Theorem streams_repeat_after_10466_draws (seed : float) (n k : nat) :
  In seed seeds ->
  (N.to_nat 8134 <= k)%nat ->
  (k + N.to_nat 10466 < n)%nat ->
  nth_error (createRngStream seed n) (k + N.to_nat 10466)
  = nth_error (createRngStream seed n) k.
Proof.
  intros Hs Hk Hn.
  destruct (seed_enters_cycle Hs) as (p & c & Hp & Hc & Hper).
  assert (P1 : N.to_nat 10466 = period) by (unfold period; lia).
  rewrite P1 in *. revert Hper Hn. generalize period. intros P Hper Hn.
  rewrite !createRngStream_nth by lia. f_equal. f_equal.
  assert (E1 : Nat.iter (S (k + P)) hash seed
               = Nat.iter (S k - p + P) hash c).
  { rewrite <- Hc, <- Nat.iter_add. f_equal. lia. }
  assert (E2 : Nat.iter (S k) hash seed = Nat.iter (S k - p) hash c).
  { rewrite <- Hc, <- Nat.iter_add. f_equal. lia. }
  rewrite E1, E2. now apply iter_shift.
Qed.

(** ** The filler notes *)

Lemma walkWith_spec (P : float -> bool) (n : nat) :
  forall x z,
    walkWith P n x = Some z ->
    z = Nat.iter n hash x
    /\ forall i, (i < n)%nat -> P (scale (hash (Nat.iter i hash x))) = true.
Proof.
  induction n as [|n IH]; intros x z H.
  - injection H as <-. split; [reflexivity|lia].
  - cbn [walkWith] in H. cbv zeta in H.
    destruct (P (scale (hash x))) eqn:H0; [|discriminate].
    destruct (IH _ _ H) as [-> Hi]. split.
    + now rewrite Nat.iter_succ_r.
    + intros [|i] Hlt; [exact H0|].
      rewrite Nat.iter_succ_r. apply Hi. lia.
Qed.

Lemma walkWith_always (P : float -> bool) (n : nat) (x z : float) :
  walkWith P n x = Some z -> alwaysWith P z -> alwaysWith P x.
Proof.
  intros H Hz k. destruct (walkWith_spec P n x H) as [-> Hi].
  destruct (Nat.lt_ge_cases k n) as [Hk|Hk]; [now apply Hi|].
  specialize (Hz (k - n)%nat). rewrite <- Nat.iter_add in Hz.
  now replace (k - n + n)%nat with k in Hz by lia.
Qed.

Lemma cycleWith_always (P : float -> bool) (n : nat) (z : float) :
  (0 < n)%nat -> walkWith P n z = Some z -> alwaysWith P z.
Proof.
  intros Hn H k. destruct (walkWith_spec P n z H) as [Hz Hi].
  induction k as [k IH] using lt_wf_ind.
  destruct (Nat.lt_ge_cases k n) as [Hk|Hk]; [now apply Hi|].
  specialize (IH (k - n)%nat ltac:(lia)).
  rewrite Hz in IH at 1. rewrite <- Nat.iter_add in IH.
  now replace (k - n + n)%nat with k in IH by lia.
Qed.

Lemma alwaysWith_later (P : float -> bool) (x : float) (j : nat) :
  alwaysWith P x -> alwaysWith P (Nat.iter j hash x).
Proof. intros H k. rewrite <- Nat.iter_add. apply H. Qed.

Lemma filler_cycle :
  walkWith fillerDraw (N.to_nat 10466) cycleEntry = Some cycleEntry.
Proof. vm_compute. reflexivity. Qed.

Lemma filler_tails :
  walkWith instrumentDefined (N.to_nat 8134) (lit 100) = Some cycleEntry
  /\ walkWith velocityInRange (N.to_nat 689) (lit 1) = Some cycleEntry1
  /\ walkWith pitchInRange (N.to_nat 6805) (lit 2) = Some cycleEntry
  /\ walkWith durationShort (N.to_nat 3003) (lit 3) = Some cycleEntry.
Proof.
  split; [vm_compute; reflexivity|].
  split; [vm_compute; reflexivity|].
  split; vm_compute; reflexivity.
Qed.

Lemma filler_draws_always :
  alwaysWith instrumentDefined (lit 100)
  /\ alwaysWith velocityInRange (lit 1)
  /\ alwaysWith pitchInRange (lit 2)
  /\ alwaysWith durationShort (lit 3).
Proof.
  assert (Hc : alwaysWith fillerDraw cycleEntry).
  { apply cycleWith_always with (n := N.to_nat 10466).
    - lia.
    - exact filler_cycle. }
  assert (Hsplit : forall x, alwaysWith fillerDraw x ->
            alwaysWith instrumentDefined x /\ alwaysWith velocityInRange x
            /\ alwaysWith pitchInRange x /\ alwaysWith durationShort x).
  { intros x H.
    assert (H' : forall k,
               let v := scale (hash (Nat.iter k hash x)) in
               instrumentDefined v = true /\ velocityInRange v = true
               /\ pitchInRange v = true /\ durationShort v = true).
    { intros k. specialize (H k). unfold fillerDraw in H.
      apply andb_true_iff in H. destruct H as [H H4].
      apply andb_true_iff in H. destruct H as [H H3].
      apply andb_true_iff in H. destruct H as [H1 H2]. cbv zeta. tauto. }
    split; [|split; [|split]]; intros k; apply (H' k). }
  destruct (Hsplit _ Hc) as (C1 & C2 & C3 & C4).
  assert (C2' : alwaysWith velocityInRange cycleEntry1).
  { destruct cycle_closes as [H1 _].
    rewrite (proj1 (walk_spec _ _ H1)). now apply alwaysWith_later. }
  destruct filler_tails as (T1 & T2 & T3 & T4).
  split; [exact (@walkWith_always _ _ _ _ T1 C1)|].
  split; [exact (@walkWith_always _ _ _ _ T2 C2')|].
  split; [exact (@walkWith_always _ _ _ _ T3 C3)|].
  exact (@walkWith_always _ _ _ _ T4 C4).
Qed.

Lemma nth_error_combine {A B : Type} (l1 : list A) :
  forall (l2 : list B) (k : nat) (a : A) (b : B),
    nth_error l1 k = Some a -> nth_error l2 k = Some b ->
    nth_error (combine l1 l2) k = Some (a, b).
Proof.
  induction l1 as [|x l1 IH]; intros [|y l2] [|k] a b H1 H2;
    try discriminate.
  - cbn in *. congruence.
  - cbn in *. now apply IH.
Qed.

Lemma elementFrom_In {num : Type} {JS : JSNumber num} (arr : list string) :
  forall (k : Z) (i : num) (a : string),
    elementFrom k arr i = Some a -> In a arr.
Proof.
  induction arr as [|x arr IH]; intros k i a H; [discriminate|].
  cbn [elementFrom] in H. destruct (eqb i _).
  - injection H as <-. now left.
  - right. exact (IH _ _ _ H).
Qed.

(** X13: every filler note can be played.  On binary64, whatever the number
    of wrong presses, the note built from the draws of index [k] of the four
    streams has one of the seven instruments (so the lookup in [INSTRUMENT]
    is never [undefined]), a velocity from 0.5 to 0.8, a pitch from 0 to 90,
    a start of 0 and an end in [0, 0.5), is not a note of the player and has
    no tail. *)
Theorem filler_notes_are_playable (n k : nat) :
  (k < n)%nat ->
  exists note : Note.t float,
    nth_error (randomNotes n) k = Some (Some note)
    /\ In (Note.instrumentName note) INSTRUMENT
    /\ leb (lit 0.5) (Note.velocity note) = true
    /\ leb (Note.velocity note) (lit 0.8) = true
    /\ leb (lit 0) (Note.pitch note) = true
    /\ leb (Note.pitch note) (lit 90) = true
    /\ Note.start note = lit 0
    /\ leb (lit 0) (Note.end_ note) = true
    /\ ltb (Note.end_ note) (lit 0.5) = true
    /\ Note.userPlayed note = false
    /\ Note.tail note = None.
Proof.
  intros Hk.
  destruct filler_draws_always as (A1 & A2 & A3 & A4).
  specialize (A1 k). specialize (A2 k). specialize (A3 k). specialize (A4 k).
  rewrite <- Nat.iter_succ in A1, A2, A3, A4.
  set (v1 := scale (Nat.iter (S k) hash (lit 100))) in *.
  set (v2 := scale (Nat.iter (S k) hash (lit 1))) in *.
  set (v3 := scale (Nat.iter (S k) hash (lit 2))) in *.
  set (v4 := scale (Nat.iter (S k) hash (lit 3))) in *.
  assert (E : nth_error (randomNotes n) k = Some (randomNote v1 v2 v3 v4)).
  { unfold randomNotes. rewrite nth_error_map.
    rewrite (@nth_error_combine _ _ _ _ k (v1, v2, v3) v4).
    - reflexivity.
    - apply nth_error_combine; [apply nth_error_combine|];
        now apply createRngStream_nth.
    - now apply createRngStream_nth. }
  unfold instrumentDefined, randomNote in A1.
  unfold randomNote in E.
  destruct (element INSTRUMENT _) as [name|] eqn:En; [|discriminate].
  apply elementFrom_In in En.
  apply andb_true_iff in A2, A3, A4.
  eexists. split; [exact E|]. cbn [Note.instrumentName Note.velocity
    Note.pitch Note.start Note.end_ Note.userPlayed Note.tail].
  split; [exact En|]. split; [exact (proj1 A2)|]. split; [exact (proj2 A2)|].
  split; [exact (proj1 A3)|]. split; [exact (proj2 A3)|].
  split; [reflexivity|].
  split; [exact (proj1 A4)|]. split; [exact (proj2 A4)|].
  split; reflexivity.
Qed.

(** ** Where notes and tails come from and where they go *)

Section Conservation.

Context {num : Type} {JS : JSNumber num}.
Local Open Scope js_scope.

Lemma press_exit (s : State.t num) (column : num) :
  State.exit (processNoteEvent s (Pressed column))
  = match find (fun note => assignColumn (Note.pitch note) === column)
               (State.note s) with
    | Some a => if isAligned a then State.exit s ++ [inl a] else State.exit s
    | None => State.exit s
    end.
Proof.
  simpl. destruct (find _ _) as [n|]; [|reflexivity].
  destruct (isAligned n); [|reflexivity].
  destruct (hasTail n); reflexivity.
Qed.

(** X14: no event loses or invents a note or a tail.  A live note is still
    live after an event, as it was or moved one step, unless a tick found it
    expired or a press found a note in its lane aligned and removed those
    identical to it; in both cases the note found is in [exit].  A live tail
    is still live, as it was or moved one step, unless a tick found it
    expired and put it in [exit]: no press and no release removes a tail.
    Conversely every live note and tail after an event was live before, as
    it is or one step earlier, or was created by the spawn just folded
    in. *)
Theorem notes_and_tails_leave_through_exit
        (s : State.t num) (e : Event num) :
  let s' := reduceState s e in
  (forall n : Note.t num,
      In n (State.note s) ->
      In n (State.note s')
      \/ In (moveNote n) (State.note s')
      \/ (exists elapsed : num,
             e = Tick elapsed /\ noteExpired elapsed n = true
             /\ In (inl n) (State.exit s'))
      \/ (exists (column : num) (a : Note.t num),
             e = KeyPressEvent column
             /\ find (fun note => assignColumn (Note.pitch note) === column)
                     (State.note s) = Some a
             /\ isAligned a = true /\ Note_same n a = true
             /\ In (inl a) (State.exit s')))
  /\ (forall t : Tail.t num,
         In t (State.tail s) ->
         In t (State.tail s')
         \/ In (moveTail t) (State.tail s')
         \/ (exists elapsed : num,
                e = Tick elapsed /\ tailExpired elapsed t = true
                /\ In (inr t) (State.exit s')))
  /\ (forall n' : Note.t num,
         In n' (State.note s') ->
         In n' (State.note s)
         \/ (exists n : Note.t num, In n (State.note s) /\ n' = moveNote n)
         \/ (exists r : Note.t num,
                e = MusicNote r /\ n' = createNote s (OfMusicNote r)))
  /\ (forall t' : Tail.t num,
         In t' (State.tail s') ->
         In t' (State.tail s)
         \/ (exists t : Tail.t num, In t (State.tail s) /\ t' = moveTail t)
         \/ (exists r : Note.t num,
                e = MusicNote r
                /\ Note.tail (createNote s (OfMusicNote r)) = Some t')).
Proof.
  cbv zeta. destruct e as [r|elapsed|column|r|endTime|k].
  - destruct (spawn_shape s r) as (En & Et & _). cbv zeta in En, Et.
    rewrite En, Et. split; [|split; [|split]].
    + intros n H. left. apply in_or_app. now left.
    + intros t H. left. apply in_or_app. now left.
    + intros n' H. apply in_app_or in H. destruct H as [H|[<-|[]]].
      * now left.
      * right. right. now exists r.
    + intros t' H. apply in_app_or in H. destruct H as [H|H]; [now left|].
      right. right. exists r. split; [reflexivity|].
      destruct (Note.tail (createNote s (OfMusicNote r))) as [t|];
        [|contradiction].
      destruct H as [<-|[]]. reflexivity.
  - cbn [reduceState]. unfold tick. cbn [State.note State.tail State.exit].
    unfold activeNote, activeTail, expiredNote, expiredTail.
    split; [|split; [|split]].
    + intros n H. destruct (noteExpired elapsed n) eqn:Hx.
      * right. right. left. exists elapsed. split; [reflexivity|].
        split; [exact Hx|]. apply in_or_app. left. apply in_map.
        apply filter_In. now split.
      * right. left. apply in_map. apply filter_In. split; [exact H|].
        unfold not. now rewrite Hx.
    + intros t H. destruct (tailExpired elapsed t) eqn:Hx.
      * right. right. exists elapsed. split; [reflexivity|].
        split; [exact Hx|]. apply in_or_app. right. apply in_map.
        apply filter_In. now split.
      * right. left. apply in_map. apply filter_In. split; [exact H|].
        unfold not. now rewrite Hx.
    + intros n' H. apply in_map_iff in H. destruct H as (n & <- & H).
      apply filter_In in H. right. left. exists n. now split.
    + intros t' H. apply in_map_iff in H. destruct H as (t & <- & H).
      apply filter_In in H. right. left. exists t. now split.
  - cbn [reduceState]. rewrite press_notes, press_exit.
    destruct (press_frame s column) as (_ & _ & _ & Et & _). cbv zeta in Et.
    rewrite Et. clear Et.
    split; [|split; [|split]]; [| now left | | now left].
    + intros n H.
      destruct (find _ (State.note s)) as [a|] eqn:Hf; [|now left].
      destruct (isAligned a) eqn:Ha; [|now left].
      destruct (Note_same n a) eqn:Hs.
      * right. right. right. exists column, a.
        split; [reflexivity|]. split; [exact Hf|]. split; [exact Ha|].
        split; [exact Hs|]. apply in_or_app. right. now left.
      * left. apply filter_In. split; [exact H|]. now rewrite Hs.
    + intros n' H. left.
      destruct (find _ (State.note s)) as [a|]; [|exact H].
      destruct (isAligned a); [|exact H].
      now apply filter_In in H.
  - cbn. split; [|split; [|split]]; now left.
  - destruct (release_frame s endTime) as (_ & _ & _ & En & Et & _).
    cbv zeta in En, Et. cbn [reduceState]. rewrite En, Et.
    split; [|split; [|split]]; now left.
  - cbn. split; [|split; [|split]]; now left.
Qed.

End Conservation.

(** ** Lanes of the integer pitches *)

Lemma integersFrom_In (n : nat) :
  forall lo p : Z,
    (lo <= p < lo + Z.of_nat n)%Z -> In p (integersFrom lo n).
Proof.
  induction n as [|n IH]; intros lo p H; [lia|].
  cbn [integersFrom]. destruct (Z.eq_dec lo p) as [->|Hne]; [now left|].
  right. apply IH. lia.
Qed.

Lemma lanes_checked :
  forallb laneChecked (integersFrom (- MAX_PITCH) 255) = true.
Proof. vm_compute. reflexivity. Qed.

(** X15: the lane of an integer pitch on binary64.  For every integer pitch
    from -127 to 127 the lane [pitch % 4] compares equal to [c] exactly when
    the remainder of the truncated division of the pitch by 4, which has the
    sign of the pitch, is [c]; the column and the colour of the tail are
    those of that remainder when it is not negative and the text
    [undefined] otherwise.  So a note of negative pitch that is no multiple
    of 4 is in none of the lanes 0 to 3. *)
Theorem lane_of_an_integer_pitch
        (s : State.t float) (e : Note.t float) (p : Z) :
  (- MAX_PITCH <= p <= MAX_PITCH)%Z ->
  Note.pitch e = lit (inject_Z p) ->
  let lane := Z.rem p 4 in
  (forall c : Z,
      (-3 <= c <= 3)%Z ->
      eqb (assignColumn (Note.pitch e)) (lit (inject_Z c)) = (lane =? c)%Z)
  /\ Tail.x (createTail s e)
     = laneText ["35"; "75"; "115"; "155"]%string lane
  /\ Tail.style (createTail s e)
     = String.append "fill: "
         (laneText ["green"; "red"; "blue"; "yellow"]%string lane).
Proof.
  intros Hp E lane.
  assert (H : laneChecked p = true).
  { pose proof lanes_checked as H. rewrite forallb_forall in H.
    apply H. apply integersFrom_In. unfold MAX_PITCH in *. lia. }
  unfold laneChecked in H.
  apply andb_true_iff in H. destruct H as [H H3].
  apply andb_true_iff in H. destruct H as [H1 H2].
  apply String.eqb_eq in H2, H3.
  rewrite forallb_forall in H1.
  split; [|split].
  - intros c Hc. rewrite E. apply Bool.eqb_prop. apply H1.
    assert (K : In c (integersFrom (-3) 7))
      by (apply integersFrom_In; lia).
    exact K.
  - unfold createTail. cbn [Tail.x]. rewrite E. exact H2.
  - unfold createTail. cbn [Tail.style]. rewrite E. now rewrite H3.
Qed.

(** ** What [render] plays *)

Section Replays.

Context {num : Type} {JS : JSNumber num}.
Local Open Scope js_scope.

Lemma press_sounds (s : State.t num) (column : num) :
  let s' := processNoteEvent s (Pressed column) in
  (exists p, State.playNote s' = State.playNote s ++ p)
  /\ (exists r, State.randomNotes s' = State.randomNotes s ++ r).
Proof.
  simpl. destruct (find _ _) as [n|].
  - destruct (isAligned n).
    + destruct (hasTail n); cbn; split;
        solve [now exists [n] | exists []; now rewrite app_nil_r].
    + cbn. split; [exists []; now rewrite app_nil_r|].
      now exists [createNote s (OfKeyPress column)].
  - cbn. split; [exists []; now rewrite app_nil_r|].
    now exists [createNote s (OfKeyPress column)].
Qed.

Lemma betweenTicks_step (s : State.t num) (e : Event num) :
  betweenTicks e = true ->
  let s' := reduceState s e in
  State.gameEnd s' = State.gameEnd s
  /\ (exists p, State.playNote s' = State.playNote s ++ p)
  /\ (exists r, State.randomNotes s' = State.randomNotes s ++ r).
Proof.
  intros He. cbv zeta. split.
  - rewrite gameEnd_step. destruct e; try discriminate; apply orb_false_r.
  - destruct e as [n|elapsed|column|n|endTime|k]; try discriminate.
    + destruct (spawn_shape s n) as (_ & _ & _ & _ & _ & _ & _ & -> & ->).
      split; exists []; now rewrite app_nil_r.
    + apply press_sounds.
    + destruct (release_frame s endTime)
        as (_ & _ & _ & _ & _ & _ & H1 & _ & H2).
      cbn [reduceState]. rewrite H1, H2.
      split; exists []; now rewrite app_nil_r.
Qed.

Lemma renderSounds_length (s : State.t num) :
  List.length (renderSounds s)
  = (List.length (State.playNote s) + List.length (State.randomNotes s))%nat.
Proof. unfold renderSounds. now rewrite length_app, !length_map. Qed.

(** X16: what is queued to be played is played again by every state
    rendered before the next tick.  While player-note spawns, presses and
    releases arrive in a state whose game has not ended, [render] is handed
    one state per event, each of them holds the notes to play and the
    filler requests of the state before, in their order and followed by the
    new ones, and so the calls to [playInstrument] and [playRandomNote]
    number at least those queued before, once per event. *)
Theorem queued_sounds_are_replayed_until_the_next_tick
        (s : State.t num) (es : list (Event num)) :
  State.gameEnd s = false ->
  forallb betweenTicks es = true ->
  List.length (rendered s es) = List.length es
  /\ Forall (fun s' =>
               (exists p, State.playNote s' = State.playNote s ++ p)
               /\ (exists r, State.randomNotes s' = State.randomNotes s ++ r))
            (rendered s es)
  /\ ((List.length (State.playNote s) + List.length (State.randomNotes s))
      * List.length es <= List.length (soundsOf s es))%nat.
Proof.
  revert s. induction es as [|e es IH]; intros s Hg Hes.
  - split; [reflexivity|]. split; [constructor|]. cbn. lia.
  - cbn [forallb] in Hes. apply andb_true_iff in Hes. destruct Hes as [He Hes].
    destruct (@betweenTicks_step s e He) as (Hg' & [p Hp] & [r Hr]).
    cbv zeta in Hg', Hp, Hr. rewrite Hg in Hg'.
    destruct (IH (reduceState s e) Hg' Hes) as (IH1 & IH2 & IH3).
    unfold soundsOf in *. cbn [rendered]. cbv zeta. rewrite Hg'.
    cbn [List.length flat_map]. rewrite length_app, renderSounds_length.
    rewrite Hp, Hr in *. rewrite !length_app in *.
    split; [now rewrite IH1|]. split.
    + constructor.
      * split; [now exists p|now exists r].
      * eapply Forall_impl; [|exact IH2]. cbv beta.
        intros s' [[p' Hp'] [r' Hr']]. split.
        -- exists (p ++ p'). now rewrite Hp', app_assoc.
        -- exists (r ++ r'). now rewrite Hr', app_assoc.
    + nia.
Qed.

End Replays.

(** ** The further theorems on concrete runs *)

Lemma live_notes_and_tails_well_formed_witness :
  let s : State.t float := run initialState sustainedAtLine in
  reachable s
  /\ Forall wellFormedNote (State.note s)
  /\ Forall wellFormedTail (State.tail s).
Proof.
  cbv zeta. set (s := run (@initialState float _) sustainedAtLine).
  assert (H : reachable s) by (apply reachable_run; constructor).
  split; [exact H|]. exact (live_notes_and_tails_well_formed H).
Defined.

Lemma live_identifiers_are_spawn_counters_witness :
  let es : list (Event float) := hitThenIdle 1.5 in
  let s := run initialState es in
  (spawns es <= spawnBound)%nat
  /\ NoDup (map (@Note.id float) (State.note s))
  /\ NoDup (map (@Tail.id float) (State.tail s)).
Proof.
  cbv zeta.
  assert (H : (spawns (@hitThenIdle float _ 1.5) <= spawnBound)%nat).
  { change (spawns (@hitThenIdle float _ 1.5)) with 2%nat.
    unfold spawnBound. lia. }
  split; [exact H|].
  exact (proj2 live_identifiers_are_spawn_counters (hitThenIdle 1.5) H).
Defined.

Lemma press_removes_first_note_in_lane_witness :
  let es : list (Event float) := shortAtLine in
  let s := run initialState es in
  (spawns es <= spawnBound)%nat
  /\ find (fun note => eqb (assignColumn (Note.pitch note)) (lit 0))
          (State.note s) = Some (firstNote s)
  /\ isAligned (firstNote s) = true
  /\ exists l1 l2,
       State.note s = l1 ++ firstNote s :: l2
       /\ Forall (fun m => eqb (assignColumn (Note.pitch m)) (lit 0) = false)
                 l1
       /\ State.note (reduceState s (KeyPressEvent (lit 0))) = l1 ++ l2.
Proof.
  cbv zeta. set (s := run (@initialState float _) shortAtLine).
  assert (H : (spawns (@shortAtLine float _) <= spawnBound)%nat).
  { change (spawns (@shortAtLine float _)) with 1%nat.
    unfold spawnBound. lia. }
  assert (Hf : find (fun note => eqb (assignColumn (Note.pitch note)) (lit 0))
                    (State.note s) = Some (firstNote s))
    by (vm_compute; reflexivity).
  assert (Ha : isAligned (firstNote s) = true) by (vm_compute; reflexivity).
  split; [exact H|]. split; [exact Hf|]. split; [exact Ha|].
  exact (@press_removes_first_note_in_lane shortAtLine (lit 0) (firstNote s)
           H Hf Ha).
Defined.

Lemma multiplier_follows_streak_witness :
  let es : list (Event float) := twentyHits in
  let s := run initialState es in
  (attempts es <= hitBound)%nat
  /\ exists n : nat,
       (n <= attempts es)%nat
       /\ State.consecutiveHits s = lit (inject_Z (Z.of_nat n))
       /\ State.multiplier s = multiplierAt (Z.of_nat n).
Proof.
  cbv zeta.
  assert (H : (attempts (@twentyHits float _) <= hitBound)%nat).
  { change (attempts (@twentyHits float _)) with 20%nat.
    unfold hitBound. lia. }
  split; [exact H|]. exact (multiplier_follows_streak twentyHits H).
Defined.

Lemma lane_of_an_integer_pitch_witness :
  let s : State.t float := initialState in
  let e : Note.t float := chartNote (-3) 0 1.5 in
  (- MAX_PITCH <= -3 <= MAX_PITCH)%Z
  /\ Note.pitch e = lit (inject_Z (-3))
  /\ (forall c : Z,
         (-3 <= c <= 3)%Z ->
         eqb (assignColumn (Note.pitch e)) (lit (inject_Z c)) = (-3 =? c)%Z)
  /\ Tail.x (createTail s e) = "undefined"%string
  /\ Tail.style (createTail s e) = "fill: undefined"%string.
Proof.
  cbv zeta.
  assert (Hp : (- MAX_PITCH <= -3 <= MAX_PITCH)%Z) by (unfold MAX_PITCH; lia).
  assert (E : Note.pitch (@chartNote float _ (-3) 0 1.5) = lit (inject_Z (-3)))
    by reflexivity.
  split; [exact Hp|]. split; [exact E|].
  exact (@lane_of_an_integer_pitch (@initialState float _) _ _ Hp E).
Defined.

Lemma streams_repeat_after_10466_draws_witness :
  In (lit 100) seeds
  /\ (N.to_nat 8134 <= N.to_nat 9000)%nat
  /\ (N.to_nat 9000 + N.to_nat 10466 < N.to_nat 20000)%nat
  /\ nth_error (createRngStream (lit 100 : float) (N.to_nat 20000))
               (N.to_nat 9000 + N.to_nat 10466)
     = nth_error (createRngStream (lit 100 : float) (N.to_nat 20000))
                 (N.to_nat 9000).
Proof.
  assert (Hs : In (@lit float _ 100) seeds) by (left; reflexivity).
  assert (Hk : (N.to_nat 8134 <= N.to_nat 9000)%nat) by lia.
  assert (Hn : (N.to_nat 9000 + N.to_nat 10466 < N.to_nat 20000)%nat) by lia.
  split; [exact Hs|]. split; [exact Hk|]. split; [exact Hn|].
  exact (streams_repeat_after_10466_draws Hs Hk Hn).
Defined.

Lemma filler_notes_are_playable_witness :
  (0 < 1)%nat
  /\ exists note : Note.t float,
       nth_error (randomNotes 1) 0 = Some (Some note)
       /\ In (Note.instrumentName note) INSTRUMENT
       /\ leb (lit 0.5) (Note.velocity note) = true
       /\ leb (Note.velocity note) (lit 0.8) = true
       /\ leb (lit 0) (Note.pitch note) = true
       /\ leb (Note.pitch note) (lit 90) = true
       /\ Note.start note = lit 0
       /\ leb (lit 0) (Note.end_ note) = true
       /\ ltb (Note.end_ note) (lit 0.5) = true
       /\ Note.userPlayed note = false
       /\ Note.tail note = None.
Proof.
  assert (H : (0 < 1)%nat) by lia.
  split; [exact H|]. exact (filler_notes_are_playable H).
Defined.

Example hit_note_is_played_again_by_the_next_spawn :
  let s : State.t float := run initialState shortAtLine in
  soundsOf s [KeyPressEvent (lit 0); MusicNote (chartNote 1 0 0.5)]
  = [PlayInstrument (firstNote s); PlayInstrument (firstNote s)].
Proof. vm_compute. reflexivity. Qed.

Lemma queued_sounds_are_replayed_until_the_next_tick_witness :
  let s : State.t float := run initialState shortNoteHit in
  let es : list (Event float) := [MusicNote (chartNote 1 0 0.5)] in
  State.gameEnd s = false
  /\ forallb betweenTicks es = true
  /\ List.length (rendered s es) = List.length es
  /\ Forall (fun s' =>
               (exists p, State.playNote s' = State.playNote s ++ p)
               /\ (exists r, State.randomNotes s' = State.randomNotes s ++ r))
            (rendered s es)
  /\ ((List.length (State.playNote s) + List.length (State.randomNotes s))
      * List.length es <= List.length (soundsOf s es))%nat.
Proof.
  cbv zeta. set (s := run (@initialState float _) shortNoteHit).
  set (es := [MusicNote (@chartNote float _ 1 0 0.5)]).
  assert (Hg : State.gameEnd s = false) by (vm_compute; reflexivity).
  assert (He : forallb betweenTicks es = true) by reflexivity.
  split; [exact Hg|]. split; [exact He|].
  exact (@queued_sounds_are_replayed_until_the_next_tick _ _ s es Hg He).
Defined.

Lemma score_never_drops_within_bound_witness :
  let es1 : list (Event float) :=
    repeat (MusicNote (chartNote 0 0 0.5)) 20 ++ ticks 0 100 in
  let es2 : list (Event float) := repeat (KeyPressEvent (lit 0)) 20 in
  (attempts (es1 ++ es2) <= pressBound)%nat
  /\ State.score (run initialState es1) = lit 0
  /\ State.score (run initialState (es1 ++ es2)) = lit 22.4
  /\ (State.score (run initialState es1)
      <= State.score (run initialState (es1 ++ es2)))%js = true.
Proof.
  cbv zeta.
  assert (H : (attempts
                 ((repeat (MusicNote (chartNote 0 0 0.5)) 20 ++ ticks 0 100)
                  ++ repeat (KeyPressEvent (lit 0 : float)) 20)
               <= pressBound)%nat).
  { rewrite attempts_app.
    change (attempts (repeat (KeyPressEvent (lit 0 : float)) 20)) with 20%nat.
    change (attempts (repeat (MusicNote (chartNote 0 0 0.5)) 20
                      ++ @ticks float _ 0 100)) with 0%nat.
    unfold pressBound. lia. }
  split; [exact H|].
  split; [vm_compute; reflexivity|].
  split; [vm_compute; reflexivity|].
  exact (score_never_drops_within_bound _ _ H).
Defined.
